(** * Notion document-comment plugin: a shallow embedding of the polling core

    The development follows the plugin source (version 0.2.0, with the
    0.1.0 file in mind where the two agree): the JavaScript built-ins the
    core relies on, the Notion records, the paginated fetchers, link
    extraction from the index page, comment aggregation, the responder
    dispatcher, the per-thread decision and the poll cycle with its
    persisted state.

    Conventions.
    - A JavaScript string is represented by its UTF-8 bytes (a [string]).
      Every operation of the source that looks inside a string (the two
      identifier patterns, [trim], [decodeURIComponent], [startsWith]) is
      insensitive to the difference with UTF-16 code units, because the
      characters it tests are ASCII or are recognised as whole code points.
    - [undefined]/[null] are [None]; JavaScript truthiness of an optional
      string is [truthy].
    - The remote services (Notion, the chat endpoints, the environment) are
      the fields of a [World]; one cycle reads them as functions of the
      request.
    - Loops over remote pagination take fuel; [OutOfFuel] stands for a
      fetch that has not finished within the allotted rounds. *)

From Stdlib Require Import ZArith List String Ascii Lia Permutation Sorted.
From stdpp Require Import base option list strings gmap.

Local Open Scope string_scope.
Local Open Scope Z_scope.
Local Open Scope list_scope.

(** ** JavaScript built-ins *)

Module Js.

(** [x] is truthy: defined and not the empty string. *)
Definition truthy (x : option string) : bool :=
  match x with
  | Some s => negb (String.eqb s "")
  | None => false
  end.

(** [x || d] on strings. *)
Definition or_else (x : option string) (d : string) : string :=
  match x with
  | Some s => if String.eqb s "" then d else s
  | None => d
  end.

(** [s || undefined] *)
Definition or_undefined (s : string) : option string :=
  if String.eqb s "" then None else Some s.

(** [arr.includes(x)] on an array of strings. *)
Definition includes (arr : list string) (x : string) : bool :=
  bool_decide (x ∈ arr).

(** The names of the members of [Object.prototype]. Reading one of them
    from a plain object that has no property of that name of its own
    gives the inherited member (a function, or the prototype itself for
    [__proto__]) and not [undefined]. *)
Definition object_prototype : list string :=
  ["constructor"; "__defineGetter__"; "__defineSetter__"; "hasOwnProperty";
   "__lookupGetter__"; "__lookupSetter__"; "isPrototypeOf"; "propertyIsEnumerable";
   "toString"; "valueOf"; "__proto__"; "toLocaleString"].

Definition inherited (key : string) : bool :=
  bool_decide (key ∈ object_prototype).

(** [arr.join("")]. *)
Definition join (parts : list string) : string :=
  fold_right String.append "" parts.

Definition code (c : ascii) : N := N_of_ascii c.

(** One character of the class [[a-f0-9]] under the [i] flag. *)
Definition is_hex (c : ascii) : bool :=
  let n := code c in
  ((48 <=? n) && (n <=? 57) || (97 <=? n) && (n <=? 102)
   || (65 <=? n) && (n <=? 70))%N.

(** The white space and line terminators of ECMAScript ([\s], and what
    [trim] removes): U+0009..U+000D, U+0020, and in UTF-8 U+00A0 (C2 A0),
    U+1680 (E1 9A 80), U+2000..U+200A (E2 80 80..8A), U+2028, U+2029,
    U+202F (E2 80 A8/A9/AF), U+205F (E2 81 9F), U+3000 (E3 80 80) and
    U+FEFF (EF BB BF). *)
Definition ws1 (c : ascii) : bool :=
  let n := code c in ((9 <=? n) && (n <=? 13) || (n =? 32))%N.

Definition ws2 (c1 c2 : ascii) : bool :=
  ((code c1 =? 194) && (code c2 =? 160))%N.

Definition ws3 (c1 c2 c3 : ascii) : bool :=
  let a := code c1 in
  let b := code c2 in
  let c := code c3 in
  ((a =? 225) && (b =? 154) && (c =? 128)
   || (a =? 226) && (b =? 128)
      && ((128 <=? c) && (c <=? 138) || (c =? 168) || (c =? 169) || (c =? 175))
   || (a =? 226) && (b =? 129) && (c =? 159)
   || (a =? 227) && (b =? 128) && (c =? 128)
   || (a =? 239) && (b =? 187) && (c =? 191))%N.

(** Drop the white space at the front of a byte list. With [backwards] the
    list is a reversed string, so multi-byte code points are read in
    reverse. *)
Fixpoint strip (backwards : bool) (l : list ascii) : list ascii :=
  match l with
  | c1 :: r1 =>
      if ws1 c1 then strip backwards r1
      else
        match r1 with
        | c2 :: r2 =>
            if (if backwards then ws2 c2 c1 else ws2 c1 c2)
            then strip backwards r2
            else
              match r2 with
              | c3 :: r3 =>
                  if (if backwards then ws3 c3 c2 c1 else ws3 c1 c2 c3)
                  then strip backwards r3
                  else l
              | [] => l
              end
        | [] => l
        end
  | [] => l
  end.

Definition chars (s : string) : list ascii := list_ascii_of_string s.
Definition text (l : list ascii) : string := string_of_list_ascii l.

Definition trimEndChars (l : list ascii) : list ascii :=
  rev (strip true (rev l)).

(** [s.trim()]. *)
Definition trim (s : string) : string :=
  text (trimEndChars (strip false (chars s))).

(** [s.startsWith(p)]. *)
Definition startsWith (s p : string) : bool := String.prefix p s.

(** [s.match(/([a-f0-9]{32})\s*$/i)], the captured group. The only start
    position at which the pattern can match is 32 characters before the
    trailing white space. *)
Definition match_trailing_hex32 (s : string) : option string :=
  let t := trimEndChars (chars s) in
  let n := length t in
  if (32 <=? n)%nat then
    let cand := drop (n - 32) t in
    if forallb is_hex cand then Some (text cand) else None
  else None.

(** The shape 8-4-4-4-12 read from position [i] on. *)
Fixpoint uuid_shape (i : nat) (l : list ascii) : bool :=
  match l with
  | [] => true
  | c :: r =>
      (if bool_decide (i ∈ [8; 13; 18; 23]%nat)
       then bool_decide (c = "-"%char) else is_hex c)
      && uuid_shape (S i) r
  end.

Definition uuid_at (l : list ascii) : option (list ascii) :=
  let cand := take 36 l in
  if (length cand =? 36)%nat && uuid_shape 0 cand then Some cand else None.

Fixpoint match_uuid_chars (l : list ascii) : option (list ascii) :=
  match uuid_at l with
  | Some u => Some u
  | None =>
      match l with
      | [] => None
      | _ :: r => match_uuid_chars r
      end
  end.

(** [s.match(/([a-f0-9]{8}-[a-f0-9]{4}-[a-f0-9]{4}-[a-f0-9]{4}-[a-f0-9]{12})/i)]:
    the leftmost occurrence. *)
Definition match_uuid (s : string) : option string :=
  text <$> match_uuid_chars (chars s).

(** [s.slice(i, j)] and [s.slice(i)] for indices within the string. *)
Definition slice (i j : nat) (s : string) : string :=
  text (take (j - i) (drop i (chars s))).
Definition slice_from (i : nat) (s : string) : string :=
  text (drop i (chars s)).

(** *** [decodeURIComponent] *)

Definition hex_val (c : ascii) : option N :=
  let n := code c in
  if ((48 <=? n) && (n <=? 57))%N then Some (n - 48)%N
  else if ((97 <=? n) && (n <=? 102))%N then Some (n - 87)%N
  else if ((65 <=? n) && (n <=? 70))%N then Some (n - 55)%N
  else None.

(** A literal character or an escaped octet. *)
Inductive UriToken := Lit (c : ascii) | Esc (b : N).

(** Every [%] must be followed by two hexadecimal digits. *)
Fixpoint uri_tokens (l : list ascii) : option (list UriToken) :=
  match l with
  | [] => Some []
  | c :: r =>
      if bool_decide (c = "%"%char) then
        match r with
        | h1 :: h2 :: r' =>
            match hex_val h1, hex_val h2 with
            | Some a, Some b =>
                match uri_tokens r' with
                | Some ts => Some (Esc (16 * a + b)%N :: ts)
                | None => None
                end
            | _, _ => None
            end
        | _ => None
        end
      else
        match uri_tokens r with
        | Some ts => Some (Lit c :: ts)
        | None => None
        end
  end.

Definition cont (b : N) : bool := ((128 <=? b) && (b <=? 191))%N.
Definition between (lo hi b : N) : bool := ((lo <=? b) && (b <=? hi))%N.

(** The well-formed UTF-8 sequences of two, three and four octets. *)
Definition utf8_2 (a b : N) : bool := between 194 223 a && cont b.
Definition utf8_3 (a b c : N) : bool :=
  ((a =? 224)%N && between 160 191 b
   || between 225 236 a && cont b
   || (a =? 237)%N && between 128 159 b
   || between 238 239 a && cont b) && cont c.
Definition utf8_4 (a b c d : N) : bool :=
  ((a =? 240)%N && between 144 191 b
   || between 241 243 a && cont b
   || (a =? 244)%N && between 128 143 b) && cont c && cont d.

Definition byte (b : N) : ascii := ascii_of_N b.

(** Escaped octets below 128 stand for themselves; from 128 on they must
    spell, all as escapes, one well-formed UTF-8 sequence. *)
Fixpoint uri_decode (ts : list UriToken) : option (list ascii) :=
  match ts with
  | [] => Some []
  | Lit c :: r => cons c <$> uri_decode r
  | Esc a :: r =>
      if (a <? 128)%N then cons (byte a) <$> uri_decode r
      else
        match r with
        | Esc b :: r2 =>
            if between 192 223 a then
              if utf8_2 a b then (λ t, byte a :: byte b :: t) <$> uri_decode r2
              else None
            else
              match r2 with
              | Esc c :: r3 =>
                  if between 224 239 a then
                    if utf8_3 a b c
                    then (λ t, byte a :: byte b :: byte c :: t) <$> uri_decode r3
                    else None
                  else
                    match r3 with
                    | Esc d :: r4 =>
                        if utf8_4 a b c d
                        then (λ t, byte a :: byte b :: byte c :: byte d :: t)
                               <$> uri_decode r4
                        else None
                    | _ => None
                    end
              | _ => None
              end
        | _ => None
        end
  end.

(** [decodeURIComponent(s)]; [None] is the [URIError] it throws. *)
Definition decodeURIComponent (s : string) : option string :=
  ts ← uri_tokens (chars s);
  text <$> uri_decode ts.

End Js.

(** ** Records of the document service *)

(** One run of rich text: [plain_text], [text?.link?.url] and [href]. *)
Record RichText := {
  plain_text : string;
  link_url : option string;
  href : option string;
}.

(** [NotionComment]. [created_time] holds the instant the source obtains
    with [new Date(c.created_time).getTime()], in milliseconds; the service
    sends well-formed ISO timestamps. [created_by] is [created_by.id]. *)
Record NotionComment := {
  id : string;
  discussion_id : string;
  created_time : Z;
  rich_text : list RichText;
  created_by : string;
}.

(** A content block as the source probes it: [block.id], [block.type],
    [block.link_to_page?.page_id] and [block[block.type]?.rich_text]. *)
Record Block := {
  block_id : string;
  block_type : string;
  link_to_page_id : option string;
  block_rich_text : option (list RichText);
}.

(** A property of a page: [p.type] and [p.title]. *)
Record PageProperty := {
  prop_type : string;
  prop_title : option (list RichText);
}.

(** One answer of a paginated [list] call. *)
Record ListResponse (A : Type) := {
  results : list A;
  has_more : bool;
  next_cursor : option string;
}.
Arguments results {A} _.
Arguments has_more {A} _.
Arguments next_cursor {A} _.

(** A remote call resolves or rejects with an error and its [message]. *)
Inductive ApiResult (A : Type) :=
  | Resolved (a : A)
  | Rejected (message : option string).
Arguments Resolved {A} a.
Arguments Rejected {A} message.

(** What [fetch] on a chat-completions endpoint can do: reject, answer
    with a status that is not ok, answer with a body that is not JSON, or
    answer with JSON whose [choices[0].message.content] is given. *)
Inductive ChatOutcome :=
  | FetchRejected
  | NotOk (status : Z) (errText : string)
  | BadJson
  | Json (content : option string).

Record ChatRequest := {
  req_url : string;
  req_authorization : option string;
  req_model : string;
  req_system : string;
  req_user : string;
}.

(** The services one poll cycle talks to. *)
Record World := {
  comments_list : string → option string → ApiResult (ListResponse NotionComment);
  blocks_children_list : string → option string → ApiResult (ListResponse Block);
  comments_create : string → string → ApiResult unit;
  pages_retrieve : string → ApiResult (list PageProperty);
  chat_completions : ChatRequest → ChatOutcome;
  process_env : string → option string;
}.

(** [PluginConfig], the fields the polling core reads. *)
Record PluginConfig := {
  enabled : bool;
  indexPage : option string;
  watchedPages : list string;
  aiBaseUrl : option string;
  aiApiKey : option string;
  aiApiKeyEnv : option string;
  aiModel : option string;
  useGatewayChatCompletions : option bool;
  gatewayBaseUrl : option string;
  gatewayApiKey : option string;
  gatewayApiKeyEnv : option string;
  systemPrompt : option string;
}.

(** [ProcessedState]: the page identifier maps to the processed comment
    identifiers, in the order they were pushed. *)
Record ProcessedState := {
  lastPollTime : Z;
  processedComments : gmap string (list string);
}.

(** ** Outcomes of effectful code *)

(** What is thrown: the [URIError] of [decodeURIComponent], and the
    [TypeError] of calling a method on a value that has no such method. *)
Inductive Exn :=
  | URIError
  | NotAFunction.

Inductive Run (A : Type) :=
  | Ret (a : A)
  | Throw (e : Exn)
  | OutOfFuel.
Arguments Ret {A} a.
Arguments Throw {A} e.
Arguments OutOfFuel {A}.

#[global] Instance Run_ret : MRet Run := @Ret.
#[global] Instance Run_bind : MBind Run := λ A B f m,
  match m with
  | Ret a => f a
  | Throw e => Throw e
  | OutOfFuel => OutOfFuel
  end.

(** What the cycle does to the outside, in order. [Respond] is one call of
    the dispatcher [processCommentWithAgent]; [Post] is one call of
    [replyToComment] with its result. *)
Inductive Event :=
  | Respond (prompt : string) (response : string)
  | Post (discussionId : string) (replyText : string) (success : bool).

(** ** State store *)

(** The state file: [None] when it is absent or does not parse. *)
Definition Disk := option ProcessedState.

Definition loadState (disk : Disk) : ProcessedState :=
  match disk with
  | Some st => st
  | None => {| lastPollTime := 0; processedComments := ∅ |}
  end.

Definition saveState (st : ProcessedState) : Disk := Some st.

(** ** Text extraction *)

Definition extractTextFromComment (comment : NotionComment) : string :=
  Js.join (map plain_text (rich_text comment)).

Definition extractBlockText (block : Block) : string :=
  match block_rich_text block with
  | None => ""
  | Some rts => Js.join (map plain_text rts)
  end.

(** ** Paginated fetchers *)

Section Fetchers.
Context {A : Type}.

(** [cursor = response.has_more ? (response.next_cursor ?? undefined) : undefined] *)
Definition following (r : ListResponse A) : option string :=
  if has_more r then next_cursor r else None.

(** The [do ... while (cursor)] loop inside [try]: every rejection is
    caught and what has been accumulated is returned. *)
Fixpoint listAll (fuel : nat) (list_call : option string → ApiResult (ListResponse A))
    (cursor : option string) (acc : list A) : Run (list A) :=
  match fuel with
  | O => OutOfFuel
  | S fuel' =>
      match list_call cursor with
      | Rejected _ => Ret acc
      | Resolved response =>
          let acc' := acc ++ results response in
          let cursor' := following response in
          if Js.truthy cursor' then listAll fuel' list_call cursor' acc'
          else Ret acc'
      end
  end.
End Fetchers.

Definition getCommentsForBlock (fuel : nat) (notion : World) (blockId : string)
    : Run (list NotionComment) :=
  listAll fuel (comments_list notion blockId) None [].

Definition getPageBlocks (fuel : nat) (notion : World) (pageId : string)
    : Run (list Block) :=
  listAll fuel (blocks_children_list notion pageId) None [].

(** ** Link extraction from the index page *)

Definition push_new (pageIds : list string) (x : string) : list string :=
  if Js.includes pageIds x then pageIds else pageIds ++ [x].

Definition format_uuid (i : string) : string :=
  Js.slice 0 8 i +:+ "-" +:+ Js.slice 8 12 i +:+ "-" +:+ Js.slice 12 16 i
  +:+ "-" +:+ Js.slice 16 20 i +:+ "-" +:+ Js.slice_from 20 i.

Definition extractFromUrl (pageIds : list string) (url : string)
    : Run (list string) :=
  match Js.decodeURIComponent url with
  | None => Throw URIError
  | Some decodedUrl =>
      let pageIds1 :=
        match Js.match_trailing_hex32 decodedUrl with
        | Some i => push_new pageIds (format_uuid i)
        | None => pageIds
        end in
      let pageIds2 :=
        match Js.match_uuid decodedUrl with
        | Some u => push_new pageIds1 u
        | None => pageIds1
        end in
      Ret pageIds2
  end.

Definition when_truthy (x : option string) (f : string → list string → Run (list string))
    (pageIds : list string) : Run (list string) :=
  match x with
  | Some s => if Js.truthy x then f s pageIds else Ret pageIds
  | None => Ret pageIds
  end.

Fixpoint processRichText (richTextArray : list RichText) (pageIds : list string)
    : Run (list string) :=
  match richTextArray with
  | [] => Ret pageIds
  | rt :: rest =>
      pageIds1 ← when_truthy (link_url rt) (λ u p, extractFromUrl p u) pageIds;
      pageIds2 ← when_truthy (href rt) (λ u p, extractFromUrl p u) pageIds1;
      processRichText rest pageIds2
  end.

Definition extractBlock (block : Block) (pageIds : list string) : Run (list string) :=
  if String.eqb (block_type block) "child_page" then
    Ret (push_new pageIds (block_id block))
  else if String.eqb (block_type block) "child_database" then
    Ret pageIds
  else if String.eqb (block_type block) "link_to_page" then
    match link_to_page_id block with
    | Some linkedId =>
        if Js.truthy (Some linkedId) then Ret (push_new pageIds linkedId)
        else Ret pageIds
    | None => Ret pageIds
    end
  else
    match block_rich_text block with
    | Some rts => processRichText rts pageIds
    | None => Ret pageIds
    end.

Fixpoint extractBlocks (blocks : list Block) (pageIds : list string)
    : Run (list string) :=
  match blocks with
  | [] => Ret pageIds
  | block :: rest =>
      pageIds' ← extractBlock block pageIds;
      extractBlocks rest pageIds'
  end.

Definition extractPageLinks (blocks : list Block) : Run (list string) :=
  extractBlocks blocks [].

Definition getWatchedPagesFromIndex (fuel : nat) (notion : World) (indexPageId : string)
    : Run (list string) :=
  blocks ← getPageBlocks fuel notion indexPageId;
  match blocks with
  | [] => Ret []
  | _ => extractPageLinks blocks
  end.

(** ** Comment aggregation *)

(** An aggregated comment with the text of the block it is anchored to. *)
Record Entry := {
  comment : NotionComment;
  quote : option string;
}.

Definition commentable (block : Block) : bool :=
  negb (Js.includes ["child_page"; "child_database"; "unsupported"] (block_type block)).

(** The loop over the blocks of the page; for a block without comments
    nothing is pushed. *)
Fixpoint inlineComments (fuel : nat) (notion : World) (blocks : list Block)
    (results : list Entry) : Run (list Entry) :=
  match blocks with
  | [] => Ret results
  | block :: rest =>
      if commentable block then
        blockComments ← getCommentsForBlock fuel notion (block_id block);
        let q := Js.or_undefined (extractBlockText block) in
        inlineComments fuel notion rest
          (results ++ map (λ c, {| comment := c; quote := q |}) blockComments)
      else inlineComments fuel notion rest results
  end.

Definition getAllCommentsForPage (fuel : nat) (notion : World) (pageId : string)
    : Run (list Entry) :=
  pageComments ← getCommentsForBlock fuel notion pageId;
  let results := map (λ c, {| comment := c; quote := None |}) pageComments in
  blocks ← getPageBlocks fuel notion pageId;
  inlineComments fuel notion blocks results.

(** ** Replying *)

Definition replyToComment (notion : World) (discussionId replyText : string) : bool :=
  match comments_create notion discussionId replyText with
  | Resolved _ => true
  | Rejected _ => false
  end.

(** ** Responder dispatcher *)

Definition getEnv (notion : World) (name : option string) : string :=
  match name with
  | Some n => if Js.truthy name then default "" (process_env notion n) else ""
  | None => ""
  end.

Fixpoint firstNonEmpty (values : list (option string)) : string :=
  match values with
  | [] => ""
  | Some value :: rest =>
      if String.eqb (Js.trim value) "" then firstNonEmpty rest else Js.trim value
  | None :: rest => firstNonEmpty rest
  end.

Fixpoint drop_slashes (l : list ascii) : list ascii :=
  match l with
  | c :: r => if bool_decide (c = "/"%char) then drop_slashes r else l
  | [] => []
  end.

(** [baseUrl.replace(/\/+$/, "")] *)
Definition normalizeBaseUrl (baseUrl : string) : string :=
  Js.text (rev (drop_slashes (rev (Js.chars baseUrl)))).

Definition apology_no_text : string := "抱歉，我暂时无法处理这条评论。".
Definition apology_gateway_down : string := "抱歉，AI 网关暂时不可用，请稍后再试。".
Definition apology_not_configured : string := "抱歉，AI 回复功能未配置。".
Definition apology_failed : string := "抱歉，处理评论时遇到了问题，请稍后再试。".

Definition extractAssistantTextFromChatCompletions (content : option string) : string :=
  Js.or_else content "".

(** [None] is a rejected promise: the request failed, the status was not
    ok, or the body did not parse. *)
Definition callChatCompletions (notion : World)
    (baseUrl apiKey model systemPrompt prompt : string) : option string :=
  let request := {|
    req_url := normalizeBaseUrl baseUrl +:+ "/chat/completions";
    req_authorization :=
      if String.eqb apiKey "" then None else Some ("Bearer " +:+ apiKey);
    req_model := model;
    req_system := systemPrompt;
    req_user := prompt |} in
  match chat_completions notion request with
  | FetchRejected => None
  | NotOk _ _ => None
  | BadJson => None
  | Json content =>
      let text := extractAssistantTextFromChatCompletions content in
      Some (Js.or_else (Some text) apology_no_text)
  end.

Definition default_system_prompt : string :=
  "你是一个友好、专业的 AI 助手。用户在 Notion 文档中发表了评论，请用简洁的中文回复。不要使用 Markdown 格式。".

Definition useGateway (config : PluginConfig) : bool :=
  match useGatewayChatCompletions config with
  | Some false => false
  | _ => true
  end.

Definition gatewayModel (config : PluginConfig) : string :=
  Js.or_else (aiModel config) "openclaw:friday".

Definition externalModel (config : PluginConfig) : string :=
  match aiModel config with
  | Some m =>
      if Js.truthy (Some m) && negb (Js.startsWith m "openclaw:") then m
      else "gpt-5.3-codex-xhigh"
  | None => "gpt-5.3-codex-xhigh"
  end.

Definition externalApiKey (notion : World) (config : PluginConfig) : string :=
  firstNonEmpty [aiApiKey config; Some (getEnv notion (aiApiKeyEnv config))].

Definition callExternal (notion : World) (config : PluginConfig) (prompt : string)
    : option string :=
  if String.eqb (externalApiKey notion config) "" then Some apology_not_configured
  else
    callChatCompletions notion
      (Js.or_else (aiBaseUrl config) "https://right.codes/codex/v1")
      (externalApiKey notion config) (externalModel config)
      (Js.or_else (systemPrompt config) default_system_prompt) prompt.

(** The local gateway first, unless switched off; the external endpoint
    as the fallback. *)
Definition callAI (notion : World) (config : PluginConfig) (prompt : string)
    : option string :=
  let gatewayApiKey :=
    firstNonEmpty [gatewayApiKey config; Some (getEnv notion (gatewayApiKeyEnv config))] in
  if useGateway config then
    match callChatCompletions notion
            (Js.or_else (gatewayBaseUrl config) "http://127.0.0.1:18789/v1")
            gatewayApiKey (gatewayModel config)
            (Js.or_else (systemPrompt config) default_system_prompt) prompt with
    | Some text => Some text
    | None =>
        if String.eqb (externalApiKey notion config) "" then Some apology_gateway_down
        else callExternal notion config prompt
    end
  else callExternal notion config prompt.

Definition buildPrompt (commentText : string) (pageTitle quote : option string) : string :=
  if Js.truthy quote then
    if Js.truthy pageTitle then
      "用户在 Notion 页面「" +:+ default "" pageTitle +:+ "」中对以下内容划词评论：

引用内容：「" +:+ default "" quote +:+ "」

评论：" +:+ commentText +:+ "

请回复这条评论。"
    else
      "用户在 Notion 文档中对以下内容划词评论：

引用内容：「" +:+ default "" quote +:+ "」

评论：" +:+ commentText +:+ "

请回复这条评论。"
  else
    if Js.truthy pageTitle then
      "用户在 Notion 页面「" +:+ default "" pageTitle +:+ "」中发表了评论：" +:+ commentText +:+ "

请回复这条评论。"
    else
      "用户在 Notion 文档中发表了评论：" +:+ commentText +:+ "

请回复这条评论。".

Definition processCommentWithAgent (notion : World) (config : PluginConfig)
    (commentText : string) (pageTitle quote : option string) : string :=
  match callAI notion config (buildPrompt commentText pageTitle quote) with
  | Some text => text
  | None => apology_failed
  end.

Definition getPageTitle (notion : World) (pageId : string) : option string :=
  match pages_retrieve notion pageId with
  | Rejected _ => None
  | Resolved properties =>
      match List.find (λ p, String.eqb (prop_type p) "title") properties with
      | Some titleProp =>
          match prop_title titleProp with
          | Some runs => Js.or_undefined (Js.join (map plain_text runs))
          | None => None
          end
      | None => None
      end
  end.

(** ** Threads *)

(** [groups.get(key).push(comment)], creating the group at the end of the
    map when the key is new. *)
Fixpoint group_push (key : string) (c : NotionComment)
    (groups : list (string * list NotionComment)) : list (string * list NotionComment) :=
  match groups with
  | [] => [(key, [c])]
  | (k, cs) :: rest =>
      if String.eqb k key then (k, cs ++ [c]) :: rest
      else (k, cs) :: group_push key c rest
  end.

(** A [Map] keeps its keys in insertion order. *)
Definition groupByDiscussion (comments : list NotionComment)
    : list (string * list NotionComment) :=
  fold_left (λ groups c, group_push (discussion_id c) c groups) comments [].

(** [threadComments.sort((a, b) => time(a) - time(b))]: the sort of
    JavaScript arrays is stable. *)
Fixpoint insert_by_time (c : NotionComment) (sorted : list NotionComment)
    : list NotionComment :=
  match sorted with
  | [] => [c]
  | d :: rest =>
      if created_time c <=? created_time d then c :: d :: rest
      else d :: insert_by_time c rest
  end.

Fixpoint sort_by_time (threadComments : list NotionComment) : list NotionComment :=
  match threadComments with
  | [] => []
  | c :: rest => insert_by_time c (sort_by_time rest)
  end.

(** [integrationUserId && latestComment.created_by.id === integrationUserId] *)
Definition is_self (integrationUserId : option string) (latestComment : NotionComment) : bool :=
  Js.truthy integrationUserId
  && bool_decide (integrationUserId = Some (created_by latestComment)).

(** The body of the loop over the discussions of one page: the list of
    processed identifiers after the thread, and what was done outside.
    A group is never empty (see [groupByDiscussion_nonempty]). *)
Definition threadStep (notion : World) (config : PluginConfig)
    (integrationUserId : option string) (pageId : string)
    (quoteMap : gmap string string) (processedIds : list string)
    (thread : string * list NotionComment) : list string * list Event :=
  let discussionId := thread.1 in
  match last (sort_by_time thread.2) with
  | None => (processedIds, [])
  | Some latestComment =>
      if Js.includes processedIds (id latestComment) then (processedIds, [])
      else if is_self integrationUserId latestComment then
        (processedIds ++ [id latestComment], [])
      else
        let commentText := extractTextFromComment latestComment in
        if String.eqb (Js.trim commentText) "" then
          (processedIds ++ [id latestComment], [])
        else
          let quote := quoteMap !! discussionId in
          let pageTitle := getPageTitle notion pageId in
          let response :=
            processCommentWithAgent notion config commentText pageTitle quote in
          let success := replyToComment notion discussionId response in
          (if success then processedIds ++ [id latestComment] else processedIds,
           [Respond (buildPrompt commentText pageTitle quote) response;
            Post discussionId response success])
  end.

Fixpoint processThreads (notion : World) (config : PluginConfig)
    (integrationUserId : option string) (pageId : string)
    (quoteMap : gmap string string)
    (discussions : list (string * list NotionComment))
    (processedIds : list string) : list string * list Event :=
  match discussions with
  | [] => (processedIds, [])
  | thread :: rest =>
      let step :=
        threadStep notion config integrationUserId pageId quoteMap processedIds thread in
      let after :=
        processThreads notion config integrationUserId pageId quoteMap rest step.1 in
      (after.1, step.2 ++ after.2)
  end.

(** [quoteMap.set(entry.comment.discussion_id, entry.quote)] for the
    entries that carry a quote. *)
Definition buildQuoteMap (commentEntries : list Entry) : gmap string string :=
  fold_left
    (λ quoteMap entry,
       match quote entry with
       | Some q =>
           if Js.truthy (Some q)
           then <[discussion_id (comment entry) := q]> quoteMap
           else quoteMap
       | None => quoteMap
       end)
    commentEntries ∅.

(** ** The poll cycle *)

(** What one page does once its comments are there. *)
Definition pagePass (notion : World) (config : PluginConfig)
    (integrationUserId : option string) (pageId : string)
    (commentEntries : list Entry) (processedIds : list string)
    : list string * list Event :=
  processThreads notion config integrationUserId pageId
    (buildQuoteMap commentEntries)
    (groupByDiscussion (map comment commentEntries)) processedIds.

Definition with_processed (state : ProcessedState) (pageId : string)
    (processedIds : list string) : ProcessedState :=
  {| lastPollTime := lastPollTime state;
     processedComments := <[pageId := processedIds]> (processedComments state) |}.

(** What [state.processedComments[pageId] || []] evaluates to.
    [processedComments] is a plain object: a page that has an entry of its
    own gives its list, and a page without one gives the fresh empty list,
    unless the page identifier names a member of [Object.prototype], in
    which case the inherited member comes back, which is not a list. *)
Inductive Stored :=
  | Ids (processedIds : list string)
  | Inherited.

Definition lookup_processed (state : ProcessedState) (pageId : string) : Stored :=
  match processedComments state !! pageId with
  | Some processedIds => Ids processedIds
  | None => if Js.inherited pageId then Inherited else Ids []
  end.

(** The body of [try] for one page. With a list at hand the threads are
    gone through and the list is stored under the page. With an inherited
    member at hand, [processedIds.includes] is not a function: the first
    thread raises before anything is done for it; when the page has no
    thread the member itself is assigned, which [saveState] does not write
    (a function is left out by [JSON.stringify], and assigning [__proto__]
    its own value changes nothing), so that no list is stored. *)
Definition processPage (fuel : nat) (notion : World) (config : PluginConfig)
    (integrationUserId : option string) (state : ProcessedState) (pageId : string)
    : Run (ProcessedState * list Event) :=
  commentEntries ← getAllCommentsForPage fuel notion pageId;
  match lookup_processed state pageId with
  | Ids processedIds =>
      let pass :=
        pagePass notion config integrationUserId pageId commentEntries processedIds in
      Ret (with_processed state pageId pass.1, pass.2)
  | Inherited =>
      match groupByDiscussion (map comment commentEntries) with
      | [] => Ret (state, [])
      | _ :: _ => Throw NotAFunction
      end
  end.

(** [try { ... } catch (error) { console.error(...) }] around one page:
    a page whose body raises is given up for this cycle, with the state as
    it was. *)
Definition tryPage (fuel : nat) (notion : World) (config : PluginConfig)
    (integrationUserId : option string) (state : ProcessedState) (pageId : string)
    : Run (ProcessedState * list Event) :=
  match processPage fuel notion config integrationUserId state pageId with
  | Throw _ => Ret (state, [])
  | r => r
  end.

Fixpoint pollPages (fuel : nat) (notion : World) (config : PluginConfig)
    (integrationUserId : option string) (watched : list string)
    (state : ProcessedState) : Run (ProcessedState * list Event) :=
  match watched with
  | [] => Ret (state, [])
  | pageId :: rest =>
      here ← tryPage fuel notion config integrationUserId state pageId;
      after ← pollPages fuel notion config integrationUserId rest here.1;
      Ret (after.1, here.2 ++ after.2)
  end.

(** The watch list: from the index page, else from the configuration. *)
Definition resolveWatched (fuel : nat) (notion : World) (config : PluginConfig)
    : Run (list string) :=
  fromIndex ←
    match indexPage config with
    | Some p =>
        if Js.truthy (Some p) then getWatchedPagesFromIndex fuel notion p else Ret []
    | None => Ret []
    end;
  match fromIndex, watchedPages config with
  | [], _ :: _ => Ret (watchedPages config)
  | _, _ => Ret fromIndex
  end.

(** One cycle. [now] is what [Date.now()] reads when the pages are done.
    The result is the state file after the cycle and the calls made. *)
Definition pollNotionComments (fuel : nat) (notion : World) (config : PluginConfig)
    (integrationUserId : option string) (now : Z) (disk : Disk)
    : Run (Disk * list Event) :=
  if negb (enabled config) then Ret (disk, [])
  else
    let state := loadState disk in
    watched ← resolveWatched fuel notion config;
    match watched with
    | [] => Ret (disk, [])
    | _ =>
        finished ← pollPages fuel notion config integrationUserId watched state;
        Ret (saveState {| lastPollTime := now;
                          processedComments := processedComments finished.1 |},
             finished.2)
    end.

(** [doPoll]: an error that escapes the cycle is logged; nothing was
    written. [None] is a cycle that has not finished. *)
Definition doPoll (fuel : nat) (notion : World) (config : PluginConfig)
    (integrationUserId : option string) (now : Z) (disk : Disk)
    : option (Disk * list Event) :=
  match pollNotionComments fuel notion config integrationUserId now disk with
  | Ret r => Some r
  | Throw _ => Some (disk, [])
  | OutOfFuel => None
  end.

(** ** The thread resolver in the words of the specification *)

(** The decision for one thread, taken from its latest comment: nothing
    when it is already processed; a skip that marks it processed when the
    integration wrote it or when its trimmed text is empty; an answer
    otherwise. *)
Inductive Action :=
  | NoAction
  | Skip (commentId : string)
  | Answer (latestComment : NotionComment) (commentText : string).

Definition resolveThread (integrationUserId : option string)
    (processedIds : list string) (latestComment : NotionComment) : Action :=
  if bool_decide (id latestComment ∈ processedIds) then NoAction
  else if is_self integrationUserId latestComment then Skip (id latestComment)
  else if bool_decide (Js.trim (extractTextFromComment latestComment) = "")
  then Skip (id latestComment)
  else Answer latestComment (extractTextFromComment latestComment).

(** Carrying an action out: a skip records the identifier; an answer
    calls the responder once, posts once, and records the identifier when
    the post went through. *)
Definition perform (notion : World) (config : PluginConfig) (pageId : string)
    (quoteMap : gmap string string) (processedIds : list string)
    (discussionId : string) (action : Action) : list string * list Event :=
  match action with
  | NoAction => (processedIds, [])
  | Skip commentId => (processedIds ++ [commentId], [])
  | Answer latestComment commentText =>
      let quote := quoteMap !! discussionId in
      let pageTitle := getPageTitle notion pageId in
      let response := processCommentWithAgent notion config commentText pageTitle quote in
      let success := replyToComment notion discussionId response in
      (if success then processedIds ++ [id latestComment] else processedIds,
       [Respond (buildPrompt commentText pageTitle quote) response;
        Post discussionId response success])
  end.

(** ** Counting what a cycle did *)

Definition is_respond (e : Event) : bool :=
  match e with
  | Respond _ _ => true
  | Post _ _ _ => false
  end.

Definition is_post (e : Event) : bool :=
  match e with
  | Respond _ _ => false
  | Post _ _ _ => true
  end.

Definition is_post_to (discussionId : string) (e : Event) : bool :=
  match e with
  | Respond _ _ => false
  | Post d _ _ => String.eqb d discussionId
  end.

Definition responses (events : list Event) : nat := length (List.filter is_respond events).
Definition posts (events : list Event) : nat := length (List.filter is_post events).
Definition posts_to (discussionId : string) (events : list Event) : nat :=
  length (List.filter (is_post_to discussionId) events).

(** Every reply that was posted went through. *)
Definition post_ok (e : Event) : Prop :=
  match e with
  | Respond _ _ => True
  | Post _ _ success => success = true
  end.

(** The discussions among the comments of a page. *)
Definition discussions_of (commentEntries : list Entry) : list string :=
  map (λ e, discussion_id (comment e)) commentEntries.

(** No discussion shows up under two of the pages. *)
Definition threads_on_one_page (fuel : nat) (notion : World) (pages : list string) : Prop :=
  ∀ p q ep eq d,
    p ∈ pages → q ∈ pages →
    getAllCommentsForPage fuel notion p = Ret ep →
    getAllCommentsForPage fuel notion q = Ret eq →
    d ∈ discussions_of ep → d ∈ discussions_of eq → p = q.

(** [d] is a discussion of one of [pages]. *)
Definition on_pages (fuel : nat) (notion : World) (pages : list string) (d : string) : Prop :=
  ∃ p ep, p ∈ pages ∧ getAllCommentsForPage fuel notion p = Ret ep ∧ d ∈ discussions_of ep.

(** The identifiers the state records for a page: the list of the page's
    own entry, none when the state has no entry for it. This is what the
    state file says; what the code reads at
    [state.processedComments[pageId] || []] is [lookup_processed]. *)
Definition processed (state : ProcessedState) (pageId : string) : list string :=
  default [] (processedComments state !! pageId).

(** ** Notions used in the statements *)

(** [rounds call c rs c']: starting with cursor [c], the service resolves
    the successive requests with [rs], each announcing a further page, and
    the cursor after them is [c']. *)
Inductive rounds {A} (call : option string → ApiResult (ListResponse A))
    : option string → list (ListResponse A) → option string → Prop :=
  | rounds_nil c : rounds call c [] c
  | rounds_cons c r rs c' :
      call c = Resolved r →
      Js.truthy (following r) = true →
      rounds call (following r) rs c' →
      rounds call c (r :: rs) c'.

Definition gathered {A} (rs : list (ListResponse A)) : list A :=
  concat (map results rs).

Definition time_le (c d : NotionComment) : Prop := created_time c ≤ created_time d.

(** [c] is the latest comment of [l]: no comment is younger, and the
    comments as young as [c] stand before it. *)
Definition is_latest (c : NotionComment) (l : list NotionComment) : Prop :=
  ∃ l1 l2,
    l = l1 ++ c :: l2
    ∧ Forall (λ d, created_time d ≤ created_time c) l1
    ∧ Forall (λ d, created_time d < created_time c) l2.

(** [g] groups [l]: the keys are distinct, each group holds, in the order
    of [l], the comments of [l] with its key, and no comment is left out. *)
Definition grouped (l : list NotionComment) (g : list (string * list NotionComment)) : Prop :=
  NoDup g.*1
  ∧ (∀ k cs, (k, cs) ∈ g → cs ≠ [] ∧ cs = filter (λ c, discussion_id c = k) l)
  ∧ (∀ c, c ∈ l → discussion_id c ∈ g.*1).

(** What one thread does outside: nothing, or one call of the responder
    followed by one post to that discussion. *)
Definition attempt (d : string) (evs : list Event) : Prop :=
  evs = [] ∨ ∃ prompt response success, evs = [Respond prompt response; Post d response success].

(** The latest comment of every thread is among [ids]. *)
Definition all_latest_in (groups : list (string * list NotionComment)) (ids : list string) : Prop :=
  ∀ d cs latest,
    (d, cs) ∈ groups → last (sort_by_time cs) = Some latest → id latest ∈ ids.

(** Page [p] is settled under [m]: its comments are there, and either the
    latest comment of each of its threads is recorded for [p], or [p] has
    no entry and names a member of [Object.prototype], so that the page is
    given up or left as it is. *)
Definition settled (fuel : nat) (notion : World) (p : string)
    (m : gmap string (list string)) : Prop :=
  ∃ entries,
    getAllCommentsForPage fuel notion p = Ret entries
    ∧ ((∃ ids, m !! p = Some ids
               ∧ all_latest_in (groupByDiscussion (map comment entries)) ids)
       ∨ (m !! p = None ∧ Js.inherited p = true)).




(** What the aggregator pushes for a page-level comment and for a comment
    on a block. *)
Definition page_entry (c : NotionComment) : Entry :=
  {| comment := c; quote := None |}.
Definition inline_entry (block : Block) (c : NotionComment) : Entry :=
  {| comment := c; quote := Js.or_undefined (extractBlockText block) |}.

(** [inline_of fuel notion blocks es]: [es] are the comments fetched under
    the commentable blocks of [blocks], block after block. *)
Inductive inline_of (fuel : nat) (notion : World) : list Block → list Entry → Prop :=
  | inline_nil : inline_of fuel notion [] []
  | inline_skip block rest es :
      commentable block = false →
      inline_of fuel notion rest es →
      inline_of fuel notion (block :: rest) es
  | inline_block block rest cs es :
      commentable block = true →
      getCommentsForBlock fuel notion (block_id block) = Ret cs →
      inline_of fuel notion rest es →
      inline_of fuel notion (block :: rest) (map (inline_entry block) cs ++ es).

(** The comments of a page have identifiers of their own. *)
Definition unique_comment_ids (commentEntries : list Entry) : Prop :=
  NoDup (map (λ e, id (comment e)) commentEntries).

(** The comments of discussion [d] among those of a page, in the order
    they were fetched. *)
Definition thread_of (d : string) (commentEntries : list Entry) : list NotionComment :=
  filter (λ c, discussion_id c = d) (map comment commentEntries).

(** The run came to an end within its fuel. *)
Definition finished {A} (r : Run A) : Prop := r ≠ OutOfFuel.

(** Every hyperlink of the run, and of the blocks, percent-decodes. *)
Definition decodable_run (rt : RichText) : Prop :=
  (∀ u, link_url rt = Some u → is_Some (Js.decodeURIComponent u))
  ∧ (∀ u, href rt = Some u → is_Some (Js.decodeURIComponent u)).

Definition decodable (blocks : list Block) : Prop :=
  Forall (λ block, Forall decodable_run (default [] (block_rich_text block))) blocks.

(** ** Concrete scenarios *)

Module Scenario.

Definition one_page {A} (xs : list A) : ApiResult (ListResponse A) :=
  Resolved {| results := xs; has_more := false; next_cursor := None |}.

Definition more {A} (xs : list A) (cursor : string) : ApiResult (ListResponse A) :=
  Resolved {| results := xs; has_more := true; next_cursor := Some cursor |}.

Definition say (s : string) : RichText :=
  {| plain_text := s; link_url := None; href := None |}.

Definition linked (s url : string) : RichText :=
  {| plain_text := s; link_url := Some url; href := Some url |}.

Definition remark (i d : string) (t : Z) (author body : string) : NotionComment :=
  {| id := i; discussion_id := d; created_time := t;
     rich_text := [say body]; created_by := author |}.

Definition paragraph (i : string) (runs : list RichText) : Block :=
  {| block_id := i; block_type := "paragraph";
     link_to_page_id := None; block_rich_text := Some runs |}.

Definition divider (i : string) : Block :=
  {| block_id := i; block_type := "divider";
     link_to_page_id := None; block_rich_text := None |}.

Definition child_page (i : string) : Block :=
  {| block_id := i; block_type := "child_page";
     link_to_page_id := None; block_rich_text := None |}.

Definition link_to_page (i target : string) : Block :=
  {| block_id := i; block_type := "link_to_page";
     link_to_page_id := Some target; block_rich_text := None |}.

(** The configuration of the examples: the local gateway is tried first
    and no external key is set. *)
Definition config (index : option string) (pages : list string) : PluginConfig :=
  {| enabled := true; indexPage := index; watchedPages := pages;
     aiBaseUrl := None; aiApiKey := None; aiApiKeyEnv := None; aiModel := None;
     useGatewayChatCompletions := None; gatewayBaseUrl := None;
     gatewayApiKey := None; gatewayApiKeyEnv := None; systemPrompt := None |}.

(** A workspace given by its tables: the comments under a page or block,
    the blocks of a page, the listings that are rejected, whether a reply
    can be created, and what the chat endpoint does. *)
Definition workspace (comments : string → list NotionComment)
    (blocks : string → list Block) (rejected : string → bool)
    (create : bool) (chat : ChatOutcome) : World :=
  {| comments_list := λ b _, if rejected b then Rejected (Some "timeout") else one_page (comments b);
     blocks_children_list := λ p _, one_page (blocks p);
     comments_create := λ _ _, if create then Resolved () else Rejected (Some "conflict");
     pages_retrieve := λ _, Resolved [{| prop_type := "title"; prop_title := Some [say "Q3 report"] |}];
     chat_completions := λ _, chat;
     process_env := λ _, None |}.

Definition on (key : string) {A} (xs : list A) (k : string) : list A :=
  if String.eqb k key then xs else [].

Definition question : NotionComment :=
  remark "c-0" "d-0" 100 "user-1" "Please clarify this metric.".
Definition inline_question : NotionComment :=
  remark "c-1" "d-1" 110 "user-1" "Why?".
Definition on_divider : NotionComment :=
  remark "c-2" "d-2" 120 "user-2" "Remove this line?".
Definition revenue : Block := paragraph "blk-1" [say "Revenue grew "; say "12%"].
Definition rule : Block := divider "blk-2".

(** One page with a page-level thread, an inline thread on a paragraph
    and an inline thread on a block without text. *)
Definition report_comments (k : string) : list NotionComment :=
  on "page-1" [question] k ++ on "blk-1" [inline_question] k ++ on "blk-2" [on_divider] k.
Definition report_blocks (k : string) : list Block :=
  on "page-1" [revenue; rule; child_page "sub-1"] k.

Definition report : World :=
  workspace report_comments report_blocks (λ _, false) true (Json (Some "Understood.")).

(** The same page when the listing of its page-level comments fails. *)
Definition report_top_level_down : World :=
  workspace report_comments report_blocks (λ k, String.eqb k "page-1") true
    (Json (Some "Understood.")).

(** The same page when replies cannot be created. *)
Definition report_read_only : World :=
  workspace report_comments report_blocks (λ _, false) false (Json (Some "Understood.")).

(** The same page when no chat endpoint answers. *)
Definition report_responder_down : World :=
  workspace report_comments report_blocks (λ _, false) true FetchRejected.

(** A thread whose latest comment was written by the integration. *)
Definition bot_reply : NotionComment :=
  remark "c-9" "d-0" 200 "bot-1" "Understood.".
Definition answered : World :=
  workspace (on "page-1" [question; bot_reply]) (λ _, []) (λ _, false) true
    (Json (Some "Understood.")).

(** A listing that fails in its third round. *)
Definition slow_comments (cursor : option string) : ApiResult (ListResponse NotionComment) :=
  match cursor with
  | None => more [question] "cur-1"
  | Some c =>
      if String.eqb c "cur-1" then more [inline_question] "cur-2"
      else Rejected (Some "rate limited")
  end.
Definition flaky : World :=
  {| comments_list := λ _ cursor, slow_comments cursor;
     blocks_children_list := λ _ _, one_page [];
     comments_create := λ _ _, Resolved ();
     pages_retrieve := λ _, Rejected None;
     chat_completions := λ _, Json (Some "Understood.");
     process_env := λ _, None |}.

(** An index page with a child page, a link to a page and a hyperlink. *)
Definition hex32 : string := "0123456789abcdef0123456789ABCDEF".
Definition index_blocks : list Block :=
  [child_page "B1"; link_to_page "blk-l" "P2";
   paragraph "blk-p" [linked "Title" ("https://host/Title-" +:+ hex32)]].

(** An index page one of whose links is percent-encoded in Latin-1. *)
Definition legacy_link : Block :=
  paragraph "blk-q" [linked "Café" "https://example.com/caf%E9"].
Definition legacy_index : World :=
  workspace report_comments (λ k, on "index" [child_page "page-1"; legacy_link] k ++ report_blocks k)
    (λ _, false) true (Json (Some "Understood.")).

End Scenario.

(** ** Further notions used in the statements *)

(** An argument [firstNonEmpty] passes over: undefined, or blank once
    trimmed. *)
Definition blank (value : option string) : Prop :=
  match value with
  | Some s => Js.trim s = ""
  | None => True
  end.

(** The identifiers of [xs] in the order they are first seen. *)
Definition first_seen (xs : list string) : list string :=
  fold_left push_new xs [].

(** The events are calls of the responder, each followed at once by the
    post of what it returned. *)
Definition answers (calls : list (string * string * string * bool)) : list Event :=
  concat (map (λ '(prompt, d, reply, success),
                 [Respond prompt reply; Post d reply success]) calls).

(** The request [callChatCompletions] sends. *)
Definition chat_request (baseUrl apiKey model systemPrompt prompt : string) : ChatRequest :=
  {| req_url := normalizeBaseUrl baseUrl +:+ "/chat/completions";
     req_authorization :=
       if String.eqb apiKey "" then None else Some ("Bearer " +:+ apiKey);
     req_model := model;
     req_system := systemPrompt;
     req_user := prompt |}.

(** The request [callAI] sends to the local gateway. *)
Definition gateway_request (notion : World) (config : PluginConfig) (prompt : string)
    : ChatRequest :=
  chat_request (Js.or_else (gatewayBaseUrl config) "http://127.0.0.1:18789/v1")
    (firstNonEmpty [gatewayApiKey config; Some (getEnv notion (gatewayApiKeyEnv config))])
    (gatewayModel config)
    (Js.or_else (systemPrompt config) default_system_prompt) prompt.

(** The request [callAI] sends to the external endpoint. *)
Definition external_request (notion : World) (config : PluginConfig) (prompt : string)
    : ChatRequest :=
  chat_request (Js.or_else (aiBaseUrl config) "https://right.codes/codex/v1")
    (externalApiKey notion config) (externalModel config)
    (Js.or_else (systemPrompt config) default_system_prompt) prompt.

(** What an answering endpoint makes the reply: the content, or the
    apology for a missing one. *)
Definition reply_of (content : option string) : string :=
  Js.or_else (Some (Js.or_else content "")) apology_no_text.

(** What is known of a call of the responder made by a cycle over
    [notion]: the prompt was built from a comment, the reply is what the
    dispatcher returned for it and is not empty, the post was made to the
    discussion with that reply, and it counts as done exactly when the
    service created the comment. *)
Definition faithful_call (notion : World) (config : PluginConfig)
    (call : string * string * string * bool) : Prop :=
  let '(prompt, d, reply, success) := call in
  reply ≠ ""
  ∧ match comments_create notion d reply with
    | Resolved _ => success = true
    | Rejected _ => success = false
    end
  ∧ ∃ commentText pageTitle quote,
      prompt = buildPrompt commentText pageTitle quote
      ∧ reply = processCommentWithAgent notion config commentText pageTitle quote.

(** A thread is pending when its latest comment is not recorded, was not
    written by the integration and has text. *)
Definition pending (uid : option string) (ids : list string) (latest : NotionComment)
    : Prop :=
  (id latest ∉ ids) ∧ is_self uid latest = false
  ∧ Js.trim (extractTextFromComment latest) ≠ "".

(** The reply a pending thread [d] of page [pageId] is owed, and the two
    calls that bring it: the responder, then the post with its outcome. *)
Definition reply_for (notion : World) (config : PluginConfig) (pageId : string)
    (entries : list Entry) (d : string) (latest : NotionComment) : string :=
  processCommentWithAgent notion config (extractTextFromComment latest)
    (getPageTitle notion pageId) (buildQuoteMap entries !! d).

Definition answer_of (notion : World) (config : PluginConfig) (pageId : string)
    (entries : list Entry) (d : string) (latest : NotionComment) (success : bool)
    : list Event :=
  [Respond (buildPrompt (extractTextFromComment latest) (getPageTitle notion pageId)
              (buildQuoteMap entries !! d))
     (reply_for notion config pageId entries d latest);
   Post d (reply_for notion config pageId entries d latest) success].

(** The service created the comment. *)
Definition created (notion : World) (d reply : string) : Prop :=
  ∃ u, comments_create notion d reply = Resolved u.

(** The quotes the entries of discussion [d] carry, in the order of the
    entries. *)
Definition quotes_of (d : string) (commentEntries : list Entry) : list string :=
  omap (λ entry,
          if decide (discussion_id (comment entry) = d)
          then (if Js.truthy (quote entry) then quote entry else None)
          else None)
    commentEntries.

(** ** The entry point *)

(** A property of a configuration object as JSON gives it: missing,
    [null], or a value of the type the interface declares. *)
Inductive Field (A : Type) :=
  | Absent
  | Null
  | Value (a : A).
Arguments Absent {A}.
Arguments Null {A}.
Arguments Value {A} a.

(** Reading a property where the code does not tell [undefined] from
    [null]. *)
Definition read {A} (f : Field A) : option A :=
  match f with
  | Value a => Some a
  | _ => None
  end.

(** [f ?? d]. *)
Definition nullish {A} (f : Field A) (d : A) : A :=
  match f with
  | Value a => a
  | _ => d
  end.

(** [Partial<PluginConfig>], without [pollIntervalMinutes]: that setting
    is a JSON number that only sets the period of the timer, and neither
    the number nor the timers are part of the model. *)
Record PartialPluginConfig := {
  raw_enabled : Field bool;
  raw_indexPage : Field string;
  raw_watchedPages : Field (list string);
  raw_notionApiKey : Field string;
  raw_notionApiKeyEnv : Field string;
  raw_integrationUserId : Field string;
  raw_aiBaseUrl : Field string;
  raw_aiApiKey : Field string;
  raw_aiApiKeyEnv : Field string;
  raw_aiModel : Field string;
  raw_useGatewayChatCompletions : Field bool;
  raw_gatewayBaseUrl : Field string;
  raw_gatewayApiKey : Field string;
  raw_gatewayApiKeyEnv : Field string;
  raw_systemPrompt : Field string;
}.

(** [{}]. *)
Definition no_settings : PartialPluginConfig :=
  {| raw_enabled := Absent; raw_indexPage := Absent;
     raw_watchedPages := Absent; raw_notionApiKey := Absent; raw_notionApiKeyEnv := Absent;
     raw_integrationUserId := Absent; raw_aiBaseUrl := Absent; raw_aiApiKey := Absent;
     raw_aiApiKeyEnv := Absent; raw_aiModel := Absent;
     raw_useGatewayChatCompletions := Absent; raw_gatewayBaseUrl := Absent;
     raw_gatewayApiKey := Absent; raw_gatewayApiKeyEnv := Absent;
     raw_systemPrompt := Absent |}.

(** [config.json]: not there, not JSON, or the object it holds. *)
Inductive ConfigFile :=
  | NoFile
  | NotJson
  | Parsed (settings : PartialPluginConfig).

Definition loadPluginConfig (file : ConfigFile) : PartialPluginConfig :=
  match file with
  | Parsed settings => settings
  | _ => no_settings
  end.

(** One property of [{...fileConfig, ...entryConfig}]: a property the
    second object has wins, also when it is [null]. *)
Definition spread {A} (fileField entryField : Field A) : Field A :=
  match entryField with
  | Absent => fileField
  | _ => entryField
  end.

Definition merge (fileConfig entryConfig : PartialPluginConfig) : PartialPluginConfig :=
  {| raw_enabled := spread (raw_enabled fileConfig) (raw_enabled entryConfig);
     raw_indexPage := spread (raw_indexPage fileConfig) (raw_indexPage entryConfig);
     raw_watchedPages := spread (raw_watchedPages fileConfig) (raw_watchedPages entryConfig);
     raw_notionApiKey := spread (raw_notionApiKey fileConfig) (raw_notionApiKey entryConfig);
     raw_notionApiKeyEnv :=
       spread (raw_notionApiKeyEnv fileConfig) (raw_notionApiKeyEnv entryConfig);
     raw_integrationUserId :=
       spread (raw_integrationUserId fileConfig) (raw_integrationUserId entryConfig);
     raw_aiBaseUrl := spread (raw_aiBaseUrl fileConfig) (raw_aiBaseUrl entryConfig);
     raw_aiApiKey := spread (raw_aiApiKey fileConfig) (raw_aiApiKey entryConfig);
     raw_aiApiKeyEnv := spread (raw_aiApiKeyEnv fileConfig) (raw_aiApiKeyEnv entryConfig);
     raw_aiModel := spread (raw_aiModel fileConfig) (raw_aiModel entryConfig);
     raw_useGatewayChatCompletions :=
       spread (raw_useGatewayChatCompletions fileConfig)
         (raw_useGatewayChatCompletions entryConfig);
     raw_gatewayBaseUrl :=
       spread (raw_gatewayBaseUrl fileConfig) (raw_gatewayBaseUrl entryConfig);
     raw_gatewayApiKey := spread (raw_gatewayApiKey fileConfig) (raw_gatewayApiKey entryConfig);
     raw_gatewayApiKeyEnv :=
       spread (raw_gatewayApiKeyEnv fileConfig) (raw_gatewayApiKeyEnv entryConfig);
     raw_systemPrompt := spread (raw_systemPrompt fileConfig) (raw_systemPrompt entryConfig) |}.

(** [config.plugins?.entries?.["notion-doc-comment"]], when there is one. *)
Record HostEntry := {
  entry_enabled : Field bool;
  entry_config : Field PartialPluginConfig;
}.

(** [ctx.config], the paths the entry point follows: the entry of the
    plugin ([None] when a link of the optional chain is missing) and
    [config.channels?.notion?.apiKey]. *)
Record HostConfig := {
  plugin_entry : option HostEntry;
  channel_apiKey : option string;
}.

(** What a started plugin runs its cycles with: the configuration and the
    integration identifier handed to every cycle, and the key of the
    client. The two timers that start the cycles are not modelled. *)
Record Started := {
  pluginConfig : PluginConfig;
  notionApiKey : string;
  integrationUserId : option string;
}.

Inductive Outcome :=
  | Created (started : Started)
  | NotCreated
  | TypeError.

Definition entryConfig (config : option HostConfig) : PartialPluginConfig :=
  match config ≫= plugin_entry with
  | Some entry => nullish (entry_config entry) no_settings
  | None => no_settings
  end.

Definition createPlugin (world : World) (file : ConfigFile) (config : option HostConfig)
    : Outcome :=
  let merged := merge (loadPluginConfig file) (entryConfig config) in
  match config with
  | None => TypeError
  | Some host =>
      let notionApiKey :=
        firstNonEmpty [read (raw_notionApiKey merged);
                       Some (getEnv world (read (raw_notionApiKeyEnv merged)));
                       channel_apiKey host] in
      if negb (Js.truthy (Some notionApiKey)) then NotCreated
      else
        let pluginConfig :=
          {| enabled :=
               match plugin_entry host with
               | Some entry => nullish (entry_enabled entry) true
               | None => true
               end;
             indexPage := read (raw_indexPage merged);
             watchedPages := nullish (raw_watchedPages merged) [];
             aiBaseUrl := read (raw_aiBaseUrl merged);
             aiApiKey := read (raw_aiApiKey merged);
             aiApiKeyEnv := read (raw_aiApiKeyEnv merged);
             aiModel := read (raw_aiModel merged);
             useGatewayChatCompletions := read (raw_useGatewayChatCompletions merged);
             gatewayBaseUrl := read (raw_gatewayBaseUrl merged);
             gatewayApiKey := read (raw_gatewayApiKey merged);
             gatewayApiKeyEnv := read (raw_gatewayApiKeyEnv merged);
             systemPrompt := read (raw_systemPrompt merged) |} in
        if negb (enabled pluginConfig) then NotCreated
        else
          Created {| pluginConfig := pluginConfig;
                     notionApiKey := notionApiKey;
                     integrationUserId := read (raw_integrationUserId merged) |}
  end.

(** [merged] in [createPlugin]. *)
Definition merged (file : ConfigFile) (config : option HostConfig) : PartialPluginConfig :=
  merge (loadPluginConfig file) (entryConfig config).

(** The three places [createPlugin] looks for the key in, in its order:
    the setting, the environment variable the setting names, the channel
    of the host configuration. *)
Definition key_sources (world : World) (file : ConfigFile) (host : HostConfig)
    : list (option string) :=
  [read (raw_notionApiKey (merged file (Some host)));
   Some (getEnv world (read (raw_notionApiKeyEnv (merged file (Some host)))));
   channel_apiKey host].

(** [config.plugins?.entries?.["notion-doc-comment"]?.enabled ?? true]. *)
Definition host_enabled (host : HostConfig) : bool :=
  match plugin_entry host with
  | Some entry => nullish (entry_enabled entry) true
  | None => true
  end.

(** The host has switched the plugin off. *)
Definition switched_off (host : HostConfig) : Prop :=
  ∃ entry, plugin_entry host = Some entry ∧ entry_enabled entry = Value false.

(** The settings with another [enabled]. *)
Definition with_raw_enabled (flag : Field bool) (settings : PartialPluginConfig)
    : PartialPluginConfig :=
  {| raw_enabled := flag;
     raw_indexPage := raw_indexPage settings;
     raw_watchedPages := raw_watchedPages settings;
     raw_notionApiKey := raw_notionApiKey settings;
     raw_notionApiKeyEnv := raw_notionApiKeyEnv settings;
     raw_integrationUserId := raw_integrationUserId settings;
     raw_aiBaseUrl := raw_aiBaseUrl settings;
     raw_aiApiKey := raw_aiApiKey settings;
     raw_aiApiKeyEnv := raw_aiApiKeyEnv settings;
     raw_aiModel := raw_aiModel settings;
     raw_useGatewayChatCompletions := raw_useGatewayChatCompletions settings;
     raw_gatewayBaseUrl := raw_gatewayBaseUrl settings;
     raw_gatewayApiKey := raw_gatewayApiKey settings;
     raw_gatewayApiKeyEnv := raw_gatewayApiKeyEnv settings;
     raw_systemPrompt := raw_systemPrompt settings |}.

(** An installation for the examples. [config.json] holds a key with
    blanks around it, switches the plugin off and names the integration;
    the host entry names an index page and sets the integration
    identifier to [null]. *)
Module Installation.

Definition file_settings : PartialPluginConfig :=
  {| raw_enabled := Value false;
     raw_indexPage := Absent; raw_watchedPages := Value ["page-1"];
     raw_notionApiKey := Value " secret_file "; raw_notionApiKeyEnv := Absent;
     raw_integrationUserId := Value "bot-1"; raw_aiBaseUrl := Absent;
     raw_aiApiKey := Absent; raw_aiApiKeyEnv := Absent; raw_aiModel := Absent;
     raw_useGatewayChatCompletions := Absent; raw_gatewayBaseUrl := Absent;
     raw_gatewayApiKey := Absent; raw_gatewayApiKeyEnv := Absent;
     raw_systemPrompt := Absent |}.

Definition entry_settings : PartialPluginConfig :=
  {| raw_enabled := Absent;
     raw_indexPage := Value "index"; raw_watchedPages := Absent;
     raw_notionApiKey := Absent; raw_notionApiKeyEnv := Value "NOTION_API_KEY";
     raw_integrationUserId := Null; raw_aiBaseUrl := Absent;
     raw_aiApiKey := Absent; raw_aiApiKeyEnv := Absent; raw_aiModel := Absent;
     raw_useGatewayChatCompletions := Absent; raw_gatewayBaseUrl := Absent;
     raw_gatewayApiKey := Absent; raw_gatewayApiKeyEnv := Absent;
     raw_systemPrompt := Absent |}.

Definition host : HostConfig :=
  {| plugin_entry := Some {| entry_enabled := Absent; entry_config := Value entry_settings |};
     channel_apiKey := Some "secret_channel" |}.

Definition started : Started :=
  {| pluginConfig := Scenario.config (Some "index") ["page-1"];
     notionApiKey := "secret_file";
     integrationUserId := None |}.

End Installation.

(** * Properties *)

(** ** The outcome monad *)

Lemma bind_Ret_inv {A B} (m : Run A) (f : A → Run B) (b : B) :
  m ≫= f = Ret b → ∃ a, m = Ret a ∧ f a = Ret b.
Proof. destruct m as [a| |]; simpl; intros H; [eauto | discriminate..]. Qed.

Lemma bind_Throw_inv {A B} (m : Run A) (f : A → Run B) (e : Exn) :
  m ≫= f = Throw e → m = Throw e ∨ ∃ a, m = Ret a ∧ f a = Throw e.
Proof. destruct m as [a| |]; simpl; intros H; [eauto | left; congruence | discriminate]. Qed.

(** ** Fetchers *)

Lemma listAll_never_throws {A} fuel (call : option string → ApiResult (ListResponse A))
    cursor acc e :
  listAll fuel call cursor acc ≠ Throw e.
Proof.
  revert cursor acc. induction fuel as [|fuel IH]; intros cursor acc; simpl.
  - discriminate.
  - destruct (call cursor) as [r|m]; [|discriminate].
    destruct (Js.truthy (following r)); [apply IH | discriminate].
Qed.

Lemma listAll_rounds {A} (call : option string → ApiResult (ListResponse A))
    c rs c' :
  rounds call c rs c' →
  ∀ fuel acc,
    listAll (length rs + fuel) call c acc
    = listAll fuel call c' (acc ++ gathered rs).
Proof.
  induction 1 as [c | c r rs c' Hcall Hmore _ IH]; intros fuel acc.
  - unfold gathered. simpl. by rewrite app_nil_r.
  - simpl. rewrite Hcall, Hmore, IH. unfold gathered. simpl.
    by rewrite app_assoc.
Qed.

(** A rejection after [rs] leaves exactly what [rs] brought. *)
Lemma listAll_partial {A} (call : option string → ApiResult (ListResponse A))
    rs c message fuel :
  rounds call None rs c →
  call c = Rejected message →
  (length rs < fuel)%nat →
  listAll fuel call None [] = Ret (gathered rs).
Proof.
  intros Hrs Hrej Hfuel.
  replace fuel with (length rs + S (fuel - S (length rs)))%nat by lia.
  rewrite (listAll_rounds _ _ _ _ Hrs). simpl. by rewrite Hrej.
Qed.

(** The last page ends the loop with everything. *)
Lemma listAll_complete {A} (call : option string → ApiResult (ListResponse A))
    rs c r fuel :
  rounds call None rs c →
  call c = Resolved r →
  Js.truthy (following r) = false →
  (length rs < fuel)%nat →
  listAll fuel call None [] = Ret (gathered rs ++ results r).
Proof.
  intros Hrs Hcall Hlast Hfuel.
  replace fuel with (length rs + S (fuel - S (length rs)))%nat by lia.
  rewrite (listAll_rounds _ _ _ _ Hrs). simpl. by rewrite Hcall, Hlast.
Qed.

Lemma inlineComments_never_throws fuel notion blocks results e :
  inlineComments fuel notion blocks results ≠ Throw e.
Proof.
  revert results. induction blocks as [|block rest IH]; intros results; simpl.
  - discriminate.
  - destruct (commentable block); [|apply IH].
    intros H. apply bind_Throw_inv in H as [H | (cs & _ & H)].
    + by apply listAll_never_throws in H.
    + by apply IH in H.
Qed.

Lemma getAllCommentsForPage_never_throws fuel notion pageId e :
  getAllCommentsForPage fuel notion pageId ≠ Throw e.
Proof.
  unfold getAllCommentsForPage. intros H.
  apply bind_Throw_inv in H as [H | (cs & _ & H)].
  { by apply listAll_never_throws in H. }
  apply bind_Throw_inv in H as [H | (bs & _ & H)].
  { by apply listAll_never_throws in H. }
  by apply inlineComments_never_throws in H.
Qed.

Lemma lookup_processed_Ids state pageId ids :
  lookup_processed state pageId = Ids ids → ids = processed state pageId.
Proof.
  unfold lookup_processed, processed.
  destruct (processedComments state !! pageId) as [l|]; simpl; [by intros [= ->]|].
  destruct (Js.inherited pageId); [done | by intros [= <-]].
Qed.

Lemma lookup_processed_Inherited state pageId :
  lookup_processed state pageId = Inherited
  ↔ processedComments state !! pageId = None ∧ Js.inherited pageId = true.
Proof.
  unfold lookup_processed.
  destruct (processedComments state !! pageId) as [l|]; [by split; [|intros [? _]]|].
  destruct (Js.inherited pageId); by split; [|intros [_ ?]].
Qed.

Lemma lookup_processed_plain state pageId :
  Js.inherited pageId = false →
  lookup_processed state pageId = Ids (processed state pageId).
Proof.
  intros Hplain. unfold lookup_processed, processed.
  destruct (processedComments state !! pageId) as [l|]; [done|]. by rewrite Hplain.
Qed.

(** The body of a page raises only at a page identifier that names a
    member of [Object.prototype], has no entry in the state, and has a
    thread. *)
Lemma processPage_Throw fuel notion config uid state pageId e :
  processPage fuel notion config uid state pageId = Throw e →
  e = NotAFunction
  ∧ lookup_processed state pageId = Inherited
  ∧ ∃ entries,
      getAllCommentsForPage fuel notion pageId = Ret entries
      ∧ groupByDiscussion (map comment entries) ≠ [].
Proof.
  unfold processPage. intros H.
  apply bind_Throw_inv in H as [H | (entries & Hget & H)].
  { by apply getAllCommentsForPage_never_throws in H. }
  destruct (lookup_processed state pageId); [done|].
  destruct (groupByDiscussion (map comment entries)) eqn:Hgroups; [done|].
  injection H as <-. split; [done|]. split; [done|].
  exists entries. split; [done|]. by rewrite Hgroups.
Qed.

Lemma processPage_Ids fuel notion config uid state pageId ids :
  lookup_processed state pageId = Ids ids →
  processPage fuel notion config uid state pageId
  = (entries ← getAllCommentsForPage fuel notion pageId;
     Ret (with_processed state pageId (pagePass notion config uid pageId entries ids).1,
          (pagePass notion config uid pageId entries ids).2)).
Proof. intros Hl. unfold processPage. by rewrite Hl. Qed.

Lemma tryPage_Ids fuel notion config uid state pageId ids :
  lookup_processed state pageId = Ids ids →
  tryPage fuel notion config uid state pageId
  = processPage fuel notion config uid state pageId.
Proof.
  intros Hl. unfold tryPage.
  destruct (processPage fuel notion config uid state pageId) as [r|e|] eqn:H; try done.
  apply processPage_Throw in H as (_ & Hinh & _). congruence.
Qed.

Lemma tryPage_Inherited fuel notion config uid state pageId entries :
  lookup_processed state pageId = Inherited →
  getAllCommentsForPage fuel notion pageId = Ret entries →
  tryPage fuel notion config uid state pageId = Ret (state, []).
Proof.
  intros Hl Hget. unfold tryPage, processPage. rewrite Hget, Hl. simpl.
  by destruct (groupByDiscussion (map comment entries)).
Qed.

(** What a page that was gone through leaves: the pass over its list,
    stored under the page; or, at an inherited member, nothing. *)
Lemma tryPage_Ret fuel notion config uid state pageId state' evs :
  tryPage fuel notion config uid state pageId = Ret (state', evs) →
  ∃ entries,
    getAllCommentsForPage fuel notion pageId = Ret entries
    ∧ ((lookup_processed state pageId = Ids (processed state pageId)
        ∧ state' = with_processed state pageId
                     (pagePass notion config uid pageId entries
                        (processed state pageId)).1
        ∧ evs = (pagePass notion config uid pageId entries (processed state pageId)).2)
       ∨ (lookup_processed state pageId = Inherited ∧ state' = state ∧ evs = [])).
Proof.
  destruct (lookup_processed state pageId) as [ids|] eqn:Hl.
  - rewrite (tryPage_Ids _ _ _ _ _ _ ids Hl), (processPage_Ids _ _ _ _ _ _ ids Hl).
    pose proof (lookup_processed_Ids _ _ _ Hl) as ->.
    intros (entries & Hget & H)%bind_Ret_inv. exists entries. split; [done|].
    left. by inversion H.
  - destruct (getAllCommentsForPage fuel notion pageId) as [entries|e|] eqn:Hget.
    + rewrite (tryPage_Inherited _ _ _ _ _ _ entries Hl Hget). intros [= <- <-].
      exists entries. split; [done|]. by right.
    + by apply getAllCommentsForPage_never_throws in Hget.
    + unfold tryPage, processPage. by rewrite Hget.
Qed.

(** ** The stable sort and the latest comment *)

Lemma insert_by_time_perm c l : insert_by_time c l ≡ₚ c :: l.
Proof.
  induction l as [|d l IH]; simpl; [done|].
  destruct (created_time c <=? created_time d); [done|].
  rewrite IH. apply Permutation_swap.
Qed.

Lemma sort_by_time_perm l : sort_by_time l ≡ₚ l.
Proof.
  induction l as [|c l IH]; simpl; [done|].
  by rewrite insert_by_time_perm, IH.
Qed.

Lemma insert_by_time_sorted c l :
  StronglySorted time_le l → StronglySorted time_le (insert_by_time c l).
Proof.
  induction 1 as [|d l Hl IH Hd]; simpl.
  - repeat constructor.
  - destruct (created_time c <=? created_time d) eqn:Hcd.
    + apply Z.leb_le in Hcd. constructor; [by constructor|].
      constructor; [done|].
      eapply Forall_impl; [exact Hd|]. unfold time_le. intros; simpl in *; lia.
    + apply Z.leb_gt in Hcd. constructor; [done|].
      rewrite insert_by_time_perm. constructor; [unfold time_le; lia | done].
Qed.

Lemma sort_by_time_sorted l : StronglySorted time_le (sort_by_time l).
Proof.
  induction l as [|c l IH]; simpl; [constructor|].
  by apply insert_by_time_sorted.
Qed.

Lemma insert_by_time_stable c l t :
  filter (λ d, created_time d = t) (insert_by_time c l)
  = filter (λ d, created_time d = t) (c :: l).
Proof.
  induction l as [|d l IH]; simpl; [done|].
  destruct (created_time c <=? created_time d) eqn:Hcd; [done|].
  apply Z.leb_gt in Hcd.
  rewrite filter_cons, IH, !filter_cons.
  repeat case_decide; try done; lia.
Qed.

(** Comments with the same timestamp keep their order. *)
Lemma sort_by_time_stable l t :
  filter (λ d, created_time d = t) (sort_by_time l)
  = filter (λ d, created_time d = t) l.
Proof.
  induction l as [|c l IH]; simpl; [done|].
  by rewrite insert_by_time_stable, !filter_cons, IH.
Qed.

Lemma insert_by_time_not_nil c l : insert_by_time c l ≠ [].
Proof. destruct l; simpl; [done|]. by destruct (_ <=? _). Qed.

Lemma last_insert_by_time c s x :
  last (insert_by_time x s) = Some c →
  (c = x ∧ Forall (λ d, created_time d < created_time x) s)
  ∨ (last s = Some c ∧ Exists (λ d, created_time x ≤ created_time d) s).
Proof.
  induction s as [|d s IH]; simpl.
  - intros [= <-]. by left.
  - destruct (created_time x <=? created_time d) eqn:Hxd.
    + apply Z.leb_le in Hxd. intros H. right. split; [done|]. by left.
    + apply Z.leb_gt in Hxd. rewrite last_cons.
      destruct (last (insert_by_time x s)) as [m|] eqn:Hm.
      * intros [= ->]. destruct (IH eq_refl) as [[-> Hall]|[Hlast Hex]].
        -- left. split; [done|]. by constructor.
        -- right. split; [|by right]. by rewrite last_cons, Hlast.
      * apply last_None in Hm. by apply insert_by_time_not_nil in Hm.
Qed.

(** The last element after sorting is the latest comment of the thread. *)
Lemma last_sort_is_latest l c :
  last (sort_by_time l) = Some c → is_latest c l.
Proof.
  revert c. induction l as [|x l IH]; intros c; simpl; [done|].
  intros H. apply last_insert_by_time in H as [[-> Hall]|[Hlast Hex]].
  - exists [], l. split; [done|]. split; [done|].
    by rewrite sort_by_time_perm in Hall.
  - destruct (IH _ Hlast) as (l1 & l2 & -> & H1 & H2).
    exists (x :: l1), l2. split; [done|]. split; [|done].
    constructor; [|done].
    rewrite sort_by_time_perm in Hex.
    apply Exists_exists in Hex as (d & Hd & Hxd).
    apply elem_of_app in Hd as [Hd|Hd].
    + rewrite Forall_forall in H1. specialize (H1 _ Hd). simpl in *. lia.
    + apply elem_of_cons in Hd as [->|Hd]; [done|].
      rewrite Forall_forall in H2. specialize (H2 _ Hd). simpl in *. lia.
Qed.

Lemma last_sort_is_Some l : l ≠ [] → is_Some (last (sort_by_time l)).
Proof.
  intros Hl. apply last_is_Some. intros Hs. apply Hl.
  apply Permutation_nil_r. by rewrite <- Hs, sort_by_time_perm.
Qed.

(** The latest comment is unique. *)
Lemma is_latest_unique l c c' : is_latest c l → is_latest c' l → c = c'.
Proof.
  intros (l1 & l2 & -> & H1 & H2) (l1' & l2' & Heq & H1' & H2').
  assert (Hlen : length l1 = length l1').
  { destruct (Nat.lt_total (length l1) (length l1')) as [Hlt|[Heq'|Hgt]]; [|done|].
    - exfalso.
      assert (Hc : (l1' ++ c' :: l2') !! length l1 = Some c).
      { rewrite <- Heq. by rewrite list_lookup_middle. }
      rewrite lookup_app_l in Hc by done.
      apply list_elem_of_lookup_2 in Hc.
      assert (Hc' : (l1 ++ c :: l2) !! length l1' = Some c').
      { rewrite Heq. by rewrite list_lookup_middle. }
      rewrite lookup_app_r in Hc' by lia.
      destruct (length l1' - length l1)%nat as [|n] eqn:Hn; [lia|].
      simpl in Hc'. apply list_elem_of_lookup_2 in Hc'.
      rewrite Forall_forall in H1'. specialize (H1' _ Hc).
      rewrite Forall_forall in H2. specialize (H2 _ Hc'). simpl in *. lia.
    - exfalso.
      assert (Hc' : (l1 ++ c :: l2) !! length l1' = Some c').
      { rewrite Heq. by rewrite list_lookup_middle. }
      rewrite lookup_app_l in Hc' by done.
      apply list_elem_of_lookup_2 in Hc'.
      assert (Hc : (l1' ++ c' :: l2') !! length l1 = Some c).
      { rewrite <- Heq. by rewrite list_lookup_middle. }
      rewrite lookup_app_r in Hc by lia.
      destruct (length l1 - length l1')%nat as [|n] eqn:Hn; [lia|].
      simpl in Hc. apply list_elem_of_lookup_2 in Hc.
      rewrite Forall_forall in H1. specialize (H1 _ Hc').
      rewrite Forall_forall in H2'. specialize (H2' _ Hc). simpl in *. lia. }
  assert (Hc : (l1 ++ c :: l2) !! length l1 = Some c) by by rewrite list_lookup_middle.
  rewrite Heq, Hlen, list_lookup_middle in Hc by done. congruence.
Qed.

(** ** Grouping by discussion *)

Lemma group_push_keys k c g :
  (group_push k c g).*1 = if decide (k ∈ g.*1) then g.*1 else g.*1 ++ [k].
Proof.
  induction g as [|[k' cs] g IH]; [done|].
  cbn [group_push]. destruct (String.eqb k' k) eqn:Hk; rewrite !fmap_cons; cbn [fst].
  - apply String.eqb_eq in Hk as ->. by rewrite decide_True by left.
  - apply String.eqb_neq in Hk. rewrite IH.
    destruct (decide (k ∈ g.*1)) as [Hin|Hin].
    + rewrite decide_True; [done | by right].
    + rewrite decide_False; [done|]. intros [?|?]%elem_of_cons; congruence.
Qed.

Lemma group_push_elem k c g k' cs' :
  NoDup g.*1 →
  (k', cs') ∈ group_push k c g →
  (k' ≠ k ∧ (k', cs') ∈ g)
  ∨ (k' = k ∧ ((∃ cs, (k, cs) ∈ g ∧ cs' = cs ++ [c]) ∨ ((k ∉ g.*1) ∧ cs' = [c]))).
Proof.
  induction g as [|[k0 cs0] g IH]; simpl; intros Hnd.
  - intros [= -> ->]%list_elem_of_singleton. right. split; [done|]. right.
    split; [apply not_elem_of_nil | done].
  - apply NoDup_cons in Hnd as [Hk0 Hnd].
    destruct (String.eqb k0 k) eqn:Hk.
    + apply String.eqb_eq in Hk as ->.
      intros [[= -> ->]|Hin]%elem_of_cons.
      * right. split; [done|]. left. exists cs0. split; [by left | done].
      * left. split; [|by right]. intros ->. apply Hk0.
        apply list_elem_of_fmap. by exists (k, cs').
    + apply String.eqb_neq in Hk.
      intros [[= -> ->]|Hin]%elem_of_cons.
      * left. split; [done | by left].
      * destruct (IH Hnd Hin) as [[Hne Hg]|[-> [(cs & Hcs & ->)|[Hfresh ->]]]].
        -- left. split; [done | by right].
        -- right. split; [done|]. left. exists cs. split; [by right | done].
        -- right. split; [done|]. right. split; [|done].
           intros [?|?]%elem_of_cons; [congruence | by apply Hfresh].
Qed.

Lemma filter_discussion_none l k :
  (∀ c, c ∈ l → discussion_id c ≠ k) →
  filter (λ c, discussion_id c = k) l = [].
Proof.
  induction l as [|d l IH]; intros Hl; [done|].
  rewrite filter_cons, decide_False by (apply Hl; by left).
  apply IH. intros c Hc. apply Hl. by right.
Qed.

Lemma grouped_nil : grouped [] [].
Proof.
  split; [constructor|]. split.
  - intros k cs Hin. by apply elem_of_nil in Hin.
  - intros c Hin. by apply elem_of_nil in Hin.
Qed.

Lemma grouped_push l g c :
  grouped l g → grouped (l ++ [c]) (group_push (discussion_id c) c g).
Proof.
  intros (Hnd & Hgroups & Hall). split; [|split].
  - rewrite group_push_keys. case_decide; [done|].
    apply NoDup_app. split; [done|]. split; [|apply NoDup_singleton].
    intros k Hk ->%list_elem_of_singleton. done.
  - intros k cs Hin.
    apply group_push_elem in Hin as [[Hne Hin]|[-> [(cs0 & Hin & ->)|[Hfresh ->]]]]; [| | |done].
    + destruct (Hgroups _ _ Hin) as [Hcs ->]. split; [done|].
      rewrite filter_app, filter_cons, decide_False by done.
      by rewrite filter_nil, app_nil_r.
    + destruct (Hgroups _ _ Hin) as [Hcs ->]. split.
      { intros [? ?]%app_eq_nil. done. }
      by rewrite filter_app, filter_cons, decide_True, filter_nil by done.
    + split; [done|].
      rewrite filter_app, filter_cons, decide_True, filter_nil by done.
      rewrite filter_discussion_none; [done|]. intros d Hd Heq.
      apply Hfresh. rewrite <- Heq. by apply Hall.
  - intros d Hd. rewrite group_push_keys.
    apply elem_of_app in Hd as [Hd| ->%list_elem_of_singleton].
    + case_decide; [by apply Hall|]. apply elem_of_app. left. by apply Hall.
    + case_decide; [done|]. apply elem_of_app. right. by left.
Qed.

Lemma groupByDiscussion_snoc l c :
  groupByDiscussion (l ++ [c])
  = group_push (discussion_id c) c (groupByDiscussion l).
Proof. unfold groupByDiscussion. by rewrite fold_left_app. Qed.

Lemma groupByDiscussion_grouped l : grouped l (groupByDiscussion l).
Proof.
  induction l as [|c l IH] using rev_ind.
  - apply grouped_nil.
  - rewrite groupByDiscussion_snoc. by apply grouped_push.
Qed.

Lemma groupByDiscussion_nonempty l k cs :
  (k, cs) ∈ groupByDiscussion l → cs ≠ [].
Proof.
  intros Hin. destruct (groupByDiscussion_grouped l) as (_ & Hg & _).
  by destruct (Hg _ _ Hin).
Qed.

(** ** One thread *)

Lemma threadStep_resolve notion config uid pageId quoteMap ids d cs latest :
  last (sort_by_time cs) = Some latest →
  threadStep notion config uid pageId quoteMap ids (d, cs)
  = perform notion config pageId quoteMap ids d (resolveThread uid ids latest).
Proof.
  intros Hlast. unfold threadStep, resolveThread, Js.includes. simpl. rewrite Hlast.
  destruct (bool_decide (id latest ∈ ids)); [done|].
  destruct (is_self uid latest); [done|].
  destruct (String.eqb (Js.trim (extractTextFromComment latest)) "") eqn:Heq.
  - apply String.eqb_eq in Heq. by rewrite bool_decide_eq_true_2.
  - apply String.eqb_neq in Heq. by rewrite bool_decide_eq_false_2.
Qed.

Lemma is_latest_last_sort cs latest :
  is_latest latest cs → last (sort_by_time cs) = Some latest.
Proof.
  intros Hl.
  assert (Hne : cs ≠ []).
  { destruct Hl as (l1 & l2 & -> & _). by destruct l1. }
  destruct (last_sort_is_Some cs Hne) as [c Hc].
  rewrite Hc. f_equal. eapply is_latest_unique; [|exact Hl].
  by apply last_sort_is_latest.
Qed.

Lemma perform_grows notion config pageId quoteMap ids d a :
  ids `prefix_of` (perform notion config pageId quoteMap ids d a).1.
Proof.
  destruct a; simpl; [done | by apply prefix_app_r |].
  destruct (replyToComment _ _ _); [by apply prefix_app_r | done].
Qed.

Lemma threadStep_grows notion config uid pageId quoteMap ids t :
  ids `prefix_of` (threadStep notion config uid pageId quoteMap ids t).1.
Proof.
  destruct t as [d cs].
  destruct (last (sort_by_time cs)) as [latest|] eqn:Hlast.
  - rewrite (threadStep_resolve _ _ _ _ _ _ _ _ _ Hlast). apply perform_grows.
  - unfold threadStep. simpl. by rewrite Hlast.
Qed.

Lemma threadStep_attempt notion config uid pageId quoteMap ids d cs :
  attempt d (threadStep notion config uid pageId quoteMap ids (d, cs)).2.
Proof.
  destruct (last (sort_by_time cs)) as [latest|] eqn:Hlast.
  - rewrite (threadStep_resolve _ _ _ _ _ _ _ _ _ Hlast).
    destruct (resolveThread uid ids latest); simpl; [by left..|].
    right. eauto.
  - unfold threadStep. simpl. rewrite Hlast. by left.
Qed.

Lemma attempt_counts d d' evs :
  attempt d evs →
  responses evs = posts evs
  ∧ (posts_to d' evs ≤ 1)%nat
  ∧ (d' ≠ d → posts_to d' evs = 0%nat).
Proof.
  intros [->|(p & r & s & ->)]; unfold responses, posts, posts_to; simpl.
  { repeat split; lia. }
  destruct (String.eqb d d') eqn:Hd; simpl.
  - apply String.eqb_eq in Hd. split; [done|]. split; [lia|]. congruence.
  - split; [done|]. split; [lia | done].
Qed.

(** ** The threads of one page *)

Lemma processThreads_cons notion config uid pageId quoteMap t rest ids :
  processThreads notion config uid pageId quoteMap (t :: rest) ids
  = let step := threadStep notion config uid pageId quoteMap ids t in
    let after := processThreads notion config uid pageId quoteMap rest step.1 in
    (after.1, step.2 ++ after.2).
Proof. done. Qed.

Lemma processThreads_grows notion config uid pageId quoteMap groups ids :
  ids `prefix_of` (processThreads notion config uid pageId quoteMap groups ids).1.
Proof.
  revert ids. induction groups as [|t rest IH]; intros ids; [done|].
  rewrite processThreads_cons. simpl.
  etransitivity; [apply threadStep_grows | apply IH].
Qed.

Lemma responses_app e1 e2 : responses (e1 ++ e2) = (responses e1 + responses e2)%nat.
Proof. unfold responses. by rewrite List.filter_app, length_app. Qed.

Lemma posts_app e1 e2 : posts (e1 ++ e2) = (posts e1 + posts e2)%nat.
Proof. unfold posts. by rewrite List.filter_app, length_app. Qed.

Lemma posts_to_app d e1 e2 : posts_to d (e1 ++ e2) = (posts_to d e1 + posts_to d e2)%nat.
Proof. unfold posts_to. by rewrite List.filter_app, length_app. Qed.

(** Over the threads of a page: as many posts as calls of the responder,
    no post to a discussion that is not among the threads, and at most one
    post to a discussion when the keys are distinct. *)
Lemma processThreads_counts notion config uid pageId quoteMap groups ids d :
  let evs := (processThreads notion config uid pageId quoteMap groups ids).2 in
  responses evs = posts evs
  ∧ (d ∉ groups.*1 → posts_to d evs = 0%nat)
  ∧ (NoDup groups.*1 → (posts_to d evs ≤ 1)%nat).
Proof.
  revert ids. induction groups as [|[k cs] rest IH]; intros ids.
  { unfold responses, posts, posts_to. simpl. repeat split; intros; lia. }
  rewrite processThreads_cons. cbn zeta. cbn [snd].
  set (step := threadStep notion config uid pageId quoteMap ids (k, cs)).
  destruct (attempt_counts k d step.2 (threadStep_attempt _ _ _ _ _ _ _ _))
    as (Hrp & Hle & Hother).
  destruct (IH step.1) as (IHrp & IHnone & IHle).
  rewrite responses_app, posts_app, posts_to_app, fmap_cons. cbn [fst].
  split; [lia|]. split.
  - intros Hd. rewrite Hother, IHnone; [done| |].
    + intros Hin. apply Hd. by right.
    + intros ->. apply Hd. by left.
  - intros [Hk Hnd]%NoDup_cons. specialize (IHle Hnd).
    destruct (decide (d = k)) as [->|Hne].
    + rewrite IHnone by done. lia.
    + rewrite Hother by done. lia.
Qed.

Lemma groupByDiscussion_keys entries d :
  d ∈ (groupByDiscussion (map comment entries)).*1 → d ∈ discussions_of entries.
Proof.
  intros Hd. apply list_elem_of_fmap in Hd as ([k cs] & -> & Hin).
  destruct (groupByDiscussion_grouped (map comment entries)) as (_ & Hg & _).
  destruct (Hg _ _ Hin) as [Hne Hcs]. simpl.
  destruct cs as [|c cs]; [done|].
  assert (Hc : c ∈ filter (λ c0, discussion_id c0 = k) (map comment entries)).
  { rewrite <- Hcs. by left. }
  apply list_elem_of_filter in Hc as [<- Hc].
  unfold discussions_of. apply list_elem_of_fmap in Hc as (e & -> & He).
  apply list_elem_of_fmap. by exists e.
Qed.

Lemma pagePass_counts notion config uid pageId entries ids d :
  let evs := (pagePass notion config uid pageId entries ids).2 in
  responses evs = posts evs
  ∧ (posts_to d evs ≤ 1)%nat
  ∧ (d ∉ discussions_of entries → posts_to d evs = 0%nat).
Proof.
  unfold pagePass.
  destruct (processThreads_counts notion config uid pageId (buildQuoteMap entries)
              (groupByDiscussion (map comment entries)) ids d) as (Hrp & Hnone & Hle).
  split; [done|]. split.
  - apply Hle. apply groupByDiscussion_grouped.
  - intros Hd. apply Hnone. intros Hin. by apply Hd, groupByDiscussion_keys.
Qed.

(** The decision in the four cases of the resolver. *)
Lemma resolveThread_cases uid ids latest :
  (id latest ∈ ids → resolveThread uid ids latest = NoAction)
  ∧ (id latest ∉ ids → is_self uid latest = true →
     resolveThread uid ids latest = Skip (id latest))
  ∧ (id latest ∉ ids → is_self uid latest = false →
     Js.trim (extractTextFromComment latest) = "" →
     resolveThread uid ids latest = Skip (id latest))
  ∧ (id latest ∉ ids → is_self uid latest = false →
     Js.trim (extractTextFromComment latest) ≠ "" →
     resolveThread uid ids latest = Answer latest (extractTextFromComment latest)).
Proof.
  unfold resolveThread. repeat split.
  - intros Hin. by rewrite bool_decide_eq_true_2.
  - intros Hin ->. by rewrite bool_decide_eq_false_2.
  - intros Hin -> Ht. by rewrite bool_decide_eq_false_2, bool_decide_eq_true_2.
  - intros Hin -> Ht. by rewrite !bool_decide_eq_false_2.
Qed.


(** ** Pages and the cycle *)

Lemma pollPages_cons_Ret fuel notion config uid pageId rest state state' evs :
  pollPages fuel notion config uid (pageId :: rest) state = Ret (state', evs) →
  ∃ state1 evs1 evs2,
    tryPage fuel notion config uid state pageId = Ret (state1, evs1)
    ∧ pollPages fuel notion config uid rest state1 = Ret (state', evs2)
    ∧ evs = evs1 ++ evs2.
Proof.
  simpl. intros H.
  apply bind_Ret_inv in H as ([state1 evs1] & Hpage & H).
  apply bind_Ret_inv in H as ([state2 evs2] & Hrest & H).
  simpl in *. inversion H; subst. eauto 6.
Qed.

Lemma tryPage_never_throws fuel notion config uid state pageId e :
  tryPage fuel notion config uid state pageId ≠ Throw e.
Proof.
  unfold tryPage. by destruct (processPage fuel notion config uid state pageId).
Qed.

Lemma pollPages_never_throws fuel notion config uid pages state e :
  pollPages fuel notion config uid pages state ≠ Throw e.
Proof.
  revert state. induction pages as [|p rest IH]; intros state; simpl; [done|].
  intros [H|([state1 evs1] & _ & H)]%bind_Throw_inv.
  { by apply tryPage_never_throws in H. }
  apply bind_Throw_inv in H as [H|(r & _ & H)]; [|done].
  by apply IH in H.
Qed.

Lemma processed_with_processed state pageId ids p :
  processed (with_processed state pageId ids) p
  = if decide (pageId = p) then ids else processed state p.
Proof.
  unfold processed, with_processed. simpl. rewrite lookup_insert.
  by case_decide.
Qed.

(** A page only adds identifiers, and only under its own key. *)
Lemma tryPage_grows fuel notion config uid state pageId state' evs p :
  tryPage fuel notion config uid state pageId = Ret (state', evs) →
  lastPollTime state' = lastPollTime state
  ∧ processed state p `prefix_of` processed state' p.
Proof.
  intros (entries & _ & [(_ & -> & _)|(_ & -> & _)])%tryPage_Ret; [|done].
  split; [done|].
  rewrite processed_with_processed. case_decide as Hp; [|done].
  subst. apply processThreads_grows.
Qed.

Lemma pollPages_grows fuel notion config uid pages state state' evs p :
  pollPages fuel notion config uid pages state = Ret (state', evs) →
  lastPollTime state' = lastPollTime state
  ∧ processed state p `prefix_of` processed state' p.
Proof.
  revert state evs. induction pages as [|q rest IH]; intros state evs.
  - simpl. by intros [= -> _].
  - intros (state1 & e1 & e2 & Hpage & Hrest & _)%pollPages_cons_Ret.
    destruct (tryPage_grows _ _ _ _ _ _ _ _ p Hpage) as [Ht1 Hp1].
    destruct (IH _ _ Hrest) as [Ht2 Hp2].
    split; [congruence | by etransitivity].
Qed.

Lemma pollPages_counts fuel notion config uid pages state state' evs d :
  pollPages fuel notion config uid pages state = Ret (state', evs) →
  responses evs = posts evs
  ∧ (¬ on_pages fuel notion pages d → posts_to d evs = 0%nat)
  ∧ (NoDup pages → threads_on_one_page fuel notion pages → (posts_to d evs ≤ 1)%nat).
Proof.
  revert state evs. induction pages as [|p rest IH]; intros state evs.
  - simpl. intros [= _ <-]. unfold responses, posts, posts_to. simpl.
    repeat split; intros; lia.
  - intros (state1 & e1 & e2 & Hpage & Hrest & ->)%pollPages_cons_Ret.
    destruct (IH _ _ Hrest) as (IHrp & IHnone & IHle).
    assert (Hhere : ∃ ep,
              getAllCommentsForPage fuel notion p = Ret ep
              ∧ responses e1 = posts e1
              ∧ (posts_to d e1 ≤ 1)%nat
              ∧ (d ∉ discussions_of ep → posts_to d e1 = 0%nat)).
    { apply tryPage_Ret in Hpage as (ep & Hget & [(_ & _ & ->)|(_ & _ & ->)]).
      - exists ep. split; [done|]. apply pagePass_counts.
      - exists ep. split; [done|]. unfold responses, posts, posts_to. simpl.
        repeat split; intros; lia. }
    destruct Hhere as (ep & Hget & Hrp & Hle & Hnone).
    rewrite responses_app, posts_app, posts_to_app.
    split; [lia|]. split.
    + intros Hnot. rewrite Hnone, IHnone; [done| |].
      * intros (q & eq & Hq & Hgq & Hd). apply Hnot. exists q, eq.
        split; [by right | done].
      * intros Hd. apply Hnot. exists p, ep. split; [by left | done].
    + intros [Hp Hnd]%NoDup_cons Hone.
      destruct (decide (d ∈ discussions_of ep)) as [Hd|Hd].
      * rewrite IHnone; [lia|].
        intros (q & eq & Hq & Hgq & Hdq). apply Hp.
        rewrite (Hone p q ep eq d); [done | by left | by right | done..].
      * rewrite Hnone by done.
        assert ((posts_to d e2 ≤ 1)%nat); [|lia].
        apply IHle; [done|].
        intros p' q' ep' eq' d' Hp' Hq'. apply Hone; by right.
Qed.

Lemma pollNotionComments_idle fuel notion config uid now disk :
  enabled config = false ∨ resolveWatched fuel notion config = Ret [] →
  pollNotionComments fuel notion config uid now disk = Ret (disk, []).
Proof.
  unfold pollNotionComments. intros [->| Hw]; [done|].
  destruct (enabled config); [|done]. simpl. by rewrite Hw.
Qed.

Lemma pollNotionComments_watched fuel notion config uid now disk pages state' evs :
  enabled config = true →
  resolveWatched fuel notion config = Ret pages →
  pages ≠ [] →
  pollPages fuel notion config uid pages (loadState disk) = Ret (state', evs) →
  pollNotionComments fuel notion config uid now disk
  = Ret (Some {| lastPollTime := now; processedComments := processedComments state' |},
         evs).
Proof.
  unfold pollNotionComments. intros -> Hw Hne Hp. cbn [negb].
  rewrite Hw. destruct pages as [|p pages]; [done|].
  cbn [mbind Run_bind]. by rewrite Hp.
Qed.

Lemma pollNotionComments_Ret fuel notion config uid now disk disk' evs :
  pollNotionComments fuel notion config uid now disk = Ret (disk', evs) →
  ((enabled config = false ∨ resolveWatched fuel notion config = Ret [])
   ∧ disk' = disk ∧ evs = [])
  ∨ ∃ pages state',
      enabled config = true
      ∧ resolveWatched fuel notion config = Ret pages
      ∧ pages ≠ []
      ∧ pollPages fuel notion config uid pages (loadState disk) = Ret (state', evs)
      ∧ disk' = Some {| lastPollTime := now;
                        processedComments := processedComments state' |}.
Proof.
  unfold pollNotionComments. destruct (enabled config); simpl.
  2: { intros [= <- <-]. left. split; [by left | done]. }
  intros H. apply bind_Ret_inv in H as (pages & Hw & H).
  destruct pages as [|p pages].
  { inversion H. left. split; [by right | done]. }
  apply bind_Ret_inv in H as ([state' evs'] & Hpoll & H).
  inversion H; subst. right. exists (p :: pages), state'. by repeat split.
Qed.

(** ** Threads that need nothing more *)

Lemma all_latest_in_mono groups ids ids' :
  ids `prefix_of` ids' → all_latest_in groups ids → all_latest_in groups ids'.
Proof.
  intros [k ->] H d cs latest Hin Hlast. apply elem_of_app. left.
  exact (H d cs latest Hin Hlast).
Qed.

Lemma processThreads_quiet notion config uid pageId quoteMap groups ids :
  all_latest_in groups ids →
  processThreads notion config uid pageId quoteMap groups ids = (ids, []).
Proof.
  induction groups as [|[d cs] rest IH]; intros Hall; [done|].
  rewrite processThreads_cons.
  assert (Hstep : threadStep notion config uid pageId quoteMap ids (d, cs) = (ids, [])).
  { destruct (last (sort_by_time cs)) as [latest|] eqn:Hlast.
    - rewrite (threadStep_resolve _ _ _ _ _ _ _ _ _ Hlast). unfold resolveThread.
      rewrite bool_decide_eq_true_2; [done|].
      apply (Hall d cs latest); [by left | done].
    - unfold threadStep. simpl. by rewrite Hlast. }
  rewrite Hstep. cbn zeta. cbn [fst snd]. rewrite IH; [done|].
  intros d' cs' latest Hin Hlast. apply (Hall d' cs' latest); [by right | done].
Qed.

Lemma perform_settles notion config uid pageId quoteMap ids d latest :
  Forall post_ok
    (perform notion config pageId quoteMap ids d (resolveThread uid ids latest)).2 →
  id latest ∈ (perform notion config pageId quoteMap ids d (resolveThread uid ids latest)).1.
Proof.
  unfold resolveThread. case_bool_decide as Hin; simpl; [done|].
  destruct (is_self uid latest); simpl.
  { intros _. apply elem_of_app. right. by left. }
  case_bool_decide; simpl.
  { intros _. apply elem_of_app. right. by left. }
  intros Hok. apply Forall_cons in Hok as [_ Hok].
  apply Forall_cons in Hok as [Hok _]. simpl in Hok. rewrite Hok.
  apply elem_of_app. right. by left.
Qed.

Lemma processThreads_settles notion config uid pageId quoteMap groups ids :
  Forall post_ok (processThreads notion config uid pageId quoteMap groups ids).2 →
  all_latest_in groups (processThreads notion config uid pageId quoteMap groups ids).1.
Proof.
  revert ids. induction groups as [|[k cs] rest IH]; intros ids.
  { intros _ d cs latest Hin. by apply elem_of_nil in Hin. }
  rewrite processThreads_cons. cbn zeta. cbn [fst snd].
  intros [Hs Hr]%Forall_app d cs' latest [[= -> ->]|Hin]%elem_of_cons Hlast.
  - eapply elem_of_prefix; [|apply processThreads_grows].
    revert Hs. rewrite (threadStep_resolve _ _ _ _ _ _ _ _ _ Hlast).
    apply perform_settles.
  - by eapply (IH _ Hr).
Qed.

Lemma tryPage_settles fuel notion config uid state p state' evs :
  tryPage fuel notion config uid state p = Ret (state', evs) →
  Forall post_ok evs →
  settled fuel notion p (processedComments state').
Proof.
  intros (entries & Hget & [(_ & -> & ->)|(Hinh & -> & _)])%tryPage_Ret Hok;
    exists entries; (split; [done|]).
  - left. exists (pagePass notion config uid p entries (processed state p)).1. split.
    + unfold with_processed. simpl. apply lookup_insert_eq.
    + by apply processThreads_settles.
  - right. by apply lookup_processed_Inherited.
Qed.

Lemma tryPage_keeps_settled fuel notion config uid state q state' evs p :
  tryPage fuel notion config uid state q = Ret (state', evs) →
  settled fuel notion p (processedComments state) →
  settled fuel notion p (processedComments state').
Proof.
  intros Hpage (entries & Hget & Hcase).
  destruct (tryPage_grows _ _ _ _ _ _ _ _ p Hpage) as [_ Hgrow].
  apply tryPage_Ret in Hpage as (eq & Hgetq & [(Hl & -> & _)|(_ & -> & _)]);
    [|by exists entries].
  exists entries. split; [done|].
  unfold with_processed in *. simpl in *.
  destruct Hcase as [(ids & Hids & Hall)|[Hnone Hinh]].
  - left. unfold processed in Hgrow. rewrite Hids in Hgrow. simpl in Hgrow.
    destruct (decide (q = p)) as [->|Hne].
    + rewrite lookup_insert_eq in Hgrow. simpl in Hgrow.
      eexists. split; [apply lookup_insert_eq|].
      by eapply all_latest_in_mono.
    + exists ids. split; [|done]. by rewrite lookup_insert_ne.
  - right. split; [|done].
    destruct (decide (q = p)) as [->|Hne]; [|by rewrite lookup_insert_ne].
    assert (lookup_processed state p = Inherited) by by apply lookup_processed_Inherited.
    congruence.
Qed.

Lemma pollPages_keeps_settled fuel notion config uid pages state state' evs p :
  pollPages fuel notion config uid pages state = Ret (state', evs) →
  settled fuel notion p (processedComments state) →
  settled fuel notion p (processedComments state').
Proof.
  revert state evs. induction pages as [|q rest IH]; intros state evs.
  - simpl. by intros [= -> _].
  - intros (state1 & e1 & e2 & Hpage & Hrest & _)%pollPages_cons_Ret Hs.
    eapply IH; [exact Hrest|]. by eapply tryPage_keeps_settled.
Qed.

Lemma pollPages_settles fuel notion config uid pages state state' evs :
  pollPages fuel notion config uid pages state = Ret (state', evs) →
  Forall post_ok evs →
  ∀ p, p ∈ pages → settled fuel notion p (processedComments state').
Proof.
  revert state evs. induction pages as [|q rest IH]; intros state evs.
  - intros _ _ p Hp. by apply elem_of_nil in Hp.
  - intros (state1 & e1 & e2 & Hpage & Hrest & ->)%pollPages_cons_Ret.
    intros [H1 H2]%Forall_app p [->|Hp]%elem_of_cons.
    + eapply pollPages_keeps_settled; [exact Hrest|].
      by eapply tryPage_settles.
    + by eapply IH.
Qed.

Lemma with_processed_id state p ids :
  processedComments state !! p = Some ids → with_processed state p ids = state.
Proof.
  destruct state as [t m]. unfold with_processed. simpl. intros H.
  by rewrite insert_id.
Qed.

(** A settled page is passed over: no call, no change. *)
Lemma tryPage_settled fuel notion config uid state p :
  settled fuel notion p (processedComments state) →
  tryPage fuel notion config uid state p = Ret (state, []).
Proof.
  intros (entries & Hget & [(ids & Hids & Hall)|Hinh]).
  - assert (Hl : lookup_processed state p = Ids ids).
    { unfold lookup_processed. by rewrite Hids. }
    rewrite (tryPage_Ids _ _ _ _ _ _ ids Hl), (processPage_Ids _ _ _ _ _ _ ids Hl).
    rewrite Hget. simpl.
    unfold pagePass. rewrite processThreads_quiet by done. simpl.
    by rewrite with_processed_id.
  - apply lookup_processed_Inherited in Hinh. by eapply tryPage_Inherited.
Qed.

Lemma pollPages_settled fuel notion config uid pages state :
  (∀ p, p ∈ pages → settled fuel notion p (processedComments state)) →
  pollPages fuel notion config uid pages state = Ret (state, []).
Proof.
  induction pages as [|q rest IH]; intros Hall; [done|].
  simpl. rewrite tryPage_settled by (apply Hall; by left).
  simpl. rewrite IH; [done|]. intros p Hp. apply Hall. by right.
Qed.

(** ** Where identifiers and posts of a page come from *)

Lemma processThreads_app notion config uid pageId quoteMap g1 g2 ids :
  processThreads notion config uid pageId quoteMap (g1 ++ g2) ids
  = ((processThreads notion config uid pageId quoteMap g2
        (processThreads notion config uid pageId quoteMap g1 ids).1).1,
     (processThreads notion config uid pageId quoteMap g1 ids).2
     ++ (processThreads notion config uid pageId quoteMap g2
           (processThreads notion config uid pageId quoteMap g1 ids).1).2).
Proof.
  revert ids. induction g1 as [|t g1 IH]; intros ids.
  - simpl. by destruct (processThreads _ _ _ _ _ g2 ids).
  - rewrite <- app_comm_cons, !processThreads_cons. cbn zeta. cbn [fst snd].
    rewrite IH. cbn [fst snd]. by rewrite app_assoc.
Qed.

Lemma processThreads_ids_origin notion config uid pageId quoteMap g ids x :
  x ∈ (processThreads notion config uid pageId quoteMap g ids).1 →
  x ∈ ids
  ∨ ∃ d cs latest, (d, cs) ∈ g ∧ last (sort_by_time cs) = Some latest ∧ x = id latest.
Proof.
  revert ids. induction g as [|[d cs] g IH]; intros ids; [by left|].
  rewrite processThreads_cons. cbn zeta. cbn [fst].
  intros [Hx|(d' & cs' & l & Hin & Hl & ->)]%IH.
  - destruct (last (sort_by_time cs)) as [latest|] eqn:Hlast.
    + rewrite (threadStep_resolve _ _ _ _ _ _ _ _ _ Hlast) in Hx.
      assert (Hor : x ∈ ids ∨ x = id latest).
      { revert Hx. destruct (resolveThread_cases uid ids latest) as (H1 & H2 & H3 & H4).
        destruct (decide (id latest ∈ ids)) as [Hin|Hin]; [rewrite H1 by done; by left|].
        destruct (is_self uid latest) eqn:Hself.
        { rewrite H2 by done. simpl.
          rewrite elem_of_app, list_elem_of_singleton. tauto. }
        destruct (decide (Js.trim (extractTextFromComment latest) = "")) as [Ht|Ht].
        { rewrite H3 by done. simpl.
          rewrite elem_of_app, list_elem_of_singleton. tauto. }
        rewrite H4 by done. simpl. destruct (replyToComment _ _ _); [|by left].
        rewrite elem_of_app, list_elem_of_singleton. tauto. }
      destruct Hor as [?| ->]; [by left|]. right. exists d, cs, latest.
      split; [by left | done].
    + left. revert Hx. unfold threadStep. simpl. by rewrite Hlast.
  - right. exists d', cs', l. split; [by right | done].
Qed.

Lemma processThreads_event_origin notion config uid pageId quoteMap g ids e :
  e ∈ (processThreads notion config uid pageId quoteMap g ids).2 →
  ∃ g1 t g2,
    g = g1 ++ t :: g2
    ∧ e ∈ (threadStep notion config uid pageId quoteMap
             (processThreads notion config uid pageId quoteMap g1 ids).1 t).2.
Proof.
  revert ids. induction g as [|t g IH]; intros ids.
  - simpl. by intros ?%elem_of_nil.
  - rewrite processThreads_cons. cbn zeta. cbn [snd].
    intros [He|He]%elem_of_app.
    + by exists [], t, g.
    + destruct (IH _ He) as (g1 & t' & g2 & -> & Hin).
      exists (t :: g1), t', g2. split; [done|].
      by rewrite processThreads_cons.
Qed.

(** A post made by the step of a thread: the thread is the one posted to,
    its latest comment is not recorded yet, has text and is not taken for
    one of the integration, and the list after the step follows the result
    of the post. *)
Lemma threadStep_post notion config uid pageId quoteMap ids d cs d' reply success :
  Post d' reply success ∈ (threadStep notion config uid pageId quoteMap ids (d, cs)).2 →
  ∃ latest,
    last (sort_by_time cs) = Some latest
    ∧ d' = d
    ∧ success = replyToComment notion d reply
    ∧ resolveThread uid ids latest = Answer latest (extractTextFromComment latest)
    ∧ (threadStep notion config uid pageId quoteMap ids (d, cs)).1
      = (if success then ids ++ [id latest] else ids).
Proof.
  destruct (last (sort_by_time cs)) as [latest|] eqn:Hlast.
  2: { unfold threadStep. simpl. rewrite Hlast. simpl. by intros ?%elem_of_nil. }
  rewrite (threadStep_resolve _ _ _ _ _ _ _ _ _ Hlast).
  destruct (resolveThread uid ids latest) as [|i|l text] eqn:Hres; simpl;
    [by intros ?%elem_of_nil..|].
  intros [|[[= -> -> ->]|[]%elem_of_nil]%elem_of_cons]%elem_of_cons; [done|].
  exists latest. split; [done|].
  assert (l = latest ∧ text = extractTextFromComment latest) as [-> ->].
  { revert Hres. unfold resolveThread.
    case_bool_decide; [done|]. destruct (is_self uid latest); [done|].
    case_bool_decide; [done|]. by intros [= <- <-]. }
  done.
Qed.

Lemma resolveThread_Answer_inv uid ids latest l text :
  resolveThread uid ids latest = Answer l text →
  (id latest ∉ ids) ∧ is_self uid latest = false
  ∧ Js.trim (extractTextFromComment latest) ≠ "".
Proof.
  unfold resolveThread. case_bool_decide as Hin; [done|].
  destruct (is_self uid latest); [done|]. by case_bool_decide.
Qed.

Lemma resolveThread_Answer_other uid ids ids' latest :
  resolveThread uid ids latest = Answer latest (extractTextFromComment latest) →
  id latest ∉ ids' →
  resolveThread uid ids' latest = Answer latest (extractTextFromComment latest).
Proof.
  intros (_ & Hself & Htext)%resolveThread_Answer_inv Hin.
  by destruct (resolveThread_cases uid ids' latest) as (_ & _ & _ & ->).
Qed.

(** With identifiers of their own, the latest comments of two threads of
    a page differ. *)
Lemma unique_ids_distinct_latest entries d1 cs1 l1 d2 cs2 l2 :
  unique_comment_ids entries →
  (d1, cs1) ∈ groupByDiscussion (map comment entries) →
  (d2, cs2) ∈ groupByDiscussion (map comment entries) →
  last (sort_by_time cs1) = Some l1 →
  last (sort_by_time cs2) = Some l2 →
  id l1 = id l2 → d1 = d2.
Proof.
  intros Hu H1 H2 Hl1 Hl2 Hid.
  destruct (groupByDiscussion_grouped (map comment entries)) as (_ & Hg & _).
  destruct (Hg _ _ H1) as [_ Hcs1]. destruct (Hg _ _ H2) as [_ Hcs2].
  assert (Hin1 : l1 ∈ cs1).
  { rewrite <- (sort_by_time_perm cs1). by apply last_Some_elem_of. }
  assert (Hin2 : l2 ∈ cs2).
  { rewrite <- (sort_by_time_perm cs2). by apply last_Some_elem_of. }
  rewrite Hcs1 in Hin1. rewrite Hcs2 in Hin2.
  apply list_elem_of_filter in Hin1 as [<- Hin1].
  apply list_elem_of_filter in Hin2 as [<- Hin2].
  apply list_elem_of_fmap in Hin1 as (e1 & -> & He1).
  apply list_elem_of_fmap in Hin2 as (e2 & -> & He2).
  f_equal. f_equal.
  unfold unique_comment_ids in Hu.
  apply list_elem_of_lookup in He1 as [i Hi]. apply list_elem_of_lookup in He2 as [j Hj].
  assert (i = j) as ->; [|congruence].
  eapply NoDup_lookup; [exact Hu| |].
  - rewrite list_lookup_fmap, Hi. done.
  - rewrite list_lookup_fmap, Hj. simpl. by rewrite Hid.
Qed.

(** A reply that could not be posted leaves the page in need of the same
    answer: the latest comment of the thread is missing from the list the
    page ends with, and a pass from that list posts to the thread again.
    A reply that was posted leaves the latest comment recorded. *)
Lemma pagePass_post notion config uid pageId entries ids d reply success :
  Post d reply success ∈ (pagePass notion config uid pageId entries ids).2 →
  ∃ latest,
    is_latest latest (thread_of d entries)
    ∧ success = replyToComment notion d reply
    ∧ (success = true → id latest ∈ (pagePass notion config uid pageId entries ids).1)
    ∧ (success = false → unique_comment_ids entries →
       (id latest ∉ (pagePass notion config uid pageId entries ids).1)
       ∧ ∃ prompt' reply' success' before after,
           (pagePass notion config uid pageId entries
              (pagePass notion config uid pageId entries ids).1).2
           = before ++ [Respond prompt' reply'; Post d reply' success'] ++ after).
Proof.
  unfold pagePass.
  set (g := groupByDiscussion (map comment entries)).
  set (qm := buildQuoteMap entries).
  intros He.
  destruct (processThreads_event_origin _ _ _ _ _ _ _ _ He)
    as (g1 & [d0 cs] & g2 & Hg & Hstep).
  apply threadStep_post in Hstep as (latest & Hlast & -> & Hs & Hres & Hids).
  destruct (groupByDiscussion_grouped (map comment entries)) as (Hnd & Hgr & _).
  fold g in Hnd, Hgr.
  assert (Hin : (d0, cs) ∈ g).
  { rewrite Hg. apply elem_of_app. right. by left. }
  destruct (Hgr _ _ Hin) as [_ Hcs].
  exists latest. split.
  { unfold thread_of. rewrite <- Hcs. by apply last_sort_is_latest. }
  split; [done|].
  assert (Hfinal : ∀ start,
    (processThreads notion config uid pageId qm g start).1
    = (processThreads notion config uid pageId qm g2
         (threadStep notion config uid pageId qm
            (processThreads notion config uid pageId qm g1 start).1 (d0, cs)).1).1).
  { intros start. rewrite Hg, processThreads_app. cbn [fst].
    by rewrite processThreads_cons. }
  split.
  - intros ->. rewrite Hfinal, Hids.
    eapply elem_of_prefix; [|apply processThreads_grows].
    apply elem_of_app. right. by left.
  - intros -> Hu.
    assert (Hother : ∀ g' start,
      (∀ t, t ∈ g' → t ∈ g ∧ t.1 ≠ d0) →
      id latest ∉ start →
      id latest ∉ (processThreads notion config uid pageId qm g' start).1).
    { intros g' start Hsub Hstart Hx.
      apply processThreads_ids_origin in Hx as [?|(d' & cs' & l' & Hin' & Hl' & Hid)]; [done|].
      destruct (Hsub _ Hin') as [Hing Hne]. apply Hne. simpl.
      by eapply (unique_ids_distinct_latest entries d' cs' l' d0 cs latest). }
    assert (Hkeys : NoDup (g1.*1 ++ d0 :: g2.*1)).
    { rewrite Hg, fmap_app, fmap_cons in Hnd. done. }
    apply NoDup_app in Hkeys as (_ & Hk1 & [Hk2 _]%NoDup_cons).
    assert (Hg1 : ∀ t, t ∈ g1 → t ∈ g ∧ t.1 ≠ d0).
    { intros t Ht. split; [rewrite Hg; apply elem_of_app; by left|].
      intros Heq. apply (Hk1 t.1); [apply list_elem_of_fmap; by exists t|].
      rewrite Heq. by left. }
    assert (Hg2 : ∀ t, t ∈ g2 → t ∈ g ∧ t.1 ≠ d0).
    { intros t Ht. split; [rewrite Hg; apply elem_of_app; right; by right|].
      intros Heq. apply Hk2. apply list_elem_of_fmap. by exists t. }
    destruct (resolveThread_Answer_inv _ _ _ _ _ Hres) as (Hnot & _ & _).
    assert (Hmissing : id latest ∉ (processThreads notion config uid pageId qm g ids).1).
    { rewrite Hfinal, Hids. by apply Hother. }
    split; [done|].
    set (F := (processThreads notion config uid pageId qm g ids).1) in *.
    assert (Hnot' : id latest ∉ (processThreads notion config uid pageId qm g1 F).1).
    { by apply Hother. }
    rewrite Hg, processThreads_app. cbn [snd]. rewrite processThreads_cons.
    cbn zeta. cbn [snd].
    rewrite (threadStep_resolve _ _ _ _ _ _ _ _ _ Hlast).
    rewrite (resolveThread_Answer_other _ _ _ _ Hres Hnot'). simpl.
    by eexists _, _, _, _, _.
Qed.

(** ** More fuel changes nothing *)

Lemma bind_fuel {A B} (m m' : Run A) (k k' : A → Run B) :
  (finished m → m' = m) →
  (∀ a, finished (k a) → k' a = k a) →
  finished (m ≫= k) → m' ≫= k' = m ≫= k.
Proof.
  intros Hm Hk. destruct m as [a|e|]; simpl; intros Hfin.
  - rewrite Hm by done. simpl. by apply Hk.
  - by rewrite Hm.
  - done.
Qed.

Lemma listAll_fuel {A} fuel fuel' (call : option string → ApiResult (ListResponse A))
    cursor acc :
  (fuel ≤ fuel')%nat →
  finished (listAll fuel call cursor acc) →
  listAll fuel' call cursor acc = listAll fuel call cursor acc.
Proof.
  revert fuel' cursor acc. induction fuel as [|fuel IH]; intros fuel' cursor acc Hle; simpl.
  { by intros []. }
  destruct fuel' as [|fuel']; [lia|]. simpl.
  destruct (call cursor) as [r|m]; [|done].
  destruct (Js.truthy (following r)); [|done].
  apply IH. lia.
Qed.

Lemma inlineComments_fuel fuel fuel' notion blocks results :
  (fuel ≤ fuel')%nat →
  finished (inlineComments fuel notion blocks results) →
  inlineComments fuel' notion blocks results = inlineComments fuel notion blocks results.
Proof.
  intros Hle. revert results. induction blocks as [|block rest IH]; intros results; simpl.
  { done. }
  destruct (commentable block); [|apply IH].
  apply bind_fuel; [by apply listAll_fuel | intros cs; apply IH].
Qed.

Lemma getAllCommentsForPage_fuel fuel fuel' notion pageId :
  (fuel ≤ fuel')%nat →
  finished (getAllCommentsForPage fuel notion pageId) →
  getAllCommentsForPage fuel' notion pageId = getAllCommentsForPage fuel notion pageId.
Proof.
  intros Hle. unfold getAllCommentsForPage.
  apply bind_fuel; [by apply listAll_fuel|]. intros cs.
  apply bind_fuel; [by apply listAll_fuel|]. intros bs.
  by apply inlineComments_fuel.
Qed.

Lemma tryPage_fuel fuel fuel' notion config uid state pageId :
  (fuel ≤ fuel')%nat →
  finished (tryPage fuel notion config uid state pageId) →
  tryPage fuel' notion config uid state pageId
  = tryPage fuel notion config uid state pageId.
Proof.
  intros Hle Hfin.
  assert (Hpage : processPage fuel' notion config uid state pageId
                  = processPage fuel notion config uid state pageId).
  { unfold processPage. apply bind_fuel; [by apply getAllCommentsForPage_fuel|done|].
    intros Hout. apply Hfin. unfold tryPage, processPage. by rewrite Hout. }
  unfold tryPage. by rewrite Hpage.
Qed.

Lemma pollPages_fuel fuel fuel' notion config uid pages state :
  (fuel ≤ fuel')%nat →
  finished (pollPages fuel notion config uid pages state) →
  pollPages fuel' notion config uid pages state
  = pollPages fuel notion config uid pages state.
Proof.
  intros Hle. revert state. induction pages as [|p rest IH]; intros state; simpl; [done|].
  apply bind_fuel; [by apply tryPage_fuel|]. intros here.
  apply bind_fuel; [apply IH | done].
Qed.

Lemma resolveWatched_fuel fuel fuel' notion config :
  (fuel ≤ fuel')%nat →
  finished (resolveWatched fuel notion config) →
  resolveWatched fuel' notion config = resolveWatched fuel notion config.
Proof.
  intros Hle. unfold resolveWatched.
  apply bind_fuel; [|done].
  destruct (indexPage config) as [p|]; [|done].
  destruct (Js.truthy (Some p)); [|done].
  unfold getWatchedPagesFromIndex.
  apply bind_fuel; [by apply listAll_fuel | done].
Qed.

(** A cycle that came to an end gives the same result with any larger
    allowance of rounds. *)
Lemma pollNotionComments_fuel fuel fuel' notion config uid now disk :
  (fuel ≤ fuel')%nat →
  finished (pollNotionComments fuel notion config uid now disk) →
  pollNotionComments fuel' notion config uid now disk
  = pollNotionComments fuel notion config uid now disk.
Proof.
  intros Hle. unfold pollNotionComments. destruct (enabled config); [|done].
  cbn [negb]. apply bind_fuel; [by apply resolveWatched_fuel|].
  intros [|p pages]; [done|].
  apply bind_fuel; [by apply pollPages_fuel | done].
Qed.

(** * The statements of the specification *)

(** ** Fetchers (C10) *)

(** C10. The two listing fetchers never raise to their caller. When a
    request is rejected after some rounds resolved, the fetcher returns
    what those rounds brought, and the page is then processed against
    that partial set: where the state gives a list for the page (its own
    entry, or the empty list for a page without one whose identifier is
    not the name of a member of [Object.prototype]), the page returns
    with the pass over the entries built from what was fetched. *)
Theorem C10_fetchers_return_partial_lists fuel notion blockId :
  (∀ e, getCommentsForBlock fuel notion blockId ≠ Throw e
        ∧ getPageBlocks fuel notion blockId ≠ Throw e)
  ∧ (∀ rs c message,
       rounds (comments_list notion blockId) None rs c →
       comments_list notion blockId c = Rejected message →
       (length rs < fuel)%nat →
       getCommentsForBlock fuel notion blockId = Ret (gathered rs))
  ∧ (∀ rs c message,
       rounds (blocks_children_list notion blockId) None rs c →
       blocks_children_list notion blockId c = Rejected message →
       (length rs < fuel)%nat →
       getPageBlocks fuel notion blockId = Ret (gathered rs))
  ∧ (∀ config uid state pageComments blocks entries ids,
       getCommentsForBlock fuel notion blockId = Ret pageComments →
       getPageBlocks fuel notion blockId = Ret blocks →
       inlineComments fuel notion blocks
         (map (λ c, {| comment := c; quote := None |}) pageComments) = Ret entries →
       lookup_processed state blockId = Ids ids →
       ids = processed state blockId
       ∧ tryPage fuel notion config uid state blockId
         = Ret (with_processed state blockId
                  (pagePass notion config uid blockId entries ids).1,
                (pagePass notion config uid blockId entries ids).2))
  ∧ (∀ state, Js.inherited blockId = false →
              lookup_processed state blockId = Ids (processed state blockId)).
Proof.
  split; [|split; [|split; [|split]]].
  - intros e. split; apply listAll_never_throws.
  - intros rs c message Hrs Hrej Hfuel. by eapply listAll_partial.
  - intros rs c message Hrs Hrej Hfuel. by eapply listAll_partial.
  - intros config uid state pageComments blocks entries ids Hc Hb Hi Hl.
    split; [by apply lookup_processed_Ids in Hl|].
    rewrite (tryPage_Ids _ _ _ _ _ _ ids Hl), (processPage_Ids _ _ _ _ _ _ ids Hl).
    unfold getAllCommentsForPage.
    rewrite Hc. simpl. rewrite Hb. simpl. rewrite Hi. done.
  - intros state. apply lookup_processed_plain.
Qed.

Lemma C10_witness :
  getCommentsForBlock 3 Scenario.flaky "page-1"
  = Ret [Scenario.question; Scenario.inline_question].
Proof.
  destruct (C10_fetchers_return_partial_lists 3 Scenario.flaky "page-1")
    as (_ & Hpartial & _).
  apply (Hpartial
           [ {| results := [Scenario.question]; has_more := true;
                next_cursor := Some "cur-1" |};
             {| results := [Scenario.inline_question]; has_more := true;
                next_cursor := Some "cur-2" |} ]
           (Some "cur-2") (Some "rate limited")).
  - eapply rounds_cons; [reflexivity | reflexivity |].
    eapply rounds_cons; [reflexivity | reflexivity |].
    apply rounds_nil.
  - reflexivity.
  - simpl. lia.
Defined.

(** ** The thread decision (C1, C3, C9) *)

(** C1, amended. For a thread of a poll cycle the decision is taken from its latest
    comment alone: the comment that comes last when the thread is sorted
    by creation time with the stable sort, which is the one no comment is
    younger than and behind which no comment of the same time stands
    (the sort permutes the thread, puts it in ascending order of time and
    keeps comments of equal time in their order). The
    step is the action of the thread resolver on that comment (nothing for
    a processed identifier, a skip recorded as processed for a comment of
    the integration or with empty trimmed text, an answer otherwise); two
    threads with the same latest comment are treated alike, whatever
    their earlier comments. An action is at most one call of the
    responder followed by one post: over a page there are as many posts as
    responder calls and at most one post per discussion, and so over the
    cycle when the watched pages are distinct and no discussion is listed
    under two of them. *)
Theorem C1_latest_comment_drives_thread notion config uid :
  (∀ cs t,
     sort_by_time cs ≡ₚ cs
     ∧ StronglySorted time_le (sort_by_time cs)
     ∧ filter (λ c, created_time c = t) (sort_by_time cs)
       = filter (λ c, created_time c = t) cs)
  ∧ (∀ pageId quoteMap ids d cs,
     cs ≠ [] →
     ∃ latest,
       is_latest latest cs
       ∧ last (sort_by_time cs) = Some latest
       ∧ threadStep notion config uid pageId quoteMap ids (d, cs)
         = perform notion config pageId quoteMap ids d (resolveThread uid ids latest)
       ∧ attempt d (threadStep notion config uid pageId quoteMap ids (d, cs)).2)
  ∧ (∀ pageId quoteMap ids d cs latest,
       is_latest latest cs →
       let step := threadStep notion config uid pageId quoteMap ids (d, cs) in
       let commentText := extractTextFromComment latest in
       (id latest ∈ ids → step = (ids, []))
       ∧ (id latest ∉ ids → is_self uid latest = true →
          step = (ids ++ [id latest], []))
       ∧ (id latest ∉ ids → is_self uid latest = false →
          Js.trim commentText = "" →
          step = (ids ++ [id latest], []))
       ∧ (id latest ∉ ids → is_self uid latest = false →
          Js.trim commentText ≠ "" →
          ∃ response (success : bool),
            step = (if success then ids ++ [id latest] else ids,
                    [Respond (buildPrompt commentText (getPageTitle notion pageId)
                                (quoteMap !! d)) response;
                     Post d response success])))
  ∧ (∀ pageId quoteMap ids d cs cs' latest,
       is_latest latest cs → is_latest latest cs' →
       threadStep notion config uid pageId quoteMap ids (d, cs)
       = threadStep notion config uid pageId quoteMap ids (d, cs'))
  ∧ (∀ pageId entries ids d,
       responses (pagePass notion config uid pageId entries ids).2
       = posts (pagePass notion config uid pageId entries ids).2
       ∧ (posts_to d (pagePass notion config uid pageId entries ids).2 ≤ 1)%nat)
  ∧ (∀ fuel now disk disk' evs d,
       pollNotionComments fuel notion config uid now disk = Ret (disk', evs) →
       (∀ pages, resolveWatched fuel notion config = Ret pages →
                 NoDup pages ∧ threads_on_one_page fuel notion pages) →
       responses evs = posts evs ∧ (posts_to d evs ≤ 1)%nat).
Proof.
  split; [|split; [|split; [|split; [|split]]]].
  - intros cs t. split; [apply sort_by_time_perm|].
    split; [apply sort_by_time_sorted | apply sort_by_time_stable].
  - intros pageId quoteMap ids d cs Hcs.
    destruct (last_sort_is_Some cs Hcs) as [latest Hlast].
    exists latest. split; [by apply last_sort_is_latest|]. split; [done|].
    split; [by apply threadStep_resolve | apply threadStep_attempt].
  - intros pageId quoteMap ids d cs latest Hlatest step commentText. subst step.
    rewrite (threadStep_resolve _ _ _ _ _ _ _ _ latest) by by apply is_latest_last_sort.
    destruct (resolveThread_cases uid ids latest) as (H1 & H2 & H3 & H4).
    split; [|split; [|split]].
    + intros Hin. by rewrite H1.
    + intros Hin Hself. by rewrite H2.
    + intros Hin Hself Htext. by rewrite H3.
    + intros Hin Hself Htext. rewrite H4 by done. simpl. eauto.
  - intros pageId quoteMap ids d cs cs' latest H1 H2.
    rewrite (threadStep_resolve _ _ _ _ _ _ _ _ latest) by by apply is_latest_last_sort.
    by rewrite (threadStep_resolve _ _ _ _ _ _ _ cs' latest) by by apply is_latest_last_sort.
  - intros pageId entries ids d.
    destruct (pagePass_counts notion config uid pageId entries ids d) as (H1 & H2 & _).
    done.
  - intros fuel now disk disk' evs d Hpoll Hpages.
    apply pollNotionComments_Ret in Hpoll as [(_ & _ & ->)|(pages & st & _ & Hw & _ & Hp & _)].
    { unfold responses, posts, posts_to. simpl. split; lia. }
    destruct (Hpages _ Hw) as [Hnd Hone].
    destruct (pollPages_counts _ _ _ _ _ _ _ _ d Hp) as (H1 & _ & H2).
    split; [done | by apply H2].
Qed.

(** A thread whose latest comment the integration wrote is skipped and
    recorded, without a call. *)
Example C1_bot_reply_is_skipped :
  pollNotionComments 3 Scenario.answered (Scenario.config None ["page-1"])
    (Some "bot-1") 1000 None
  = Ret (Some {| lastPollTime := 1000;
                 processedComments := {[ "page-1" := ["c-9"] ]} |}, []).
Proof. vm_compute. reflexivity. Qed.

(** C1, as the specification has it, on a page named twice in the
    configuration whose replies cannot be posted: the page is visited
    twice in the cycle and the thread is attempted at both visits, so
    that one cycle posts twice to one thread. *)
Lemma C1_counterexample :
  ∃ disk evs,
    pollNotionComments 3 Scenario.report_read_only
      (Scenario.config None ["page-1"; "page-1"]) (Some "bot-1") 1000 None
    = Ret (disk, evs)
    ∧ posts_to "d-0" evs = 2%nat.
Proof. eexists _, _. split; [vm_compute; reflexivity | reflexivity]. Qed.

(** C3. When a thread reaches the post, the post is made to the thread's
    discussion with the latest comment not yet recorded. If it fails the
    list of processed identifiers is left as it was; if it succeeds the
    identifier is appended. Over the page: after a reply that was posted
    the latest comment of the thread is in the list the page ends with;
    after a reply that could not be posted it is missing from that list
    (comments having identifiers of their own), and a pass over the same
    comments from that list calls the responder and posts to the thread
    again. The list the page ends with is the list stored for the page,
    the pass having started from the list the state gave for it; at a
    page for which the state gives an inherited member instead of a list
    no thread reaches the post and nothing is stored. *)
Theorem C3_reply_failure_withholds_identifier notion config uid pageId :
  (∀ quoteMap ids d cs d' reply success,
     Post d' reply success
     ∈ (threadStep notion config uid pageId quoteMap ids (d, cs)).2 →
     ∃ latest,
       is_latest latest cs
       ∧ d' = d
       ∧ success = replyToComment notion d reply
       ∧ (id latest ∉ ids)
       ∧ (threadStep notion config uid pageId quoteMap ids (d, cs)).1
         = (if success then ids ++ [id latest] else ids))
  ∧ (∀ entries ids d reply success,
       Post d reply success ∈ (pagePass notion config uid pageId entries ids).2 →
       ∃ latest,
         is_latest latest (thread_of d entries)
         ∧ success = replyToComment notion d reply
         ∧ (success = true →
            id latest ∈ (pagePass notion config uid pageId entries ids).1)
         ∧ (success = false → unique_comment_ids entries →
            (id latest ∉ (pagePass notion config uid pageId entries ids).1)
            ∧ ∃ prompt' reply' success' before after,
                (pagePass notion config uid pageId entries
                   (pagePass notion config uid pageId entries ids).1).2
                = before ++ [Respond prompt' reply'; Post d reply' success'] ++ after))
  ∧ (∀ fuel state entries ids,
       getAllCommentsForPage fuel notion pageId = Ret entries →
       lookup_processed state pageId = Ids ids →
       ids = processed state pageId
       ∧ ∃ state',
           tryPage fuel notion config uid state pageId
           = Ret (state', (pagePass notion config uid pageId entries ids).2)
           ∧ processed state' pageId
             = (pagePass notion config uid pageId entries ids).1)
  ∧ (∀ fuel state entries,
       getAllCommentsForPage fuel notion pageId = Ret entries →
       lookup_processed state pageId = Inherited →
       tryPage fuel notion config uid state pageId = Ret (state, []))
  ∧ (∀ state, Js.inherited pageId = false →
              lookup_processed state pageId = Ids (processed state pageId)).
Proof.
  split; [|split; [|split; [|split]]].
  - intros quoteMap ids d cs d' reply success Hpost.
    apply threadStep_post in Hpost as (latest & Hlast & -> & Hs & Hres & Hids).
    exists latest. split; [by apply last_sort_is_latest|].
    do 2 (split; [done|]). split; [|done].
    by destruct (resolveThread_Answer_inv _ _ _ _ _ Hres).
  - intros entries ids d reply success. apply pagePass_post.
  - intros fuel state entries ids Hget Hl.
    split; [by apply lookup_processed_Ids in Hl|].
    rewrite (tryPage_Ids _ _ _ _ _ _ ids Hl), (processPage_Ids _ _ _ _ _ _ ids Hl).
    rewrite Hget. simpl.
    eexists. split; [done|]. rewrite processed_with_processed.
    by rewrite decide_True.
  - intros fuel state entries Hget Hl. by eapply tryPage_Inherited.
  - intros state. apply lookup_processed_plain.
Qed.

Lemma C3_witness :
  ∃ latest,
    is_latest latest (thread_of "d-0" [page_entry Scenario.question])
    ∧ false = replyToComment Scenario.report_read_only "d-0" "Understood."
    ∧ (false = true →
       id latest ∈ (pagePass Scenario.report_read_only (Scenario.config None ["page-1"])
                      (Some "bot-1") "page-1" [page_entry Scenario.question] []).1)
    ∧ (false = false → unique_comment_ids [page_entry Scenario.question] →
       (id latest ∉ (pagePass Scenario.report_read_only (Scenario.config None ["page-1"])
                       (Some "bot-1") "page-1" [page_entry Scenario.question] []).1)
       ∧ ∃ prompt' reply' success' before after,
           (pagePass Scenario.report_read_only (Scenario.config None ["page-1"])
              (Some "bot-1") "page-1" [page_entry Scenario.question]
              (pagePass Scenario.report_read_only (Scenario.config None ["page-1"])
                 (Some "bot-1") "page-1" [page_entry Scenario.question] []).1).2
           = before ++ [Respond prompt' reply'; Post "d-0" reply' success'] ++ after).
Proof.
  destruct (C3_reply_failure_withholds_identifier Scenario.report_read_only
              (Scenario.config None ["page-1"]) (Some "bot-1") "page-1")
    as (_ & Hpage & _).
  apply (Hpage [page_entry Scenario.question] [] "d-0" "Understood." false).
  vm_compute. apply list_elem_of_In. right. left. reflexivity.
Defined.

(** C9. Without a configured integration identifier (undefined or the
    empty string) the test for a comment of the integration is never
    taken: a thread whose latest comment is not recorded and has text is
    answered, whoever wrote it, the integration included: the responder is
    called and the reply is posted. *)
Theorem C9_absent_integration_id_answers_own_reply notion config uid pageId quoteMap
    ids d cs latest :
  Js.truthy uid = false →
  is_latest latest cs →
  id latest ∉ ids →
  Js.trim (extractTextFromComment latest) ≠ "" →
  is_self uid latest = false
  ∧ ∃ prompt response (success : bool),
      threadStep notion config uid pageId quoteMap ids (d, cs)
      = (if success then ids ++ [id latest] else ids,
         [Respond prompt response; Post d response success]).
Proof.
  intros Huid Hlatest Hin Htext.
  assert (Hself : is_self uid latest = false).
  { unfold is_self. by rewrite Huid. }
  split; [done|].
  rewrite (threadStep_resolve _ _ _ _ _ _ _ _ latest) by by apply is_latest_last_sort.
  destruct (resolveThread_cases uid ids latest) as (_ & _ & _ & ->); [|done..].
  simpl. eauto.
Qed.

Lemma C9_witness :
  is_self None Scenario.bot_reply = false
  ∧ ∃ prompt response (success : bool),
      threadStep Scenario.answered (Scenario.config None ["page-1"]) None "page-1" ∅ []
        ("d-0", [Scenario.question; Scenario.bot_reply])
      = (if success then [] ++ [id Scenario.bot_reply] else [],
         [Respond prompt response; Post "d-0" response success]).
Proof.
  apply (C9_absent_integration_id_answers_own_reply Scenario.answered
           (Scenario.config None ["page-1"]) None "page-1" ∅ []
           "d-0" [Scenario.question; Scenario.bot_reply] Scenario.bot_reply).
  - reflexivity.
  - exists [Scenario.question], []. split; [reflexivity|]. split.
    + constructor; [simpl; lia | constructor].
    + constructor.
  - apply not_elem_of_nil.
  - vm_compute. discriminate.
Defined.

(** ** The dispatcher (C6) *)






(** The scenario evaluated: the gateway is down, no external key is set. *)
Example C6_gateway_down :
  threadStep Scenario.report_responder_down (Scenario.config None ["page-1"])
    (Some "bot-1") "page-1" ∅ [] ("d-0", [Scenario.question])
  = (["c-0"],
     [Respond (buildPrompt "Please clarify this metric." (Some "Q3 report") None)
        apology_gateway_down;
      Post "d-0" apology_gateway_down true]).
Proof. vm_compute. reflexivity. Qed.

(** ** Aggregation (C8, C4) *)

Lemma inlineComments_inline_of fuel notion blocks es :
  inline_of fuel notion blocks es →
  ∀ results, inlineComments fuel notion blocks results = Ret (results ++ es).
Proof.
  induction 1 as [|block rest es Hskip _ IH|block rest cs es Hc Hget _ IH];
    intros results; simpl.
  - by rewrite app_nil_r.
  - by rewrite Hskip.
  - rewrite Hc, Hget. simpl. rewrite IH. by rewrite app_assoc.
Qed.

Lemma inline_of_elem fuel notion blocks es e :
  inline_of fuel notion blocks es → e ∈ es →
  ∃ block cs,
    block ∈ blocks ∧ commentable block = true
    ∧ getCommentsForBlock fuel notion (block_id block) = Ret cs
    ∧ comment e ∈ cs ∧ e = inline_entry block (comment e).
Proof.
  induction 1 as [|block rest es Hskip _ IH|block rest cs es Hc Hget _ IH]; intros He.
  - by apply elem_of_nil in He.
  - destruct (IH He) as (b & cs & Hb & ?). exists b, cs. split; [by right | done].
  - apply elem_of_app in He as [He|He].
    + apply list_elem_of_fmap in He as (c & -> & Hin).
      exists block, cs. split; [by left|]. by repeat split.
    + destruct (IH He) as (b & cs' & Hb & ?). exists b, cs'. split; [by right | done].
Qed.

Lemma getAllCommentsForPage_entries fuel notion pageId pageComments blocks inline :
  getCommentsForBlock fuel notion pageId = Ret pageComments →
  getPageBlocks fuel notion pageId = Ret blocks →
  inline_of fuel notion blocks inline →
  getAllCommentsForPage fuel notion pageId
  = Ret (map page_entry pageComments ++ inline).
Proof.
  intros Hc Hb Hi. unfold getAllCommentsForPage. rewrite Hc. simpl.
  rewrite Hb. simpl. by apply inlineComments_inline_of.
Qed.

(** C8, as the specification has it, at a block without text: the comment
    on the divider is returned with no quoted context, not with the (empty)
    text of its block. *)
Lemma C8_counterexample :
  getAllCommentsForPage 3 Scenario.report "page-1"
  = Ret [ {| comment := Scenario.question; quote := None |};
          {| comment := Scenario.inline_question; quote := Some "Revenue grew 12%" |};
          {| comment := Scenario.on_divider; quote := None |} ]
  ∧ extractBlockText Scenario.rule = ""
  ∧ quote {| comment := Scenario.on_divider; quote := None |}
    ≠ Some (extractBlockText Scenario.rule).
Proof. split; [vm_compute; reflexivity|]. split; [reflexivity | discriminate]. Qed.

(** C8, amended. The aggregation of a page returns its page-level comments
    with no quoted context, followed by the comments of its commentable
    blocks, block after block; a comment on a block carries the plain text
    of that block (the concatenation of the [plain_text] of its runs) as
    quoted context when that text is not empty, and no quoted context when
    it is empty; all comments on one block carry the same. *)
Theorem C8_quote_is_block_text_when_not_empty fuel notion pageId pageComments blocks inline :
  getCommentsForBlock fuel notion pageId = Ret pageComments →
  getPageBlocks fuel notion pageId = Ret blocks →
  inline_of fuel notion blocks inline →
  getAllCommentsForPage fuel notion pageId
  = Ret (map page_entry pageComments ++ inline)
  ∧ (∀ e, e ∈ map page_entry pageComments → quote e = None)
  ∧ (∀ e, e ∈ inline →
       ∃ block cs,
         block ∈ blocks
         ∧ commentable block = true
         ∧ getCommentsForBlock fuel notion (block_id block) = Ret cs
         ∧ comment e ∈ cs
         ∧ quote e = (if String.eqb (extractBlockText block) "" then None
                      else Some (extractBlockText block))
         ∧ extractBlockText block
           = Js.join (map plain_text (default [] (block_rich_text block)))).
Proof.
  intros Hc Hb Hi. split; [by apply (getAllCommentsForPage_entries _ _ _ _ blocks)|]. split.
  - intros e (c & -> & _)%list_elem_of_fmap. done.
  - intros e He.
    destruct (inline_of_elem _ _ _ _ _ Hi He) as (block & cs & Hblock & Hc' & Hget & Hin & ->).
    exists block, cs. repeat split; try done.
    unfold extractBlockText. by destruct (block_rich_text block).
Qed.

Lemma C8_scenario_inline :
  inline_of 3 Scenario.report [Scenario.revenue; Scenario.rule; Scenario.child_page "sub-1"]
    [inline_entry Scenario.revenue Scenario.inline_question;
     inline_entry Scenario.rule Scenario.on_divider].
Proof.
  apply (inline_block 3 Scenario.report Scenario.revenue _ [Scenario.inline_question]
           [inline_entry Scenario.rule Scenario.on_divider]);
    [reflexivity | reflexivity |].
  apply (inline_block 3 Scenario.report Scenario.rule _ [Scenario.on_divider] []);
    [reflexivity | reflexivity |].
  apply inline_skip; [reflexivity | apply inline_nil].
Qed.

Lemma C8_witness :
  getAllCommentsForPage 3 Scenario.report "page-1"
  = Ret [ page_entry Scenario.question;
          {| comment := Scenario.inline_question; quote := Some "Revenue grew 12%" |};
          {| comment := Scenario.on_divider; quote := None |} ].
Proof.
  apply (C8_quote_is_block_text_when_not_empty 3 Scenario.report "page-1"
           [Scenario.question]
           [Scenario.revenue; Scenario.rule; Scenario.child_page "sub-1"]
           [inline_entry Scenario.revenue Scenario.inline_question;
            inline_entry Scenario.rule Scenario.on_divider]).
  - reflexivity.
  - reflexivity.
  - exact C8_scenario_inline.
Defined.

(** C4, as the specification has it, on a page whose page-level comments
    cannot be listed: the page is not skipped, its two inline threads are
    answered and recorded. *)
Lemma C4_counterexample :
  comments_list Scenario.report_top_level_down "page-1" None = Rejected (Some "timeout")
  ∧ pollNotionComments 3 Scenario.report_top_level_down
      (Scenario.config None ["page-1"]) (Some "bot-1") 1000 None
    = Ret (Some {| lastPollTime := 1000;
                   processedComments := {[ "page-1" := ["c-1"; "c-2"] ]} |},
           [Respond (buildPrompt "Why?" (Some "Q3 report") (Some "Revenue grew 12%"))
              "Understood.";
            Post "d-1" "Understood." true;
            Respond (buildPrompt "Remove this line?" (Some "Q3 report") None)
              "Understood.";
            Post "d-2" "Understood." true]).
Proof. split; [reflexivity | vm_compute; reflexivity]. Qed.

(** C4, amended. A failure while the page-level comments or the blocks of
    a watched page are listed does not reach the handler of the page: the
    fetcher ends with what its earlier rounds brought, and the
    aggregation of the page never raises. The page is processed in this
    cycle against that partial data (the page-level comments fetched so
    far and the comments of the blocks fetched so far, whose threads are
    resolved as usual) where the state gives a list for the page, and the
    cycle goes on with the next page. What the handler of a page does
    catch is no failure of a fetch: it is the call of [includes] on the
    member a page identifier inherits from [Object.prototype], at a page
    without an entry that has a thread. *)
Theorem C4_page_fetch_failure_is_absorbed fuel notion config uid state pageId :
  (∀ e, getAllCommentsForPage fuel notion pageId ≠ Throw e)
  ∧ (∀ e, processPage fuel notion config uid state pageId = Throw e →
          e = NotAFunction ∧ lookup_processed state pageId = Inherited)
  ∧ (∀ ids, lookup_processed state pageId = Ids ids →
            tryPage fuel notion config uid state pageId
            = processPage fuel notion config uid state pageId)
  ∧ (∀ rs c message blocks inline ids,
       rounds (comments_list notion pageId) None rs c →
       comments_list notion pageId c = Rejected message →
       getPageBlocks fuel notion pageId = Ret blocks →
       inline_of fuel notion blocks inline →
       (length rs < fuel)%nat →
       lookup_processed state pageId = Ids ids →
       let entries := map page_entry (gathered rs) ++ inline in
       tryPage fuel notion config uid state pageId
       = Ret (with_processed state pageId
                (pagePass notion config uid pageId entries ids).1,
              (pagePass notion config uid pageId entries ids).2))
  ∧ (∀ rs c message pageComments inline ids,
       rounds (blocks_children_list notion pageId) None rs c →
       blocks_children_list notion pageId c = Rejected message →
       getCommentsForBlock fuel notion pageId = Ret pageComments →
       inline_of fuel notion (gathered rs) inline →
       (length rs < fuel)%nat →
       lookup_processed state pageId = Ids ids →
       let entries := map page_entry pageComments ++ inline in
       tryPage fuel notion config uid state pageId
       = Ret (with_processed state pageId
                (pagePass notion config uid pageId entries ids).1,
              (pagePass notion config uid pageId entries ids).2))
  ∧ (∀ rest state1 evs1 state2 evs2,
       tryPage fuel notion config uid state pageId = Ret (state1, evs1) →
       pollPages fuel notion config uid rest state1 = Ret (state2, evs2) →
       pollPages fuel notion config uid (pageId :: rest) state
       = Ret (state2, evs1 ++ evs2))
  ∧ (Js.inherited pageId = false →
     lookup_processed state pageId = Ids (processed state pageId)).
Proof.
  split; [intros e; apply getAllCommentsForPage_never_throws|].
  split; [intros e (-> & Hl & _)%processPage_Throw; done|].
  split; [intros ids; apply tryPage_Ids|].
  split; [|split; [|split]].
  - intros rs c message blocks inline ids Hrs Hrej Hb Hi Hfuel Hl entries.
    rewrite (tryPage_Ids _ _ _ _ _ _ ids Hl), (processPage_Ids _ _ _ _ _ _ ids Hl).
    rewrite (getAllCommentsForPage_entries _ _ _ (gathered rs) blocks inline); try done.
    by eapply listAll_partial.
  - intros rs c message pageComments inline ids Hrs Hrej Hc Hi Hfuel Hl entries.
    rewrite (tryPage_Ids _ _ _ _ _ _ ids Hl), (processPage_Ids _ _ _ _ _ _ ids Hl).
    rewrite (getAllCommentsForPage_entries _ _ _ pageComments (gathered rs) inline); try done.
    by eapply listAll_partial.
  - intros rest state1 evs1 state2 evs2 Hpage Hrest. simpl.
    rewrite Hpage. simpl. rewrite Hrest. done.
  - apply lookup_processed_plain.
Qed.

Lemma C4_witness :
  tryPage 3 Scenario.report_top_level_down (Scenario.config None ["page-1"])
    (Some "bot-1") (loadState None) "page-1"
  = Ret ({| lastPollTime := 0;
            processedComments := {[ "page-1" := ["c-1"; "c-2"] ]} |},
         [Respond (buildPrompt "Why?" (Some "Q3 report") (Some "Revenue grew 12%"))
            "Understood.";
          Post "d-1" "Understood." true;
          Respond (buildPrompt "Remove this line?" (Some "Q3 report") None)
            "Understood.";
          Post "d-2" "Understood." true]).
Proof.
  destruct (C4_page_fetch_failure_is_absorbed 3 Scenario.report_top_level_down
              (Scenario.config None ["page-1"]) (Some "bot-1") (loadState None) "page-1")
    as (_ & _ & _ & Htop & _).
  rewrite (Htop [] None (Some "timeout")
             [Scenario.revenue; Scenario.rule; Scenario.child_page "sub-1"]
             [inline_entry Scenario.revenue Scenario.inline_question;
              inline_entry Scenario.rule Scenario.on_divider] []).
  - vm_compute. reflexivity.
  - apply rounds_nil.
  - reflexivity.
  - reflexivity.
  - apply (inline_block 3 Scenario.report_top_level_down Scenario.revenue _
             [Scenario.inline_question]
             [inline_entry Scenario.rule Scenario.on_divider]);
      [reflexivity | reflexivity |].
    apply (inline_block 3 Scenario.report_top_level_down Scenario.rule _
             [Scenario.on_divider] []);
      [reflexivity | reflexivity |].
    apply inline_skip; [reflexivity | apply inline_nil].
  - simpl. lia.
  - reflexivity.
Defined.

(** What the handler of a page catches. A watched page called
    [constructor] with one comment: the state has no entry for it, the
    lookup gives the inherited member, the first thread raises, the page
    is given up and the cycle writes a state without an entry for it. *)
Example inherited_member_is_caught :
  processPage 3 (Scenario.workspace (Scenario.on "constructor" [Scenario.question])
                   (λ _, []) (λ _, false) true (Json (Some "Understood.")))
    (Scenario.config None ["constructor"]) (Some "bot-1") (loadState None) "constructor"
  = Throw NotAFunction
  ∧ pollNotionComments 3
      (Scenario.workspace (Scenario.on "constructor" [Scenario.question])
         (λ _, []) (λ _, false) true (Json (Some "Understood.")))
      (Scenario.config None ["constructor"]) (Some "bot-1") 1000 None
    = Ret (Some {| lastPollTime := 1000; processedComments := ∅ |}, []).
Proof. split; vm_compute; reflexivity. Qed.

(** ** Two cycles in a row (C2) *)

(** C2, as the specification has it, on a page whose replies cannot be
    posted: the second cycle sees the same comments as the first and calls
    the responder and posts again for each of the three threads; and the
    state it writes differs from the first in its time. *)
Lemma C2_counterexample :
  ∃ evs,
    pollNotionComments 3 Scenario.report_read_only (Scenario.config None ["page-1"])
      (Some "bot-1") 1000 None
    = Ret (Some {| lastPollTime := 1000; processedComments := {[ "page-1" := [] ]} |}, evs)
    ∧ pollNotionComments 3 Scenario.report_read_only (Scenario.config None ["page-1"])
        (Some "bot-1") 2000
        (Some {| lastPollTime := 1000; processedComments := {[ "page-1" := [] ]} |})
      = Ret (Some {| lastPollTime := 2000; processedComments := {[ "page-1" := [] ]} |}, evs)
    ∧ responses evs = 3%nat
    ∧ posts evs = 3%nat.
Proof.
  eexists. split; [vm_compute; reflexivity|].
  split; [vm_compute; reflexivity|]. split; reflexivity.
Qed.

(** C2, amended. When every reply of a cycle was posted, a second cycle
    over the same remote comments calls the responder for nothing and
    posts nothing, and the processed identifiers it writes are those the
    first cycle wrote; the time of the last poll is set anew whenever the
    state is written. *)
Theorem C2_second_cycle_is_quiet fuel notion config uid now1 now2 disk disk1 evs1 :
  pollNotionComments fuel notion config uid now1 disk = Ret (disk1, evs1) →
  Forall post_ok evs1 →
  ∃ disk2,
    pollNotionComments fuel notion config uid now2 disk1 = Ret (disk2, [])
    ∧ processedComments (loadState disk2) = processedComments (loadState disk1)
    ∧ (disk2 = disk1 ∨ lastPollTime (loadState disk2) = now2).
Proof.
  intros Hpoll Hok.
  apply pollNotionComments_Ret in Hpoll
    as [(Hidle & -> & _)|(pages & state' & Hen & Hw & Hne & Hp & ->)].
  { exists disk. split; [by apply pollNotionComments_idle|]. split; [done | by left]. }
  pose proof (pollPages_settles _ _ _ _ _ _ _ _ Hp Hok) as Hsettled.
  eexists. split.
  { apply (pollNotionComments_watched _ _ _ _ _ _ pages); [done..|].
    by apply pollPages_settled. }
  split; [done | by right].
Qed.

Lemma C2_witness :
  ∃ disk2,
    pollNotionComments 3 Scenario.report (Scenario.config None ["page-1"])
      (Some "bot-1") 2000
      (Some {| lastPollTime := 1000;
               processedComments := {[ "page-1" := ["c-0"; "c-1"; "c-2"] ]} |})
    = Ret (disk2, [])
    ∧ processedComments (loadState disk2)
      = processedComments
          (loadState (Some {| lastPollTime := 1000;
                              processedComments := {[ "page-1" := ["c-0"; "c-1"; "c-2"] ]} |}))
    ∧ (disk2 = Some {| lastPollTime := 1000;
                       processedComments := {[ "page-1" := ["c-0"; "c-1"; "c-2"] ]} |}
       ∨ lastPollTime (loadState disk2) = 2000).
Proof.
  apply (C2_second_cycle_is_quiet 3 Scenario.report (Scenario.config None ["page-1"])
           (Some "bot-1") 1000 2000 None
           (Some {| lastPollTime := 1000;
                    processedComments := {[ "page-1" := ["c-0"; "c-1"; "c-2"] ]} |})
           [Respond (buildPrompt "Please clarify this metric." (Some "Q3 report") None)
              "Understood.";
            Post "d-0" "Understood." true;
            Respond (buildPrompt "Why?" (Some "Q3 report") (Some "Revenue grew 12%"))
              "Understood.";
            Post "d-1" "Understood." true;
            Respond (buildPrompt "Remove this line?" (Some "Q3 report") None)
              "Understood.";
            Post "d-2" "Understood." true]).
  - vm_compute. reflexivity.
  - repeat constructor.
Defined.

(** ** The state only grows (C7) *)

(** C7, as the specification has it, on a clock that was set back: the
    cycle ends while the clock reads less than the time kept in the state
    file, and writes the smaller time. *)
Lemma C7_counterexample :
  ∃ disk',
    pollNotionComments 3 Scenario.answered (Scenario.config None ["page-1"])
      (Some "bot-1") 50
      (Some {| lastPollTime := 100; processedComments := ∅ |})
    = Ret (disk', [])
    ∧ lastPollTime (loadState disk')
      < lastPollTime (loadState (Some {| lastPollTime := 100; processedComments := ∅ |})).
Proof. eexists. split; [vm_compute; reflexivity | reflexivity]. Qed.

(** C7, amended. Over a cycle, whether it returns or raises, every
    identifier recorded for a page at the start is still recorded for it
    at the end, in the same place of the list: no operation removes one.
    The time of the last poll is left as it was, with the whole state
    file, or overwritten with the reading of the clock at the end of the
    cycle; a cycle that polls its pages always writes the reading of the
    clock, whatever time the state held. *)
Theorem C7_processed_state_only_grows fuel notion config uid now disk disk' evs :
  doPoll fuel notion config uid now disk = Some (disk', evs) →
  (∀ p, processed (loadState disk) p `prefix_of` processed (loadState disk') p)
  ∧ (∀ p i, i ∈ processed (loadState disk) p → i ∈ processed (loadState disk') p)
  ∧ (disk' = disk ∨ lastPollTime (loadState disk') = now)
  ∧ (∀ pages,
       enabled config = true →
       resolveWatched fuel notion config = Ret pages → pages ≠ [] →
       lastPollTime (loadState disk') = now).
Proof.
  unfold doPoll. intros H.
  assert (Hcases : (disk' = disk
                    ∧ (∀ pages, enabled config = true →
                                resolveWatched fuel notion config = Ret pages →
                                pages = []))
                   ∨ ∃ pages state',
                       pollPages fuel notion config uid pages (loadState disk)
                       = Ret (state', evs)
                       ∧ disk' = Some {| lastPollTime := now;
                                         processedComments := processedComments state' |}).
  { destruct (pollNotionComments fuel notion config uid now disk) as [[d e]| |] eqn:Hpoll;
      [| |done].
    - inversion H; subst.
      apply pollNotionComments_Ret in Hpoll
        as [([Hoff|Hnone] & -> & _)|(pages & st & _ & _ & _ & Hp & ->)];
        [left|left|right; eauto].
      + split; [done|]. intros pages Hon. congruence.
      + split; [done|]. intros pages _ Hw. congruence.
    - inversion H; subst. left. split; [done|]. intros pages Hon Hw.
      unfold pollNotionComments in Hpoll. rewrite Hon, Hw in Hpoll. simpl in Hpoll.
      destruct pages as [|p pages]; [done|].
      apply bind_Throw_inv in Hpoll as [Hpoll|(r & _ & Hpoll)]; [|done].
      by apply pollPages_never_throws in Hpoll. }
  destruct Hcases as [[-> Hnone]|(pages & state' & Hp & ->)].
  { split; [done|]. split; [done|]. split; [by left|].
    intros pages Hon Hw Hne. by apply Hnone in Hw. }
  assert (Hgrow : ∀ p, processed (loadState disk) p
                       `prefix_of` processed (loadState
                         (Some {| lastPollTime := now;
                                  processedComments := processedComments state' |})) p).
  { intros p. by destruct (pollPages_grows _ _ _ _ _ _ _ _ p Hp) as [_ Hg]. }
  split; [done|]. split.
  - intros p i Hi. by eapply elem_of_prefix.
  - split; [by right | done].
Qed.

Lemma C7_witness :
  (∀ p, processed (loadState (Some {| lastPollTime := 100;
                                      processedComments := {[ "page-1" := ["c-0"] ]} |})) p
        `prefix_of`
        processed (loadState (Some {| lastPollTime := 1000;
                                      processedComments := {[ "page-1" := ["c-0"; "c-9"] ]} |})) p)
  ∧ (∀ p i, i ∈ processed (loadState (Some {| lastPollTime := 100;
                                      processedComments := {[ "page-1" := ["c-0"] ]} |})) p →
            i ∈ processed (loadState (Some {| lastPollTime := 1000;
                                      processedComments := {[ "page-1" := ["c-0"; "c-9"] ]} |})) p)
  ∧ (Some {| lastPollTime := 1000;
             processedComments := {[ "page-1" := ["c-0"; "c-9"] ]} |}
     = Some {| lastPollTime := 100; processedComments := {[ "page-1" := ["c-0"] ]} |}
     ∨ lastPollTime (loadState (Some {| lastPollTime := 1000;
                                        processedComments := {[ "page-1" := ["c-0"; "c-9"] ]} |}))
       = 1000)
  ∧ (∀ pages,
       enabled (Scenario.config None ["page-1"]) = true →
       resolveWatched 3 Scenario.answered (Scenario.config None ["page-1"]) = Ret pages →
       pages ≠ [] →
       lastPollTime (loadState (Some {| lastPollTime := 1000;
                                        processedComments := {[ "page-1" := ["c-0"; "c-9"] ]} |}))
       = 1000).
Proof.
  apply (C7_processed_state_only_grows 3 Scenario.answered (Scenario.config None ["page-1"])
           (Some "bot-1") 1000
           (Some {| lastPollTime := 100; processedComments := {[ "page-1" := ["c-0"] ]} |})
           (Some {| lastPollTime := 1000;
                    processedComments := {[ "page-1" := ["c-0"; "c-9"] ]} |})
           []).
  vm_compute. reflexivity.
Defined.

(** ** Link extraction (C5) *)

Lemma push_new_spec pageIds x :
  NoDup pageIds →
  NoDup (push_new pageIds x)
  ∧ pageIds `prefix_of` push_new pageIds x
  ∧ x ∈ push_new pageIds x
  ∧ (∀ y, y ∈ push_new pageIds x → y ∈ pageIds ∨ y = x).
Proof.
  intros Hnd. unfold push_new, Js.includes. case_bool_decide as Hin.
  - repeat split; [done..|]. intros y Hy. by left.
  - repeat split.
    + apply NoDup_app. repeat split; [done| |apply NoDup_singleton].
      intros y Hy ->%list_elem_of_singleton. done.
    + by apply prefix_app_r.
    + apply elem_of_app. right. by left.
    + intros y [Hy| ->%list_elem_of_singleton]%elem_of_app; [by left | by right].
Qed.

(** What a hyperlink adds: the hyphenated form of the 32 hexadecimal
    characters the decoded URL ends with, then the first identifier of the
    shape 8-4-4-4-12 in it, each unless present already. *)
Definition url_identifiers (decodedUrl : string) : list string :=
  match Js.match_trailing_hex32 decodedUrl with
  | Some i => [format_uuid i]
  | None => []
  end
  ++ match Js.match_uuid decodedUrl with
     | Some u => [u]
     | None => []
     end.

Lemma extractFromUrl_spec pageIds url :
  NoDup pageIds →
  match Js.decodeURIComponent url with
  | None => extractFromUrl pageIds url = Throw URIError
  | Some decodedUrl =>
      ∃ pageIds',
        extractFromUrl pageIds url = Ret pageIds'
        ∧ NoDup pageIds'
        ∧ pageIds `prefix_of` pageIds'
        ∧ (∀ y, y ∈ pageIds' ↔ y ∈ pageIds ∨ y ∈ url_identifiers decodedUrl)
  end.
Proof.
  intros Hnd. unfold extractFromUrl, url_identifiers.
  destruct (Js.decodeURIComponent url) as [decodedUrl|]; [|done].
  eexists. split; [done|].
  destruct (Js.match_trailing_hex32 decodedUrl) as [i|];
    destruct (Js.match_uuid decodedUrl) as [u|]; simpl.
  - destruct (push_new_spec pageIds (format_uuid i) Hnd) as (Hnd1 & Hp1 & Hx1 & Hy1).
    destruct (push_new_spec _ u Hnd1) as (Hnd2 & Hp2 & Hx2 & Hy2).
    split; [done|]. split; [by etransitivity|]. intros y. split.
    + intros [Hy| ->]%Hy2; [|set_solver]. apply Hy1 in Hy as [Hy| ->]; set_solver.
    + intros [Hy|[->|[->|[]%elem_of_nil]%elem_of_cons]%elem_of_cons]; [|by eapply elem_of_prefix|done].
      eapply elem_of_prefix; [|done]. by eapply elem_of_prefix.
  - destruct (push_new_spec pageIds (format_uuid i) Hnd) as (Hnd1 & Hp1 & Hx1 & Hy1).
    split; [done|]. split; [done|]. intros y. split.
    + intros [Hy| ->]%Hy1; set_solver.
    + intros [Hy|[->|[]%elem_of_nil]%elem_of_cons]; [by eapply elem_of_prefix | done].
  - destruct (push_new_spec pageIds u Hnd) as (Hnd1 & Hp1 & Hx1 & Hy1).
    split; [done|]. split; [done|]. intros y. split.
    + intros [Hy| ->]%Hy1; set_solver.
    + intros [Hy|[->|[]%elem_of_nil]%elem_of_cons]; [by eapply elem_of_prefix | done].
  - split; [done|]. split; [done|]. intros y. split; [by left|].
    by intros [Hy|[]%elem_of_nil].
Qed.

(** Extraction returns only lists without repetition, each step adding at
    the end. *)
Lemma extractFromUrl_NoDup pageIds url pageIds' :
  NoDup pageIds → extractFromUrl pageIds url = Ret pageIds' →
  NoDup pageIds' ∧ pageIds `prefix_of` pageIds'.
Proof.
  intros Hnd H. pose proof (extractFromUrl_spec pageIds url Hnd) as Hs.
  destruct (Js.decodeURIComponent url); [|congruence].
  destruct Hs as (ids & Hids & Hnd' & Hp & _).
  rewrite H in Hids. inversion Hids; subst. done.
Qed.

Lemma when_truthy_NoDup x pageIds pageIds' :
  NoDup pageIds →
  when_truthy x (λ u p, extractFromUrl p u) pageIds = Ret pageIds' →
  NoDup pageIds' ∧ pageIds `prefix_of` pageIds'.
Proof.
  intros Hnd. unfold when_truthy. destruct x as [s|]; [|by intros [= <-]].
  destruct (Js.truthy (Some s)); [|by intros [= <-]].
  by apply extractFromUrl_NoDup.
Qed.

Lemma processRichText_NoDup runs pageIds pageIds' :
  NoDup pageIds → processRichText runs pageIds = Ret pageIds' →
  NoDup pageIds' ∧ pageIds `prefix_of` pageIds'.
Proof.
  revert pageIds. induction runs as [|rt rest IH]; intros pageIds Hnd; simpl.
  { by intros [= <-]. }
  intros H. apply bind_Ret_inv in H as (ids1 & H1 & H).
  apply bind_Ret_inv in H as (ids2 & H2 & H).
  destruct (when_truthy_NoDup _ _ _ Hnd H1) as [Hnd1 Hp1].
  destruct (when_truthy_NoDup _ _ _ Hnd1 H2) as [Hnd2 Hp2].
  destruct (IH _ Hnd2 H) as [Hnd3 Hp3].
  split; [done|]. by do 2 (etransitivity; [eassumption|]).
Qed.

Lemma extractBlock_NoDup block pageIds pageIds' :
  NoDup pageIds → extractBlock block pageIds = Ret pageIds' →
  NoDup pageIds' ∧ pageIds `prefix_of` pageIds'.
Proof.
  intros Hnd. unfold extractBlock.
  destruct (String.eqb (block_type block) "child_page").
  { intros [= <-]. by destruct (push_new_spec pageIds (block_id block) Hnd) as (? & ? & _). }
  destruct (String.eqb (block_type block) "child_database"); [by intros [= <-]|].
  destruct (String.eqb (block_type block) "link_to_page").
  { destruct (link_to_page_id block) as [linkedId|]; [|by intros [= <-]].
    destruct (Js.truthy (Some linkedId)); intros [= <-]; [|done].
    by destruct (push_new_spec pageIds linkedId Hnd) as (? & ? & _). }
  destruct (block_rich_text block) as [rts|]; [|by intros [= <-]].
  by apply processRichText_NoDup.
Qed.

Lemma extractBlocks_NoDup blocks pageIds pageIds' :
  NoDup pageIds → extractBlocks blocks pageIds = Ret pageIds' →
  NoDup pageIds' ∧ pageIds `prefix_of` pageIds'.
Proof.
  revert pageIds. induction blocks as [|block rest IH]; intros pageIds Hnd; simpl.
  { by intros [= <-]. }
  intros H. apply bind_Ret_inv in H as (ids1 & H1 & H).
  destruct (extractBlock_NoDup _ _ _ Hnd H1) as [Hnd1 Hp1].
  destruct (IH _ Hnd1 H) as [Hnd2 Hp2]. split; [done | by etransitivity].
Qed.

(** Whenever link extraction returns, what it returns has no repetition;
    a child page contributes its identifier, a link to a page the page it
    refers to, a child database nothing. *)
Lemma extractPageLinks_returns blocks pageIds :
  extractPageLinks blocks = Ret pageIds →
  NoDup pageIds
  ∧ (∀ block, block ∈ blocks → block_type block = "child_page" →
       block_id block ∈ pageIds)
  ∧ (∀ block linkedId, block ∈ blocks → block_type block = "link_to_page" →
       link_to_page_id block = Some linkedId → linkedId ≠ "" → linkedId ∈ pageIds)
  ∧ (∀ block ids, block_type block = "child_database" → extractBlock block ids = Ret ids).
Proof.
  unfold extractPageLinks. intros H.
  split; [by destruct (extractBlocks_NoDup blocks [] pageIds (NoDup_nil_2) H)|].
  assert (Hgen : ∀ blocks ids ids', NoDup ids → extractBlocks blocks ids = Ret ids' →
            ∀ block, block ∈ blocks →
              (block_type block = "child_page" → block_id block ∈ ids')
              ∧ (∀ linkedId, block_type block = "link_to_page" →
                   link_to_page_id block = Some linkedId → linkedId ≠ "" →
                   linkedId ∈ ids')).
  { clear. induction blocks as [|b rest IH]; intros ids ids' Hnd Hrun block Hin.
    { by apply elem_of_nil in Hin. }
    simpl in Hrun. apply bind_Ret_inv in Hrun as (ids1 & H1 & Hrest).
    destruct (extractBlock_NoDup _ _ _ Hnd H1) as [Hnd1 Hp1].
    destruct (extractBlocks_NoDup _ _ _ Hnd1 Hrest) as [_ Hp2].
    apply elem_of_cons in Hin as [->|Hin]; [|by eapply IH].
    split.
    - intros Ht. unfold extractBlock in H1. rewrite Ht in H1. simpl in H1.
      inversion H1; subst. eapply elem_of_prefix; [|done].
      by destruct (push_new_spec ids (block_id b) Hnd) as (_ & _ & ? & _).
    - intros linkedId Ht Hl Hne. unfold extractBlock in H1.
      rewrite Ht, Hl in H1. simpl in H1.
      assert (Htr : negb (String.eqb linkedId "") = true).
      { apply negb_true_iff. by apply String.eqb_neq. }
      rewrite Htr in H1. inversion H1; subst. eapply elem_of_prefix; [|done].
      by destruct (push_new_spec ids linkedId Hnd) as (_ & _ & ? & _). }
  split; [|split].
  - intros block Hin. by apply (Hgen blocks [] pageIds (NoDup_nil_2) H block Hin).
  - intros block linkedId Hin. by apply (Hgen blocks [] pageIds (NoDup_nil_2) H block Hin).
  - intros block ids Ht. unfold extractBlock. by rewrite Ht.
Qed.

Lemma when_truthy_decodes x pageIds :
  NoDup pageIds →
  (∀ u, x = Some u → is_Some (Js.decodeURIComponent u)) →
  ∃ pageIds', when_truthy x (λ u p, extractFromUrl p u) pageIds = Ret pageIds'.
Proof.
  intros Hnd Hx. unfold when_truthy. destruct x as [u|]; [|by eexists].
  destruct (Js.truthy (Some u)); [|by eexists].
  pose proof (extractFromUrl_spec pageIds u Hnd) as Hs.
  destruct (Hx u eq_refl) as [v Hv]. rewrite Hv in Hs.
  destruct Hs as (ids & Hids & _). by exists ids.
Qed.

Lemma processRichText_decodes runs pageIds :
  NoDup pageIds → Forall decodable_run runs →
  ∃ pageIds', processRichText runs pageIds = Ret pageIds'.
Proof.
  intros Hnd Hruns. revert pageIds Hnd.
  induction Hruns as [|rt rest [Hl Hh] _ IH]; intros pageIds Hnd; simpl; [by eexists|].
  destruct (when_truthy_decodes (link_url rt) pageIds Hnd Hl) as [ids1 H1].
  rewrite H1. simpl.
  destruct (when_truthy_NoDup _ _ _ Hnd H1) as [Hnd1 _].
  destruct (when_truthy_decodes (href rt) ids1 Hnd1 Hh) as [ids2 H2].
  rewrite H2. simpl.
  destruct (when_truthy_NoDup _ _ _ Hnd1 H2) as [Hnd2 _].
  by apply IH.
Qed.

(** Link extraction returns whenever the hyperlinks decode. *)
Lemma extractPageLinks_decodable blocks :
  decodable blocks → ∃ pageIds, extractPageLinks blocks = Ret pageIds.
Proof.
  unfold extractPageLinks. generalize (@nil string) (@NoDup_nil_2 string).
  intros pageIds Hnd Hd. revert pageIds Hnd.
  induction Hd as [|block rest Hb _ IH]; intros pageIds Hnd; simpl; [by eexists|].
  assert (Hstep : ∃ ids1, extractBlock block pageIds = Ret ids1).
  { unfold extractBlock.
    destruct (String.eqb (block_type block) "child_page"); [by eexists|].
    destruct (String.eqb (block_type block) "child_database"); [by eexists|].
    destruct (String.eqb (block_type block) "link_to_page").
    { destruct (link_to_page_id block) as [l|]; [|by eexists].
      destruct (Js.truthy (Some l)); by eexists. }
    destruct (block_rich_text block) as [rts|]; [|by eexists].
    by apply processRichText_decodes. }
  destruct Hstep as [ids1 H1]. rewrite H1. simpl.
  destruct (extractBlock_NoDup _ _ _ Hnd H1) as [Hnd1 _]. by apply IH.
Qed.

(** The example of the specification: a child page, a link to a page and
    a hyperlink ending in 32 hexadecimal characters give the three
    identifiers, each once, also when the hyperlink is listed twice. *)
Example extractPageLinks_index_example :
  extractPageLinks Scenario.index_blocks
  = Ret ["B1"; "P2"; "01234567-89ab-cdef-0123-456789ABCDEF"]
  ∧ extractPageLinks (Scenario.index_blocks ++ Scenario.index_blocks)
    = Ret ["B1"; "P2"; "01234567-89ab-cdef-0123-456789ABCDEF"].
Proof. split; vm_compute; reflexivity. Qed.

(** A hyperlink that holds an identifier in both forms contributes both. *)
Example extractPageLinks_both_forms :
  extractPageLinks
    [Scenario.paragraph "blk-p"
       [Scenario.linked "Title"
          ("https://host/11111111-2222-3333-4444-555555555555/Title-" +:+ Scenario.hex32)]]
  = Ret ["01234567-89ab-cdef-0123-456789ABCDEF"; "11111111-2222-3333-4444-555555555555"].
Proof. vm_compute. reflexivity. Qed.

(** C5. Link extraction on an index page one of whose hyperlinks is not
    a well-formed percent-encoding of UTF-8: decoding the URL raises, no
    sequence is returned, and the cycle ends there, before the configured
    pages are looked at and without a state being written. *)
Theorem C5_malformed_link_aborts_extraction :
  Js.decodeURIComponent "https://example.com/caf%E9" = None
  ∧ extractPageLinks [Scenario.child_page "page-1"; Scenario.legacy_link] = Throw URIError
  ∧ pollNotionComments 3 Scenario.legacy_index
      (Scenario.config (Some "index") ["page-1"]) (Some "bot-1") 1000 None
    = Throw URIError
  ∧ doPoll 3 Scenario.legacy_index
      (Scenario.config (Some "index") ["page-1"]) (Some "bot-1") 1000 None
    = Some (None, []).
Proof. repeat split; vm_compute; reflexivity. Qed.

(** ** A cycle over the example page (C1) *)

Lemma C1_witness :
  responses
    [Respond (buildPrompt "Please clarify this metric." (Some "Q3 report") None)
       "Understood.";
     Post "d-0" "Understood." true;
     Respond (buildPrompt "Why?" (Some "Q3 report") (Some "Revenue grew 12%"))
       "Understood.";
     Post "d-1" "Understood." true;
     Respond (buildPrompt "Remove this line?" (Some "Q3 report") None)
       "Understood.";
     Post "d-2" "Understood." true]
  = posts
    [Respond (buildPrompt "Please clarify this metric." (Some "Q3 report") None)
       "Understood.";
     Post "d-0" "Understood." true;
     Respond (buildPrompt "Why?" (Some "Q3 report") (Some "Revenue grew 12%"))
       "Understood.";
     Post "d-1" "Understood." true;
     Respond (buildPrompt "Remove this line?" (Some "Q3 report") None)
       "Understood.";
     Post "d-2" "Understood." true]
  ∧ (posts_to "d-1"
       [Respond (buildPrompt "Please clarify this metric." (Some "Q3 report") None)
          "Understood.";
        Post "d-0" "Understood." true;
        Respond (buildPrompt "Why?" (Some "Q3 report") (Some "Revenue grew 12%"))
          "Understood.";
        Post "d-1" "Understood." true;
        Respond (buildPrompt "Remove this line?" (Some "Q3 report") None)
          "Understood.";
        Post "d-2" "Understood." true] ≤ 1)%nat.
Proof.
  destruct (C1_latest_comment_drives_thread Scenario.report
              (Scenario.config None ["page-1"]) (Some "bot-1")) as (_ & _ & _ & _ & _ & Hcycle).
  apply (Hcycle 3%nat 1000 None
           (Some {| lastPollTime := 1000;
                    processedComments := {[ "page-1" := ["c-0"; "c-1"; "c-2"] ]} |})).
  - vm_compute. reflexivity.
  - intros pages Hpages. vm_compute in Hpages. inversion Hpages; subst. split.
    + apply NoDup_singleton.
    + intros p q ep eq d Hp Hq _ _ _ _.
      apply list_elem_of_singleton in Hp. apply list_elem_of_singleton in Hq.
      congruence.
Defined.

(** * Further properties of the code *)

(** ** Configuration helpers *)

Lemma firstNonEmpty_blank values :
  Forall blank values → firstNonEmpty values = "".
Proof.
  induction 1 as [|[s|] rest Hb _ IH]; simpl; [done| |done].
  simpl in Hb. by rewrite Hb.
Qed.

Lemma firstNonEmpty_app_blank before rest :
  Forall blank before → firstNonEmpty (before ++ rest) = firstNonEmpty rest.
Proof.
  induction 1 as [|[s|] before Hb _ IH]; simpl; [done| |done].
  simpl in Hb. by rewrite Hb.
Qed.

(** X1. [firstNonEmpty] gives the first argument that is neither undefined
    nor blank, trimmed, whatever comes after it; it gives the empty string
    exactly when every argument is undefined or blank. *)
Theorem X1_firstNonEmpty_takes_first values :
  (firstNonEmpty values = "" ↔ Forall blank values)
  ∧ (∀ before value after,
       values = before ++ Some value :: after →
       Forall blank before → Js.trim value ≠ "" →
       firstNonEmpty values = Js.trim value).
Proof.
  split; [split|].
  - induction values as [|[s|] rest IH]; simpl; [by constructor| |].
    + destruct (String.eqb (Js.trim s) "") eqn:Hs.
      * apply String.eqb_eq in Hs. intros H. constructor; [done | by apply IH].
      * apply String.eqb_neq in Hs. done.
    + intros H. constructor; [done | by apply IH].
  - apply firstNonEmpty_blank.
  - intros before value after -> Hb Hv.
    rewrite firstNonEmpty_app_blank by done. simpl.
    apply String.eqb_neq in Hv. by rewrite Hv.
Qed.

Lemma chars_text l : Js.chars (Js.text l) = l.
Proof. apply list_ascii_of_string_of_list_ascii. Qed.

Lemma text_chars s : Js.text (Js.chars s) = s.
Proof. apply string_of_list_ascii_of_string. Qed.

Lemma chars_app s1 s2 : Js.chars (s1 +:+ s2) = Js.chars s1 ++ Js.chars s2.
Proof.
  unfold Js.chars. induction s1 as [|c s1 IH]; simpl; [done|]. by rewrite IH.
Qed.

Lemma text_app l1 l2 : Js.text (l1 ++ l2) = Js.text l1 +:+ Js.text l2.
Proof.
  unfold Js.text. induction l1 as [|c l1 IH]; simpl; [done|]. by rewrite IH.
Qed.

Lemma rev_reverse {A} (l : list A) : rev l = reverse l.
Proof. unfold reverse. by rewrite <- rev_alt. Qed.

Lemma drop_slashes_spec l :
  ∃ n, l = replicate n "/"%char ++ drop_slashes l
       ∧ head (drop_slashes l) ≠ Some "/"%char.
Proof.
  induction l as [|c l (n & Hl & Hh)]; simpl.
  - by exists 0%nat.
  - case_bool_decide as Hc.
    + subst. exists (S n). simpl. split; [by f_equal | done].
    + exists 0%nat. simpl. split; [done|]. congruence.
Qed.

Lemma drop_slashes_fixed l : head l ≠ Some "/"%char → drop_slashes l = l.
Proof.
  destruct l as [|c l]; simpl; [done|]. intros Hc.
  rewrite bool_decide_eq_false_2; [done|]. congruence.
Qed.

(** X2. [normalizeBaseUrl] removes the slashes a base URL ends with and
    nothing else: the URL is the result followed by slashes, the result
    does not end with a slash, and normalising again changes nothing. *)
Theorem X2_normalizeBaseUrl_strips_trailing_slashes baseUrl :
  (∃ n, baseUrl = normalizeBaseUrl baseUrl +:+ Js.text (replicate n "/"%char))
  ∧ last (Js.chars (normalizeBaseUrl baseUrl)) ≠ Some "/"%char
  ∧ normalizeBaseUrl (normalizeBaseUrl baseUrl) = normalizeBaseUrl baseUrl.
Proof.
  unfold normalizeBaseUrl.
  destruct (drop_slashes_spec (rev (Js.chars baseUrl))) as (n & Hl & Hh).
  assert (Hlast : last (rev (drop_slashes (rev (Js.chars baseUrl)))) ≠ Some "/"%char).
  { rewrite rev_reverse, last_reverse. done. }
  split; [|split].
  - exists n. rewrite <- text_app, <- (text_chars baseUrl) at 1. f_equal.
    rewrite <- (rev_involutive (Js.chars baseUrl)) at 1. rewrite Hl at 1.
    rewrite rev_app_distr. f_equal.
    by rewrite rev_reverse, reverse_replicate.
  - by rewrite chars_text.
  - rewrite chars_text, rev_involutive. by rewrite drop_slashes_fixed.
Qed.

(** ** The dispatcher *)

Lemma callChatCompletions_request notion baseUrl apiKey model systemPrompt prompt :
  callChatCompletions notion baseUrl apiKey model systemPrompt prompt
  = match chat_completions notion (chat_request baseUrl apiKey model systemPrompt prompt) with
    | Json content => Some (reply_of content)
    | _ => None
    end.
Proof. unfold callChatCompletions, chat_request, reply_of. by destruct (chat_completions _ _). Qed.

Lemma reply_of_not_empty content : reply_of content ≠ "".
Proof.
  unfold reply_of, Js.or_else.
  destruct content as [s|]; simpl; [|done].
  destruct (String.eqb s "") eqn:Hs; simpl; [done|].
  rewrite Hs. by apply String.eqb_neq.
Qed.

Lemma callAI_not_empty notion config prompt text :
  callAI notion config prompt = Some text → text ≠ "".
Proof.
  assert (Hext : ∀ t, callExternal notion config prompt = Some t → t ≠ "").
  { intros t. unfold callExternal.
    destruct (String.eqb (externalApiKey notion config) ""); [by intros [= <-]|].
    rewrite callChatCompletions_request.
    destruct (chat_completions _ _); try done. intros [= <-]. apply reply_of_not_empty. }
  unfold callAI. destruct (useGateway config); [|apply Hext].
  rewrite callChatCompletions_request.
  destruct (chat_completions _ _); try (destruct (String.eqb _ _); [by intros [= <-] | apply Hext]).
  intros [= <-]. apply reply_of_not_empty.
Qed.

(** X3. The dispatcher always has something to post: whatever the
    comment, the configuration and the behaviour of the endpoints, the
    reply it returns is not the empty string (an answer without content
    is replaced by an apology). *)
Theorem X3_reply_is_never_empty notion config commentText pageTitle quote :
  processCommentWithAgent notion config commentText pageTitle quote ≠ ""
  ∧ Js.truthy (Some (processCommentWithAgent notion config commentText pageTitle quote))
    = true.
Proof.
  assert (Hreply : processCommentWithAgent notion config commentText pageTitle quote ≠ "").
  { unfold processCommentWithAgent.
    destruct (callAI notion config _) as [text|] eqn:Hcall; [|done].
    by apply callAI_not_empty in Hcall. }
  split; [done|]. simpl. by apply negb_true_iff, String.eqb_neq.
Qed.

(** X4. Routing in [callAI]. An answer of the local gateway is the reply,
    whatever the external endpoint would have said. The external endpoint
    decides only when the gateway is switched off or gave no answer and an
    external key is set; without a key the result is the apology of the
    case, and no model named [openclaw:...] is ever sent outside. *)
Theorem X4_callAI_routing notion config prompt :
  (∀ content,
     useGateway config = true →
     chat_completions notion (gateway_request notion config prompt) = Json content →
     callAI notion config prompt = Some (reply_of content))
  ∧ (useGateway config = false
     ∨ (∀ content,
          chat_completions notion (gateway_request notion config prompt) ≠ Json content) →
     (externalApiKey notion config ≠ "" →
      callAI notion config prompt
      = match chat_completions notion (external_request notion config prompt) with
        | Json content => Some (reply_of content)
        | _ => None
        end)
     ∧ (externalApiKey notion config = "" →
        callAI notion config prompt
        = Some (if useGateway config then apology_gateway_down
                else apology_not_configured)))
  ∧ Js.startsWith (externalModel config) "openclaw:" = false
  ∧ Js.startsWith (req_model (external_request notion config prompt)) "openclaw:" = false.
Proof.
  assert (Hext : externalApiKey notion config ≠ "" →
            callExternal notion config prompt
            = match chat_completions notion (external_request notion config prompt) with
              | Json content => Some (reply_of content)
              | _ => None
              end).
  { intros Hk. unfold callExternal. apply String.eqb_neq in Hk. rewrite Hk.
    by rewrite callChatCompletions_request. }
  assert (Hgw : callChatCompletions notion
                  (Js.or_else (gatewayBaseUrl config) "http://127.0.0.1:18789/v1")
                  (firstNonEmpty [gatewayApiKey config;
                                  Some (getEnv notion (gatewayApiKeyEnv config))])
                  (gatewayModel config)
                  (Js.or_else (systemPrompt config) default_system_prompt) prompt
                = match chat_completions notion (gateway_request notion config prompt) with
                  | Json content => Some (reply_of content)
                  | _ => None
                  end).
  { by rewrite callChatCompletions_request. }
  assert (Hmodel : Js.startsWith (externalModel config) "openclaw:" = false).
  { unfold externalModel. destruct (aiModel config) as [m|]; [|done].
    destruct (Js.truthy (Some m)); [|done]. simpl.
    destruct (Js.startsWith m "openclaw:") eqn:Hm; [done | by simpl]. }
  split; [|split; [|split]]; [| |done..].
  - intros content Hon Hanswer. unfold callAI. rewrite Hon, Hgw. by rewrite Hanswer.
  - intros Hoff. split.
    + intros Hk. unfold callAI. destruct Hoff as [->|Hfail]; [by apply Hext|].
      destruct (useGateway config); [|by apply Hext]. rewrite Hgw.
      destruct (chat_completions notion (gateway_request notion config prompt))
        as [| | |content] eqn:Hr;
        try (apply String.eqb_neq in Hk as Hk'; rewrite Hk'; by apply Hext).
      exfalso. by eapply Hfail.
    + intros Hk. apply String.eqb_eq in Hk. unfold callAI, callExternal.
      destruct Hoff as [->|Hfail]; [by rewrite Hk|].
      destruct (useGateway config); [|by rewrite Hk]. rewrite Hgw.
      destruct (chat_completions notion (gateway_request notion config prompt))
        as [| | |content] eqn:Hr; try by rewrite Hk.
      exfalso. by eapply Hfail.
Qed.

Lemma find_title properties titleProp :
  List.find (λ p, String.eqb (prop_type p) "title") properties = Some titleProp →
  ∃ before after,
    properties = before ++ titleProp :: after
    ∧ prop_type titleProp = "title"
    ∧ Forall (λ p, prop_type p ≠ "title") before.
Proof.
  induction properties as [|p rest IH]; simpl; [done|].
  destruct (String.eqb (prop_type p) "title") eqn:Hp.
  - intros [= ->]. exists [], rest. apply String.eqb_eq in Hp. by repeat split.
  - intros (before & after & -> & Ht & Hb)%IH. exists (p :: before), after.
    apply String.eqb_neq in Hp. repeat split; [done|]. by constructor.
Qed.

(** X5. [getPageTitle] gives a title only if the page could be retrieved;
    the title is then the joined plain text of the first property of type
    [title], and it is never empty: an empty title, a missing title
    property and a failed retrieval all give no title. *)
Theorem X5_getPageTitle_first_title_property notion pageId :
  (∀ title,
     getPageTitle notion pageId = Some title →
     title ≠ ""
     ∧ ∃ before titleProp after runs,
         pages_retrieve notion pageId = Resolved (before ++ titleProp :: after)
         ∧ Forall (λ p, prop_type p ≠ "title") before
         ∧ prop_type titleProp = "title"
         ∧ prop_title titleProp = Some runs
         ∧ title = Js.join (map plain_text runs))
  ∧ (∀ message, pages_retrieve notion pageId = Rejected message →
                getPageTitle notion pageId = None)
  ∧ (∀ properties,
       pages_retrieve notion pageId = Resolved properties →
       Forall (λ p, prop_type p ≠ "title") properties →
       getPageTitle notion pageId = None).
Proof.
  unfold getPageTitle. split; [|split].
  - intros title. destruct (pages_retrieve notion pageId) as [properties|]; [|done].
    destruct (List.find _ properties) as [titleProp|] eqn:Hfind; [|done].
    destruct (prop_title titleProp) as [runs|] eqn:Hruns; [|done].
    unfold Js.or_undefined.
    destruct (String.eqb (Js.join (map plain_text runs)) "") eqn:He; [done|].
    intros [= <-]. split; [by apply String.eqb_neq|].
    apply find_title in Hfind as (before & after & -> & Ht & Hb).
    by exists before, titleProp, after, runs.
  - by intros message ->.
  - intros properties -> Hnone.
    destruct (List.find _ properties) as [titleProp|] eqn:Hfind; [|done].
    apply find_title in Hfind as (before & after & -> & Ht & _).
    apply Forall_app in Hnone as [_ Hnone]. by apply Forall_cons in Hnone as [? _].
Qed.

(** ** Fetching and aggregation *)

Lemma getCommentsForBlock_rejected fuel notion blockId message :
  (0 < fuel)%nat →
  comments_list notion blockId None = Rejected message →
  getCommentsForBlock fuel notion blockId = Ret [].
Proof.
  intros Hfuel Hrej. destruct fuel as [|fuel]; [lia|].
  unfold getCommentsForBlock. simpl. by rewrite Hrej.
Qed.

Lemma inlineComments_without fuel notion before block after results :
  commentable block = false
  ∨ getCommentsForBlock fuel notion (block_id block) = Ret [] →
  inlineComments fuel notion (before ++ block :: after) results
  = inlineComments fuel notion (before ++ after) results.
Proof.
  intros Hnothing. revert results.
  induction before as [|b before IH]; intros results; simpl.
  - destruct (commentable block); [|done].
    destruct Hnothing as [|Hnone]; [done|]. rewrite Hnone. simpl. by rewrite app_nil_r.
  - destruct (commentable b); [|apply IH].
    destruct (getCommentsForBlock fuel notion (block_id b)); simpl; [apply IH | done..].
Qed.

(** X6. Failures are isolated per block. A block whose comments cannot be
    listed, and a block of a kind that carries no comments (child page,
    child database, unsupported), count for nothing in the aggregation:
    the result is the one for the page without that block, so the comments
    of the other blocks are all there; the comments of a block of such a
    kind are not even asked for. *)
Theorem X6_block_failure_is_isolated fuel notion before block after results :
  (∀ message,
     (0 < fuel)%nat →
     comments_list notion (block_id block) None = Rejected message →
     inlineComments fuel notion (before ++ block :: after) results
     = inlineComments fuel notion (before ++ after) results)
  ∧ (block_type block ∈ ["child_page"; "child_database"; "unsupported"] →
     inlineComments fuel notion (before ++ block :: after) results
     = inlineComments fuel notion (before ++ after) results).
Proof.
  split.
  - intros message Hfuel Hrej. apply inlineComments_without. right.
    by eapply getCommentsForBlock_rejected.
  - intros Hkind. apply inlineComments_without. left.
    unfold commentable, Js.includes. by rewrite bool_decide_eq_true_2.
Qed.

(** X7. Pagination. When every request resolves, a fetcher returns the
    results of all rounds in the order received. The loop ends at the
    first answer that announces nothing more: [has_more] false, or no
    cursor, or an empty cursor even though [has_more] is set, in which
    case what the service still holds is not asked for. *)
Theorem X7_pagination_collects_all_rounds fuel notion blockId :
  (∀ rs c r,
     rounds (comments_list notion blockId) None rs c →
     comments_list notion blockId c = Resolved r →
     has_more r = false ∨ next_cursor r = None ∨ next_cursor r = Some "" →
     (length rs < fuel)%nat →
     getCommentsForBlock fuel notion blockId = Ret (gathered rs ++ results r))
  ∧ (∀ rs c r,
       rounds (blocks_children_list notion blockId) None rs c →
       blocks_children_list notion blockId c = Resolved r →
       has_more r = false ∨ next_cursor r = None ∨ next_cursor r = Some "" →
       (length rs < fuel)%nat →
       getPageBlocks fuel notion blockId = Ret (gathered rs ++ results r)).
Proof.
  assert (Hend : ∀ A (r : ListResponse A),
            has_more r = false ∨ next_cursor r = None ∨ next_cursor r = Some "" →
            Js.truthy (following r) = false).
  { intros A r. unfold following. destruct (has_more r); [|done].
    intros [|[->| ->]]; done. }
  split; intros rs c r Hrs Hcall Hlast Hfuel;
    (eapply listAll_complete; [exact Hrs | exact Hcall | by apply Hend | done]).
Qed.

Lemma X7_witness :
  getCommentsForBlock 2 Scenario.report "blk-1" = Ret ([] ++ [Scenario.inline_question]).
Proof.
  destruct (X7_pagination_collects_all_rounds 2 Scenario.report "blk-1") as [Hc _].
  apply (Hc [] None
           {| results := [Scenario.inline_question]; has_more := false;
              next_cursor := None |}).
  - apply rounds_nil.
  - reflexivity.
  - by left.
  - simpl. lia.
Defined.

(** ** Threads *)

Lemma first_seen_snoc xs x : first_seen (xs ++ [x]) = push_new (first_seen xs) x.
Proof. unfold first_seen. by rewrite fold_left_app. Qed.

Lemma groupByDiscussion_keys_first_seen l :
  (groupByDiscussion l).*1 = first_seen (map discussion_id l).
Proof.
  induction l as [|c l IH] using rev_ind; [done|].
  rewrite groupByDiscussion_snoc, group_push_keys, map_app. cbn [map].
  rewrite first_seen_snoc, <- IH.
  unfold push_new, Js.includes. by case_bool_decide; case_decide.
Qed.

Lemma group_push_concat k c g :
  concat (group_push k c g).*2 ≡ₚ concat g.*2 ++ [c].
Proof.
  induction g as [|[k' cs] g IH]; simpl; [done|].
  destruct (String.eqb k' k); simpl.
  - rewrite <- !app_assoc. f_equiv. apply Permutation_app_comm.
  - rewrite IH. by rewrite app_assoc.
Qed.

(** X8. Grouping by discussion loses and invents nothing: the keys are
    the discussion identifiers in the order they are first seen, each
    once; the group of a key holds exactly the comments of that
    discussion, in the order fetched, and is never empty; together the
    groups are a rearrangement of the comments. *)
Theorem X8_groupByDiscussion_partitions comments :
  (groupByDiscussion comments).*1 = first_seen (map discussion_id comments)
  ∧ NoDup (groupByDiscussion comments).*1
  ∧ (∀ d, d ∈ (groupByDiscussion comments).*1 ↔ ∃ c, c ∈ comments ∧ discussion_id c = d)
  ∧ (∀ d cs, (d, cs) ∈ groupByDiscussion comments →
       cs ≠ [] ∧ cs = filter (λ c, discussion_id c = d) comments)
  ∧ concat (groupByDiscussion comments).*2 ≡ₚ comments.
Proof.
  destruct (groupByDiscussion_grouped comments) as (Hnd & Hg & Hall).
  split; [apply groupByDiscussion_keys_first_seen|]. split; [done|].
  split; [|split; [done|]].
  - intros d. split.
    + intros ([k cs] & -> & Hin)%list_elem_of_fmap. destruct (Hg _ _ Hin) as [Hne Hcs].
      destruct cs as [|c cs]; [done|]. exists c.
      assert (Hc : c ∈ filter (λ c0, discussion_id c0 = k) comments).
      { rewrite <- Hcs. by left. }
      by apply list_elem_of_filter in Hc as [? ?].
    + intros (c & Hc & <-). by apply Hall.
  - induction comments as [|c l IH] using rev_ind; [done|].
    rewrite groupByDiscussion_snoc, group_push_concat.
    f_equiv. apply IH; apply groupByDiscussion_grouped.
Qed.

Lemma NoDup_fmap_eq {A B} (f : A → B) (l : list A) x y :
  NoDup (map f l) → x ∈ l → y ∈ l → f x = f y → x = y.
Proof.
  intros Hnd [i Hi]%list_elem_of_lookup [j Hj]%list_elem_of_lookup Hf.
  assert (i = j) as ->; [|congruence].
  eapply NoDup_lookup; [exact Hnd| |].
  - change (map f l) with (f <$> l). by rewrite list_lookup_fmap, Hi.
  - change (map f l) with (f <$> l). rewrite list_lookup_fmap, Hj. simpl. by rewrite Hf.
Qed.

Lemma is_latest_max c l :
  is_latest c l → c ∈ l ∧ ∀ d, d ∈ l → created_time d ≤ created_time c.
Proof.
  intros (l1 & l2 & -> & H1 & H2). split.
  - apply elem_of_app. right. by left.
  - intros d [Hd|[->|Hd]%elem_of_cons]%elem_of_app; [|done|].
    + rewrite Forall_forall in H1. by apply H1.
    + rewrite Forall_forall in H2. specialize (H2 _ Hd). simpl in H2. lia.
Qed.

(** X9. With timestamps that differ within a thread, the comment that
    drives the decision does not depend on the order in which the
    comments of the thread were fetched. *)
Theorem X9_latest_is_order_independent cs cs' :
  NoDup (map created_time cs) →
  cs ≡ₚ cs' →
  last (sort_by_time cs) = last (sort_by_time cs').
Proof.
  intros Hnd Hperm.
  destruct (decide (cs = [])) as [->|Hne].
  { by apply Permutation_nil_l in Hperm as <-. }
  assert (Hne' : cs' ≠ []).
  { intros ->. by apply Permutation_nil_r in Hperm. }
  destruct (last_sort_is_Some cs Hne) as [c Hc].
  destruct (last_sort_is_Some cs' Hne') as [c' Hc'].
  rewrite Hc, Hc'. f_equal.
  apply last_sort_is_latest, is_latest_max in Hc as [Hin Hmax].
  apply last_sort_is_latest, is_latest_max in Hc' as [Hin' Hmax'].
  rewrite <- Hperm in Hin'.
  apply (NoDup_fmap_eq created_time cs); [done..|].
  apply Z.le_antisymm; [apply Hmax'; by rewrite <- Hperm | by apply Hmax].
Qed.

Lemma X9_witness :
  last (sort_by_time [Scenario.question; Scenario.bot_reply])
  = last (sort_by_time [Scenario.bot_reply; Scenario.question]).
Proof.
  apply X9_latest_is_order_independent.
  - apply NoDup_cons. split; [|apply NoDup_singleton].
    intros Hin. apply list_elem_of_singleton in Hin. discriminate.
  - apply Permutation_swap.
Defined.

(** ** Link extraction *)

(** The hyperlinks of a run that are looked at: [text.link.url], then
    [href], each when it is set and not empty. *)
Definition run_urls (rt : RichText) : list string :=
  (if Js.truthy (link_url rt) then [default "" (link_url rt)] else [])
  ++ (if Js.truthy (href rt) then [default "" (href rt)] else []).

Fixpoint decode_all (urls : list string) : option (list string) :=
  match urls with
  | [] => Some []
  | url :: rest =>
      match Js.decodeURIComponent url, decode_all rest with
      | Some decodedUrl, Some decoded => Some (decodedUrl :: decoded)
      | _, _ => None
      end
  end.

(** What a block has to offer, before duplicates are dropped: its own
    identifier for a child page, the page referred to for a link to a
    page, nothing for a child database, and for any other block the
    identifiers found in the hyperlinks of its rich text. [None] when one
    of these hyperlinks does not decode. *)
Definition contribution (block : Block) : option (list string) :=
  if String.eqb (block_type block) "child_page" then Some [block_id block]
  else if String.eqb (block_type block) "child_database" then Some []
  else if String.eqb (block_type block) "link_to_page" then
    Some (if Js.truthy (link_to_page_id block)
          then [default "" (link_to_page_id block)] else [])
  else
    match decode_all (concat (map run_urls (default [] (block_rich_text block)))) with
    | Some decoded => Some (concat (map url_identifiers decoded))
    | None => None
    end.

Fixpoint contributions (blocks : list Block) : option (list string) :=
  match blocks with
  | [] => Some []
  | block :: rest =>
      match contribution block, contributions rest with
      | Some here, Some there => Some (here ++ there)
      | _, _ => None
      end
  end.

(** The loop over hyperlinks, as [processRichText] runs it. *)
Fixpoint extractUrls (urls : list string) (pageIds : list string) : Run (list string) :=
  match urls with
  | [] => Ret pageIds
  | url :: rest => pageIds' ← extractFromUrl pageIds url; extractUrls rest pageIds'
  end.

(** The identifier has the canonical form: 36 characters, hexadecimal
    digits in groups of 8-4-4-4-12 separated by hyphens. *)
Definition canonical (x : string) : Prop :=
  length (Js.chars x) = 36%nat ∧ Js.uuid_shape 0 (Js.chars x) = true.

Lemma extractFromUrl_fold pageIds url :
  extractFromUrl pageIds url
  = match Js.decodeURIComponent url with
    | Some decodedUrl => Ret (fold_left push_new (url_identifiers decodedUrl) pageIds)
    | None => Throw URIError
    end.
Proof.
  unfold extractFromUrl, url_identifiers.
  destruct (Js.decodeURIComponent url) as [decodedUrl|]; [|done].
  by destruct (Js.match_trailing_hex32 decodedUrl), (Js.match_uuid decodedUrl).
Qed.

Lemma extractUrls_app urls1 urls2 pageIds :
  extractUrls (urls1 ++ urls2) pageIds
  = extractUrls urls1 pageIds ≫= extractUrls urls2.
Proof.
  revert pageIds. induction urls1 as [|u urls1 IH]; intros pageIds; simpl; [done|].
  destruct (extractFromUrl pageIds u) as [ids| |]; simpl; [apply IH | done..].
Qed.

Lemma processRichText_extractUrls runs pageIds :
  processRichText runs pageIds = extractUrls (concat (map run_urls runs)) pageIds.
Proof.
  revert pageIds. induction runs as [|rt rest IH]; intros pageIds; [done|].
  cbn [processRichText map concat]. rewrite extractUrls_app.
  unfold run_urls, when_truthy.
  destruct (link_url rt) as [u|]; destruct (href rt) as [h|]; simpl;
    repeat match goal with
           | |- context [negb (String.eqb ?x "")] =>
               destruct (negb (String.eqb x "")); simpl
           end;
    repeat match goal with
           | |- context [extractFromUrl ?i ?x] =>
               destruct (extractFromUrl i x); simpl
           end;
    try done; apply IH.
Qed.

Lemma extractUrls_fold urls pageIds :
  extractUrls urls pageIds
  = match decode_all urls with
    | Some decoded =>
        Ret (fold_left push_new (concat (map url_identifiers decoded)) pageIds)
    | None => Throw URIError
    end.
Proof.
  revert pageIds. induction urls as [|u rest IH]; intros pageIds; simpl; [done|].
  rewrite extractFromUrl_fold.
  destruct (Js.decodeURIComponent u) as [d|]; simpl; [|done].
  rewrite IH. destruct (decode_all rest) as [ds|]; [|done].
  simpl. by rewrite fold_left_app.
Qed.

Lemma extractBlock_fold block pageIds :
  extractBlock block pageIds
  = match contribution block with
    | Some ids => Ret (fold_left push_new ids pageIds)
    | None => Throw URIError
    end.
Proof.
  unfold extractBlock, contribution.
  destruct (String.eqb (block_type block) "child_page"); [done|].
  destruct (String.eqb (block_type block) "child_database"); [done|].
  destruct (String.eqb (block_type block) "link_to_page").
  { destruct (link_to_page_id block) as [l|]; [|done].
    by destruct (Js.truthy (Some l)). }
  destruct (block_rich_text block) as [rts|]; simpl; [|done].
  rewrite processRichText_extractUrls, extractUrls_fold.
  by destruct (decode_all _).
Qed.

Lemma extractBlocks_fold blocks pageIds :
  extractBlocks blocks pageIds
  = match contributions blocks with
    | Some ids => Ret (fold_left push_new ids pageIds)
    | None => Throw URIError
    end.
Proof.
  revert pageIds. induction blocks as [|block rest IH]; intros pageIds; simpl; [done|].
  rewrite extractBlock_fold. destruct (contribution block) as [here|]; simpl; [|done].
  rewrite IH. destruct (contributions rest) as [there|]; [|done].
  by rewrite fold_left_app.
Qed.

(** X10. Link extraction in one formula. The result is the list of what
    the blocks have to offer, block after block and hyperlink after
    hyperlink, with every identifier kept at its first occurrence only;
    extraction raises exactly when one of the hyperlinks looked at does
    not percent-decode. *)
Theorem X10_extractPageLinks_first_occurrences blocks :
  extractPageLinks blocks
  = match contributions blocks with
    | Some ids => Ret (first_seen ids)
    | None => Throw URIError
    end.
Proof. unfold extractPageLinks, first_seen. apply extractBlocks_fold. Qed.

Lemma match_trailing_hex32_spec s i :
  Js.match_trailing_hex32 s = Some i →
  ∃ cand, i = Js.text cand ∧ length cand = 32%nat ∧ forallb Js.is_hex cand = true
          ∧ cand `suffix_of` Js.trimEndChars (Js.chars s).
Proof.
  unfold Js.match_trailing_hex32.
  set (t := Js.trimEndChars (Js.chars s)).
  destruct (32 <=? length t)%nat eqn:Hlen; [|done].
  apply Nat.leb_le in Hlen.
  destruct (forallb Js.is_hex (drop (length t - 32) t)) eqn:Hhex; [|done].
  intros [= <-]. exists (drop (length t - 32) t).
  split; [done|]. split; [rewrite length_drop; lia|]. split; [done|].
  apply suffix_drop.
Qed.

Lemma uuid_at_spec l u :
  Js.uuid_at l = Some u →
  u = take 36 l ∧ length u = 36%nat ∧ Js.uuid_shape 0 u = true.
Proof.
  unfold Js.uuid_at.
  destruct (length (take 36 l) =? 36)%nat eqn:Hlen; [|done].
  destruct (Js.uuid_shape 0 (take 36 l)) eqn:Hshape; [|done].
  intros [= <-]. apply Nat.eqb_eq in Hlen. done.
Qed.

Lemma match_uuid_chars_spec l u :
  Js.match_uuid_chars l = Some u →
  ∃ before after,
    l = before ++ u ++ after ∧ length u = 36%nat ∧ Js.uuid_shape 0 u = true
    ∧ ∀ k, (k < length before)%nat → Js.uuid_at (drop k l) = None.
Proof.
  induction l as [|c l IH]; simpl.
  - destruct (Js.uuid_at []) eqn:H; [|done]. by apply uuid_at_spec in H as (_ & ? & _).
  - destruct (Js.uuid_at (c :: l)) as [v|] eqn:Hat.
    + intros [= ->]. apply uuid_at_spec in Hat as (Hu & Hlen & Hshape).
      exists [], (drop 36 (c :: l)). split; [|split; [done|split; [done|]]].
      * rewrite Hu. cbn [app]. by rewrite take_drop.
      * intros k Hk. simpl in Hk. lia.
    + intros (before & after & -> & Hlen & Hshape & Hleft)%IH.
      exists (c :: before), after. split; [done|]. split; [done|]. split; [done|].
      intros [|k] Hk; [done|]. simpl. apply Hleft. simpl in Hk. lia.
Qed.

Lemma uuid_shape_app i a b :
  Js.uuid_shape i (a ++ b) = Js.uuid_shape i a && Js.uuid_shape (i + length a) b.
Proof.
  revert i. induction a as [|c a IH]; intros i; simpl.
  - by rewrite Nat.add_0_r.
  - rewrite IH, andb_assoc. do 2 f_equal. lia.
Qed.

Lemma uuid_shape_hex i seg :
  Forall (λ c, Js.is_hex c = true) seg →
  (∀ j, (i ≤ j < i + length seg)%nat → j ∉ [8; 13; 18; 23]%nat) →
  Js.uuid_shape i seg = true.
Proof.
  intros Hhex. revert i. induction Hhex as [|c seg Hc _ IH]; intros i Hpos; simpl; [done|].
  rewrite bool_decide_eq_false_2 by (apply Hpos; simpl; lia).
  rewrite Hc. simpl. apply IH. intros j Hj. apply Hpos. simpl. lia.
Qed.

Lemma uuid_shape_dash i rest :
  i ∈ [8; 13; 18; 23]%nat →
  Js.uuid_shape i ("-"%char :: rest) = Js.uuid_shape (S i) rest.
Proof. intros Hi. simpl. by rewrite !bool_decide_eq_true_2. Qed.

Lemma format_uuid_chars cand :
  Js.chars (format_uuid (Js.text cand))
  = take 8 cand ++ "-"%char :: take 4 (drop 8 cand) ++ "-"%char
    :: take 4 (drop 12 cand) ++ "-"%char :: take 4 (drop 16 cand) ++ "-"%char
    :: drop 20 cand.
Proof.
  unfold format_uuid, Js.slice, Js.slice_from.
  rewrite !chars_app, !chars_text. reflexivity.
Qed.

Lemma is_hex_not_dash c : Js.is_hex c = true → c ≠ "-"%char.
Proof. intros Hc ->. by vm_compute in Hc. Qed.

Lemma filter_hex seg :
  Forall (λ c, Js.is_hex c = true) seg → filter (λ c, c ≠ "-"%char) seg = seg.
Proof.
  induction 1 as [|c seg Hc _ IH]; [done|].
  rewrite filter_cons, decide_True by by apply is_hex_not_dash. by rewrite IH.
Qed.

Lemma filter_dash rest :
  filter (λ c, c ≠ "-"%char) ("-"%char :: rest) = filter (λ c, c ≠ "-"%char) rest.
Proof. rewrite filter_cons. by rewrite decide_False by (intros H; by apply H). Qed.

(** The hyphenated form of 32 hexadecimal characters is canonical, and
    taking the hyphens out gives the characters back. *)
Lemma format_uuid_canonical cand :
  length cand = 32%nat → forallb Js.is_hex cand = true →
  canonical (format_uuid (Js.text cand))
  ∧ filter (λ c, c ≠ "-"%char) (Js.chars (format_uuid (Js.text cand))) = cand.
Proof.
  intros Hlen Hhex.
  assert (Hall : Forall (λ c, Js.is_hex c = true) cand).
  { apply Forall_forall. intros c Hc. rewrite forallb_forall in Hhex.
    apply Hhex. by apply list_elem_of_In. }
  assert (Hseg : ∀ n m, Forall (λ c, Js.is_hex c = true) (take n (drop m cand))).
  { intros n m. by apply Forall_take, Forall_drop. }
  unfold canonical. rewrite format_uuid_chars. split; [split|].
  - repeat first [rewrite length_app | rewrite length_cons | rewrite length_take
                 | rewrite length_drop]. lia.
  - rewrite uuid_shape_app, length_take, Hlen.
    rewrite uuid_shape_hex; [|apply Forall_take, Hall|];
      [|intros j; rewrite length_take, Hlen; intros Hj Hin; set_unfold; lia].
    cbn [andb]. change (0 + 8 `min` 32)%nat with 8%nat.
    rewrite uuid_shape_dash by set_solver.
    rewrite uuid_shape_app, length_take, length_drop, Hlen.
    rewrite (uuid_shape_hex 9) by
      (try apply Hseg; intros j; rewrite length_take, length_drop, Hlen;
       intros Hj Hin; set_unfold; lia).
    cbn [andb]. change (9 + 4 `min` (32 - 8))%nat with 13%nat.
    rewrite uuid_shape_dash by set_solver.
    rewrite uuid_shape_app, length_take, length_drop, Hlen.
    rewrite (uuid_shape_hex 14) by
      (try apply Hseg; intros j; rewrite length_take, length_drop, Hlen;
       intros Hj Hin; set_unfold; lia).
    cbn [andb]. change (14 + 4 `min` (32 - 12))%nat with 18%nat.
    rewrite uuid_shape_dash by set_solver.
    rewrite uuid_shape_app, length_take, length_drop, Hlen.
    rewrite (uuid_shape_hex 19) by
      (try apply Hseg; intros j; rewrite length_take, length_drop, Hlen;
       intros Hj Hin; set_unfold; lia).
    cbn [andb]. change (19 + 4 `min` (32 - 16))%nat with 23%nat.
    rewrite uuid_shape_dash by set_solver.
    apply uuid_shape_hex; [by apply Forall_drop|].
    intros j. rewrite length_drop, Hlen. intros Hj Hin. set_unfold. lia.
  - repeat first [rewrite filter_app | rewrite filter_dash].
    rewrite !filter_hex by first [apply Hseg | by apply Forall_drop | by apply Forall_take].
    replace (drop 20 cand) with (drop 4 (drop 16 cand)) by (rewrite drop_drop; f_equal).
    rewrite take_drop.
    replace (drop 16 cand) with (drop 4 (drop 12 cand)) by (rewrite drop_drop; f_equal).
    rewrite take_drop.
    replace (drop 12 cand) with (drop 4 (drop 8 cand)) by (rewrite drop_drop; f_equal).
    rewrite take_drop. apply take_drop.
Qed.

Lemma fold_push_new_sublist xs pageIds :
  ∃ added, fold_left push_new xs pageIds = pageIds ++ added ∧ added `sublist_of` xs.
Proof.
  revert pageIds. induction xs as [|x xs IH]; intros pageIds; simpl.
  - exists []. by rewrite app_nil_r.
  - destruct (IH (push_new pageIds x)) as (added & -> & Hsub).
    unfold push_new. destruct (Js.includes pageIds x).
    + exists added. split; [done|]. by apply sublist_cons.
    + exists (x :: added). split; [by rewrite <- app_assoc|]. by apply sublist_skip.
Qed.

Lemma url_identifiers_canonical decodedUrl :
  (length (url_identifiers decodedUrl) ≤ 2)%nat
  ∧ Forall canonical (url_identifiers decodedUrl).
Proof.
  unfold url_identifiers.
  destruct (Js.match_trailing_hex32 decodedUrl) as [i|] eqn:Htrail;
    destruct (Js.match_uuid decodedUrl) as [u|] eqn:Huuid; simpl;
    (split; [lia|]); repeat constructor.
  all: try (apply match_trailing_hex32_spec in Htrail as (cand & -> & Hlen & Hhex & _);
            by apply format_uuid_canonical).
  all: unfold Js.match_uuid in Huuid;
    destruct (Js.match_uuid_chars (Js.chars decodedUrl)) as [v|] eqn:Hv; [|done];
    injection Huuid as <-;
    apply match_uuid_chars_spec in Hv as (_ & _ & _ & Hlen & Hshape & _);
    unfold canonical; by rewrite chars_text.
Qed.

(** X11. A hyperlink only ever appends to the identifiers collected so
    far, at most two of them, and each one appended has the canonical
    form of 36 characters: hexadecimal digits in groups of 8-4-4-4-12
    with hyphens between them. A bare run of 32 hexadecimal digits is
    brought to this form. *)
Theorem X11_hyperlink_identifiers_are_canonical pageIds url pageIds' :
  extractFromUrl pageIds url = Ret pageIds' →
  ∃ added,
    pageIds' = pageIds ++ added
    ∧ (length added ≤ 2)%nat
    ∧ Forall canonical added.
Proof.
  rewrite extractFromUrl_fold.
  destruct (Js.decodeURIComponent url) as [decodedUrl|]; [|done].
  intros [= <-].
  destruct (fold_push_new_sublist (url_identifiers decodedUrl) pageIds)
    as (added & -> & Hsub).
  destruct (url_identifiers_canonical decodedUrl) as [Hlen Hcanon].
  exists added. split; [done|]. split.
  - apply sublist_length in Hsub. lia.
  - rewrite Forall_forall in Hcanon. apply Forall_forall. intros x Hx.
    apply Hcanon. by eapply elem_of_sublist.
Qed.

Lemma X11_witness :
  ∃ added,
    ["B1"; "01234567-89ab-cdef-0123-456789ABCDEF"] = ["B1"] ++ added
    ∧ (length added ≤ 2)%nat
    ∧ Forall canonical added.
Proof.
  apply (X11_hyperlink_identifiers_are_canonical ["B1"]
           ("https://host/Title-" +:+ Scenario.hex32)).
  vm_compute. reflexivity.
Defined.

(** ** Links without escapes *)

Lemma uri_tokens_plain l :
  "%"%char ∉ l → Js.uri_tokens l = Some (map Js.Lit l).
Proof.
  induction l as [|c l IH]; [done|]. intros [Hc Hl]%not_elem_of_cons. simpl.
  rewrite bool_decide_eq_false_2 by done. by rewrite IH.
Qed.

Lemma uri_decode_plain l : Js.uri_decode (map Js.Lit l) = Some l.
Proof. induction l as [|c l IH]; [done|]. simpl. by rewrite IH. Qed.

Lemma decodeURIComponent_plain s :
  "%"%char ∉ Js.chars s → Js.decodeURIComponent s = Some s.
Proof.
  intros Hs. unfold Js.decodeURIComponent. rewrite uri_tokens_plain by done. simpl.
  rewrite uri_decode_plain. simpl. by rewrite text_chars.
Qed.

(** No hyperlink of the blocks holds a percent sign. *)
Definition percent_free (blocks : list Block) : Prop :=
  Forall (λ block,
            Forall (λ rt, Forall (λ url, "%"%char ∉ Js.chars url) (run_urls rt))
              (default [] (block_rich_text block)))
    blocks.

Lemma decode_all_plain urls :
  Forall (λ url, "%"%char ∉ Js.chars url) urls → decode_all urls = Some urls.
Proof.
  induction 1 as [|url urls Hurl _ IH]; [done|]. simpl.
  by rewrite decodeURIComponent_plain, IH.
Qed.

Lemma contributions_plain blocks :
  percent_free blocks → is_Some (contributions blocks).
Proof.
  induction 1 as [|block blocks Hb _ [there IH]]; [by eexists|]. simpl.
  assert (is_Some (contribution block)) as [here ->]; [|rewrite IH; by eexists].
  unfold contribution.
  destruct (String.eqb (block_type block) "child_page"); [by eexists|].
  destruct (String.eqb (block_type block) "child_database"); [by eexists|].
  destruct (String.eqb (block_type block) "link_to_page"); [by eexists|].
  rewrite decode_all_plain; [by eexists|].
  apply Forall_concat, Forall_fmap. done.
Qed.

(** X12. A link without a percent sign is taken as it is written, and
    an index page none of whose links holds a percent sign is always read
    to the end: the extraction returns a list, without duplicates. *)
Theorem X12_links_without_escapes_are_read blocks :
  percent_free blocks →
  (∀ block rt url,
     block ∈ blocks → rt ∈ default [] (block_rich_text block) → url ∈ run_urls rt →
     ∀ pageIds, extractFromUrl pageIds url
                = Ret (fold_left push_new (url_identifiers url) pageIds))
  ∧ ∃ pageIds, extractPageLinks blocks = Ret pageIds ∧ NoDup pageIds.
Proof.
  intros Hfree. split.
  - intros block rt url Hblock Hrt Hurl pageIds.
    rewrite extractFromUrl_fold, decodeURIComponent_plain; [done|].
    unfold percent_free in Hfree. rewrite Forall_forall in Hfree.
    specialize (Hfree block Hblock). rewrite Forall_forall in Hfree.
    specialize (Hfree rt Hrt). rewrite Forall_forall in Hfree. by apply Hfree.
  - destruct (contributions_plain blocks Hfree) as [ids Hids].
    assert (Hret : extractPageLinks blocks = Ret (first_seen ids)).
    { unfold extractPageLinks, first_seen. rewrite extractBlocks_fold. by rewrite Hids. }
    exists (first_seen ids). split; [done|].
    by apply extractPageLinks_returns in Hret as [? _].
Qed.

Lemma X12_witness :
  (∀ block rt url,
     block ∈ Scenario.index_blocks → rt ∈ default [] (block_rich_text block) →
     url ∈ run_urls rt →
     ∀ pageIds, extractFromUrl pageIds url
                = Ret (fold_left push_new (url_identifiers url) pageIds))
  ∧ ∃ pageIds, extractPageLinks Scenario.index_blocks = Ret pageIds ∧ NoDup pageIds.
Proof.
  apply (X12_links_without_escapes_are_read Scenario.index_blocks).
  unfold percent_free. by apply (bool_decide_unpack _).
Defined.

(** ** The watch list *)

Lemma getPageBlocks_unreachable fuel notion pageId message :
  blocks_children_list notion pageId None = Rejected message →
  getPageBlocks (S fuel) notion pageId = Ret [].
Proof. intros H. unfold getPageBlocks. simpl. by rewrite H. Qed.

Lemma resolveWatched_from_index fuel notion config p :
  indexPage config = Some p → p ≠ "" →
  resolveWatched fuel notion config
  = (fromIndex ← getWatchedPagesFromIndex fuel notion p;
     Ret (match fromIndex with [] => watchedPages config | _ => fromIndex end)).
Proof.
  intros Hp Hne. unfold resolveWatched. rewrite Hp.
  assert (Js.truthy (Some p) = true) as ->.
  { simpl. apply negb_true_iff. by apply String.eqb_neq. }
  destruct (getWatchedPagesFromIndex fuel notion p) as [[|i ids]| |]; simpl; try done.
  by destruct (watchedPages config).
Qed.

Lemma getWatchedPagesFromIndex_blocks fuel notion p blocks :
  getPageBlocks fuel notion p = Ret blocks → blocks ≠ [] →
  getWatchedPagesFromIndex fuel notion p = extractPageLinks blocks.
Proof.
  intros Hblocks Hsome. unfold getWatchedPagesFromIndex. rewrite Hblocks.
  by destruct blocks.
Qed.

(** X13. Where the watch list comes from. Without an index page it is
    the configured list. With one: an index page that cannot be listed,
    has no blocks or yields no link leaves the configured list; links
    found on it replace the configured list altogether, without
    duplicates; and a link that does not decode raises, the configured
    list being no rescue. *)
Theorem X13_watch_list_resolution fuel notion config :
  (Js.truthy (indexPage config) = false →
   resolveWatched fuel notion config = Ret (watchedPages config))
  ∧ (∀ p message,
       indexPage config = Some p → p ≠ "" →
       blocks_children_list notion p None = Rejected message →
       resolveWatched (S fuel) notion config = Ret (watchedPages config))
  ∧ (∀ p blocks,
       indexPage config = Some p → p ≠ "" →
       getPageBlocks fuel notion p = Ret blocks →
       match extractPageLinks blocks with
       | Ret [] => resolveWatched fuel notion config = Ret (watchedPages config)
       | Ret pageIds =>
           blocks ≠ [] ∧ NoDup pageIds
           ∧ resolveWatched fuel notion config = Ret pageIds
       | Throw e => resolveWatched fuel notion config = Throw e
       | OutOfFuel => False
       end).
Proof.
  split; [|split].
  - intros Hindex. unfold resolveWatched.
    destruct (indexPage config) as [p|]; [rewrite Hindex|]; simpl;
      by destruct (watchedPages config).
  - intros p message Hp Hne Hrej.
    rewrite (resolveWatched_from_index _ _ _ p) by done.
    unfold getWatchedPagesFromIndex.
    by rewrite (getPageBlocks_unreachable _ _ _ message).
  - intros p blocks Hp Hne Hblocks.
    rewrite (resolveWatched_from_index _ _ _ p) by done.
    destruct (decide (blocks = [])) as [->|Hsome].
    { unfold getWatchedPagesFromIndex. by rewrite Hblocks. }
    rewrite (getWatchedPagesFromIndex_blocks _ _ _ blocks) by done.
    destruct (extractPageLinks blocks) as [[|i ids]| |] eqn:Hlinks.
    + done.
    + split; [done|]. split; [|done].
      by apply extractPageLinks_returns in Hlinks as [? _].
    + done.
    + unfold extractPageLinks in Hlinks. rewrite extractBlocks_fold in Hlinks.
      by destruct (contributions blocks).
Qed.

(** ** The processed lists *)

Lemma NoDup_snoc_fresh (ids : list string) x : NoDup ids → x ∉ ids → NoDup (ids ++ [x]).
Proof.
  intros Hnd Hx. apply NoDup_app. repeat split; [done| |apply NoDup_singleton].
  by intros y Hy ->%list_elem_of_singleton.
Qed.

Lemma threadStep_NoDup notion config uid pageId quoteMap ids t :
  NoDup ids → NoDup (threadStep notion config uid pageId quoteMap ids t).1.
Proof.
  intros Hnd. unfold threadStep.
  destruct (last (sort_by_time t.2)) as [latest|]; [|done].
  unfold Js.includes. case_bool_decide as Hin; [done|].
  destruct (is_self uid latest); [by apply NoDup_snoc_fresh|].
  destruct (String.eqb _ _); [by apply NoDup_snoc_fresh|]. simpl.
  destruct (replyToComment _ _ _); [by apply NoDup_snoc_fresh|done].
Qed.

Lemma processThreads_NoDup notion config uid pageId quoteMap groups ids :
  NoDup ids → NoDup (processThreads notion config uid pageId quoteMap groups ids).1.
Proof.
  revert ids. induction groups as [|t rest IH]; intros ids Hnd; simpl; [done|].
  by apply IH, threadStep_NoDup.
Qed.

Lemma pollPages_NoDup fuel notion config uid pages state state' evs :
  pollPages fuel notion config uid pages state = Ret (state', evs) →
  (∀ p, NoDup (processed state p)) → ∀ p, NoDup (processed state' p).
Proof.
  revert state evs. induction pages as [|q rest IH]; intros state evs.
  - simpl. by intros [= -> _].
  - intros (state1 & e1 & e2 & Hpage & Hrest & _)%pollPages_cons_Ret Hnd.
    apply (IH _ _ Hrest).
    apply tryPage_Ret in Hpage as (entries & _ & [(_ & -> & _)|(_ & -> & _)]); [|done].
    intros p. rewrite processed_with_processed. case_decide; [|done].
    by apply processThreads_NoDup.
Qed.

(** X14. No identifier is recorded twice. When the lists of the state
    file hold no duplicate, those written by a cycle hold none either;
    starting without a state file, this is so after every cycle. *)
Theorem X14_no_identifier_recorded_twice fuel notion config uid now disk disk' evs :
  doPoll fuel notion config uid now disk = Some (disk', evs) →
  (∀ p, NoDup (processed (loadState disk) p)) →
  ∀ p, NoDup (processed (loadState disk') p).
Proof.
  unfold doPoll.
  destruct (pollNotionComments fuel notion config uid now disk) as [[d e]| |] eqn:Hpoll;
    [|by intros [= <- _]|done].
  intros [= <- _] Hnd.
  apply pollNotionComments_Ret in Hpoll
    as [(_ & -> & _)|(pages & state' & _ & _ & _ & Hpages & ->)]; [done|].
  intros p. by apply (pollPages_NoDup _ _ _ _ _ _ _ _ Hpages).
Qed.

Lemma X14_witness :
  NoDup (processed
           (loadState (Some {| lastPollTime := 1000;
                               processedComments := {[ "page-1" := ["c-0"; "c-9"] ]} |}))
           "page-1").
Proof.
  apply (X14_no_identifier_recorded_twice 3 Scenario.answered
           (Scenario.config None ["page-1"]) (Some "bot-1") 1000
           (Some {| lastPollTime := 100; processedComments := {[ "page-1" := ["c-0"] ]} |})
           (Some {| lastPollTime := 1000;
                    processedComments := {[ "page-1" := ["c-0"; "c-9"] ]} |})
           []).
  - vm_compute. reflexivity.
  - intros p. unfold processed, loadState. simpl.
    destruct (decide (p = "page-1")) as [->|Hp].
    + rewrite lookup_singleton_eq. simpl. apply NoDup_singleton.
    + rewrite lookup_singleton_ne by done. apply NoDup_nil_2.
Defined.

(** What a cycle does to the keys of the state: a page polled for which
    the state gives a list has an entry afterwards, and the entry of any
    other page, if it has one, is the one it had. *)
Lemma pollPages_keys fuel notion config uid pages state state' evs :
  pollPages fuel notion config uid pages state = Ret (state', evs) →
  (∀ p, p ∈ pages →
        if Js.inherited p
        then processedComments state' !! p = None ↔ processedComments state !! p = None
        else is_Some (processedComments state' !! p))
  ∧ (∀ p, p ∉ pages → processedComments state' !! p = processedComments state !! p).
Proof.
  revert state evs. induction pages as [|q rest IH]; intros state evs.
  - simpl. intros [= -> _]. split; [by intros p ?%elem_of_nil|done].
  - intros (state1 & e1 & e2 & Hpage & Hrest & _)%pollPages_cons_Ret.
    destruct (IH _ _ Hrest) as [IHin IHout].
    apply tryPage_Ret in Hpage as (entries & _ & Hcase).
    assert (Hother : ∀ p, p ≠ q →
              processedComments state1 !! p = processedComments state !! p).
    { intros p Hp. destruct Hcase as [(_ & -> & _)|(_ & -> & _)]; [|done].
      unfold with_processed. simpl. by rewrite lookup_insert_ne. }
    assert (Hq : if Js.inherited q
                 then processedComments state1 !! q = None
                      ↔ processedComments state !! q = None
                 else is_Some (processedComments state1 !! q)).
    { destruct Hcase as [(Hl & -> & _)|(Hl & -> & _)].
      - unfold with_processed. simpl. rewrite lookup_insert_eq.
        destruct (Js.inherited q) eqn:Hinh; [|by eexists].
        split; [done|]. intros Hnone.
        assert (lookup_processed state q = Inherited)
          by by apply lookup_processed_Inherited.
        congruence.
      - apply lookup_processed_Inherited in Hl as [Hnone ->]. done. }
    split.
    + intros p [->|Hp]%elem_of_cons.
      * destruct (decide (q ∈ rest)) as [Hin|Hout].
        -- specialize (IHin q Hin). destruct (Js.inherited q); [|done].
           by rewrite IHin.
        -- by rewrite (IHout q Hout).
      * specialize (IHin p Hp). destruct (decide (p = q)) as [->|Hne].
        -- destruct (Js.inherited q); [|done]. by rewrite IHin.
        -- by rewrite <- (Hother p Hne).
    + intros p [Hpq Hp]%not_elem_of_cons. rewrite IHout by done. by apply Hother.
Qed.

(** X15. The keys of the state file. When a cycle has polled its pages,
    every watched page whose identifier is not the name of a member of
    [Object.prototype] has an entry in the state it writes, be it the
    empty list; a watched page whose identifier is such a name has an
    entry exactly when it had one; and the entry of a page that is not
    watched is the one the cycle found. *)
Theorem X15_cycle_touches_watched_pages_only fuel notion config uid now disk disk' evs pages :
  pollNotionComments fuel notion config uid now disk = Ret (disk', evs) →
  enabled config = true →
  resolveWatched fuel notion config = Ret pages →
  (∀ p, p ∈ pages → Js.inherited p = false →
        is_Some (processedComments (loadState disk') !! p))
  ∧ (∀ p, p ∈ pages → Js.inherited p = true →
        (processedComments (loadState disk') !! p = None
         ↔ processedComments (loadState disk) !! p = None))
  ∧ (∀ p, p ∉ pages →
       processedComments (loadState disk') !! p = processedComments (loadState disk) !! p).
Proof.
  intros Hpoll Hon Hwatched.
  apply pollNotionComments_Ret in Hpoll
    as [([Hoff|Hnone] & -> & _)|(pages' & state' & _ & Hw & _ & Hpages & ->)].
  - congruence.
  - rewrite Hwatched in Hnone. injection Hnone as ->.
    split; [by intros p ?%elem_of_nil|]. split; [by intros p ?%elem_of_nil|done].
  - rewrite Hwatched in Hw. injection Hw as <-.
    apply pollPages_keys in Hpages as [Hin Hout].
    split; [|split; [|done]].
    + intros p Hp Hplain. specialize (Hin p Hp). by rewrite Hplain in Hin.
    + intros p Hp Hinh. specialize (Hin p Hp). by rewrite Hinh in Hin.
Qed.

Lemma X15_witness :
  (∀ p, p ∈ ["page-1"; "constructor"] → Js.inherited p = false →
        is_Some (processedComments
                   (loadState (Some {| lastPollTime := 1000;
                                       processedComments := {[ "page-1" := ["c-0"; "c-9"] ]} |}))
                 !! p))
  ∧ (∀ p, p ∈ ["page-1"; "constructor"] → Js.inherited p = true →
        (processedComments
           (loadState (Some {| lastPollTime := 1000;
                               processedComments := {[ "page-1" := ["c-0"; "c-9"] ]} |})) !! p
         = None
         ↔ processedComments
             (loadState (Some {| lastPollTime := 100;
                                 processedComments := {[ "page-1" := ["c-0"] ]} |})) !! p
           = None))
  ∧ (∀ p, p ∉ ["page-1"; "constructor"] →
       processedComments
         (loadState (Some {| lastPollTime := 1000;
                             processedComments := {[ "page-1" := ["c-0"; "c-9"] ]} |})) !! p
       = processedComments
           (loadState (Some {| lastPollTime := 100;
                               processedComments := {[ "page-1" := ["c-0"] ]} |})) !! p).
Proof.
  apply (X15_cycle_touches_watched_pages_only 3 Scenario.answered
           (Scenario.config None ["page-1"; "constructor"]) (Some "bot-1") 1000
           (Some {| lastPollTime := 100; processedComments := {[ "page-1" := ["c-0"] ]} |})
           (Some {| lastPollTime := 1000;
                    processedComments := {[ "page-1" := ["c-0"; "c-9"] ]} |})
           [] ["page-1"; "constructor"]).
  - vm_compute. reflexivity.
  - reflexivity.
  - vm_compute. reflexivity.
Defined.

Lemma pagePass_ids_origin notion config uid pageId entries ids i :
  i ∈ (pagePass notion config uid pageId entries ids).1 →
  i ∈ ids
  ∨ ∃ d latest, is_latest latest (thread_of d entries) ∧ id latest = i.
Proof.
  unfold pagePass.
  intros [Hold|(d & cs & latest & Hin & Hlast & ->)]%processThreads_ids_origin;
    [by left|right].
  destruct (groupByDiscussion_grouped (map comment entries)) as (_ & Hgroup & _).
  destruct (Hgroup _ _ Hin) as [_ Hcs].
  exists d, latest. split; [|done].
  unfold thread_of. rewrite <- Hcs. by apply last_sort_is_latest.
Qed.

Lemma pollPages_ids_origin fuel notion config uid pages state state' evs p i :
  pollPages fuel notion config uid pages state = Ret (state', evs) →
  i ∈ processed state' p →
  i ∈ processed state p
  ∨ ∃ entries d latest,
      p ∈ pages
      ∧ getAllCommentsForPage fuel notion p = Ret entries
      ∧ is_latest latest (thread_of d entries)
      ∧ id latest = i.
Proof.
  revert state evs. induction pages as [|q rest IH]; intros state evs.
  - simpl. intros [= -> _] Hi. by left.
  - intros (state1 & e1 & e2 & Hpage & Hrest & _)%pollPages_cons_Ret Hi.
    destruct (IH _ _ Hrest Hi) as [Hmid|(entries & d & latest & Hp & Hget & Hlatest & Hid)].
    + apply tryPage_Ret in Hpage as (entries & Hget & [(_ & -> & _)|(_ & -> & _)]);
        [|by left].
      rewrite processed_with_processed in Hmid. case_decide as Hq; [|by left].
      subst q.
      apply pagePass_ids_origin in Hmid as [Hold|(d & latest & Hlatest & Hid)]; [by left|].
      right. exists entries, d, latest. split; [by left|done].
    + right. exists entries, d, latest. split; [by right|done].
Qed.

(** X16. Where a recorded identifier comes from. An identifier found in
    the state after a cycle was there before the cycle, or it is the
    identifier of the latest comment of a thread listed in this cycle for
    that very page, which is one of the watched pages: no other comment
    of a thread is ever recorded, and nothing is recorded under another
    page. *)
Theorem X16_recorded_identifiers_are_latest_comments fuel notion config uid now disk
    disk' evs p i :
  doPoll fuel notion config uid now disk = Some (disk', evs) →
  i ∈ processed (loadState disk') p →
  i ∈ processed (loadState disk) p
  ∨ ∃ pages entries d latest,
      resolveWatched fuel notion config = Ret pages
      ∧ p ∈ pages
      ∧ getAllCommentsForPage fuel notion p = Ret entries
      ∧ is_latest latest (thread_of d entries)
      ∧ id latest = i.
Proof.
  unfold doPoll.
  destruct (pollNotionComments fuel notion config uid now disk) as [[d' e]| |] eqn:Hpoll;
    [|intros [= <- _]; by left|done].
  intros [= <- _] Hi.
  apply pollNotionComments_Ret in Hpoll
    as [(_ & -> & _)|(pages & state' & _ & Hw & _ & Hpages & ->)]; [by left|].
  destruct (pollPages_ids_origin _ _ _ _ _ _ _ _ p i Hpages Hi)
    as [Hold|(entries & d & latest & Hp & Hget & Hlatest & Hid)]; [by left|].
  right. by exists pages, entries, d, latest.
Qed.

Lemma X16_witness :
  "c-9" ∈ processed (loadState (Some {| lastPollTime := 100;
                                        processedComments := {[ "page-1" := ["c-0"] ]} |}))
            "page-1"
  ∨ ∃ pages entries d latest,
      resolveWatched 3 Scenario.answered (Scenario.config None ["page-1"]) = Ret pages
      ∧ "page-1" ∈ pages
      ∧ getAllCommentsForPage 3 Scenario.answered "page-1" = Ret entries
      ∧ is_latest latest (thread_of d entries)
      ∧ id latest = "c-9".
Proof.
  apply (X16_recorded_identifiers_are_latest_comments 3 Scenario.answered
           (Scenario.config None ["page-1"]) (Some "bot-1") 1000
           (Some {| lastPollTime := 100; processedComments := {[ "page-1" := ["c-0"] ]} |})
           (Some {| lastPollTime := 1000;
                    processedComments := {[ "page-1" := ["c-0"; "c-9"] ]} |})
           []).
  - vm_compute. reflexivity.
  - unfold processed, loadState. simpl. rewrite lookup_singleton_eq. simpl.
    apply elem_of_cons. right. apply elem_of_cons. by left.
Defined.

(** ** What is sent *)

Lemma answers_app calls1 calls2 :
  answers (calls1 ++ calls2) = answers calls1 ++ answers calls2.
Proof. unfold answers. by rewrite map_app, concat_app. Qed.

Lemma threadStep_calls notion config uid pageId quoteMap ids t :
  ∃ calls,
    (threadStep notion config uid pageId quoteMap ids t).2 = answers calls
    ∧ Forall (faithful_call notion config) calls.
Proof.
  unfold threadStep.
  destruct (last (sort_by_time t.2)) as [latest|]; [|by exists []].
  destruct (Js.includes ids (id latest)); [by exists []|].
  destruct (is_self uid latest); [by exists []|].
  destruct (String.eqb _ _); [by exists []|]. simpl.
  set (commentText := extractTextFromComment latest).
  set (pageTitle := getPageTitle notion pageId).
  set (quote := quoteMap !! t.1).
  set (reply := processCommentWithAgent notion config commentText pageTitle quote).
  exists [(buildPrompt commentText pageTitle quote, t.1, reply,
           replyToComment notion t.1 reply)].
  split; [done|]. constructor; [|constructor].
  split; [|split].
  - unfold reply, processCommentWithAgent.
    destruct (callAI notion config _) as [text|] eqn:Hcall; [|done].
    by apply callAI_not_empty in Hcall.
  - unfold replyToComment. by destruct (comments_create notion t.1 reply).
  - by exists commentText, pageTitle, quote.
Qed.

Lemma processThreads_calls notion config uid pageId quoteMap groups ids :
  ∃ calls,
    (processThreads notion config uid pageId quoteMap groups ids).2 = answers calls
    ∧ Forall (faithful_call notion config) calls.
Proof.
  revert ids. induction groups as [|t rest IH]; intros ids; simpl; [by exists []|].
  destruct (threadStep_calls notion config uid pageId quoteMap ids t) as (c1 & -> & H1).
  destruct (IH (threadStep notion config uid pageId quoteMap ids t).1) as (c2 & -> & H2).
  exists (c1 ++ c2). split; [by rewrite answers_app | by apply Forall_app].
Qed.

Lemma pollPages_calls fuel notion config uid pages state state' evs :
  pollPages fuel notion config uid pages state = Ret (state', evs) →
  ∃ calls, evs = answers calls ∧ Forall (faithful_call notion config) calls.
Proof.
  revert state evs. induction pages as [|q rest IH]; intros state evs.
  - simpl. intros [= _ <-]. by exists [].
  - intros (state1 & e1 & e2 & Hpage & Hrest & ->)%pollPages_cons_Ret.
    assert (Hhere : ∃ c1, e1 = answers c1 ∧ Forall (faithful_call notion config) c1).
    { apply tryPage_Ret in Hpage as (entries & _ & [(_ & _ & ->)|(_ & _ & ->)]).
      - apply processThreads_calls.
      - by exists []. }
    destruct Hhere as (c1 & -> & Hf1).
    destruct (IH _ _ Hrest) as (c2 & -> & Hf2).
    exists (c1 ++ c2). split; [|by apply Forall_app].
    by rewrite answers_app.
Qed.

(** X17. What a cycle sends. The calls a cycle makes are calls of the
    responder, each followed at once by one post: the post goes out with
    exactly the text the dispatcher returned for a prompt built from a
    comment, this text is never empty, and the cycle takes the post for
    done exactly when the service resolved the request that creates the
    comment with this text in this discussion. Nothing is posted that the
    dispatcher did not return. *)
Theorem X17_every_post_is_a_dispatcher_reply fuel notion config uid now disk disk' evs :
  pollNotionComments fuel notion config uid now disk = Ret (disk', evs) →
  ∃ calls, evs = answers calls ∧ Forall (faithful_call notion config) calls.
Proof.
  intros [(_ & _ & ->)|(pages & state' & _ & _ & _ & Hpages & _)]%pollNotionComments_Ret.
  - by exists [].
  - by apply pollPages_calls in Hpages.
Qed.

Lemma X17_witness :
  ∃ calls,
    [Respond (buildPrompt "Please clarify this metric." (Some "Q3 report") None)
       "Understood.";
     Post "d-0" "Understood." true;
     Respond (buildPrompt "Why?" (Some "Q3 report") (Some "Revenue grew 12%"))
       "Understood.";
     Post "d-1" "Understood." true;
     Respond (buildPrompt "Remove this line?" (Some "Q3 report") None)
       "Understood.";
     Post "d-2" "Understood." true]
    = answers calls
    ∧ Forall (faithful_call Scenario.report (Scenario.config None ["page-1"])) calls.
Proof.
  apply (X17_every_post_is_a_dispatcher_reply 3 Scenario.report
           (Scenario.config None ["page-1"]) (Some "bot-1") 1000 None
           (Some {| lastPollTime := 1000;
                    processedComments := {[ "page-1" := ["c-0"; "c-1"; "c-2"] ]} |})).
  vm_compute. reflexivity.
Defined.

(** ** The entry point *)

Lemma firstNonEmpty_empty values :
  firstNonEmpty values = "" → Forall blank values.
Proof.
  induction values as [|[s|] rest IH]; simpl; [by constructor| |].
  - destruct (String.eqb (Js.trim s) "") eqn:Hs.
    + apply String.eqb_eq in Hs. intros H. constructor; [done | by apply IH].
    + apply String.eqb_neq in Hs. done.
  - intros H. constructor; [done | by apply IH].
Qed.

Lemma firstNonEmpty_first before value after :
  Forall blank before → Js.trim value ≠ "" →
  firstNonEmpty (before ++ Some value :: after) = Js.trim value.
Proof.
  intros Hb Hv. rewrite firstNonEmpty_app_blank by done. simpl.
  apply String.eqb_neq in Hv. by rewrite Hv.
Qed.

Lemma createPlugin_host world file host :
  createPlugin world file (Some host)
  = if negb (Js.truthy (Some (firstNonEmpty (key_sources world file host))))
    then NotCreated
    else if negb (host_enabled host) then NotCreated
    else
      Created
        {| pluginConfig :=
             {| enabled := host_enabled host;
                indexPage := read (raw_indexPage (merged file (Some host)));
                watchedPages := nullish (raw_watchedPages (merged file (Some host))) [];
                aiBaseUrl := read (raw_aiBaseUrl (merged file (Some host)));
                aiApiKey := read (raw_aiApiKey (merged file (Some host)));
                aiApiKeyEnv := read (raw_aiApiKeyEnv (merged file (Some host)));
                aiModel := read (raw_aiModel (merged file (Some host)));
                useGatewayChatCompletions :=
                  read (raw_useGatewayChatCompletions (merged file (Some host)));
                gatewayBaseUrl := read (raw_gatewayBaseUrl (merged file (Some host)));
                gatewayApiKey := read (raw_gatewayApiKey (merged file (Some host)));
                gatewayApiKeyEnv := read (raw_gatewayApiKeyEnv (merged file (Some host)));
                systemPrompt := read (raw_systemPrompt (merged file (Some host))) |};
           notionApiKey := firstNonEmpty (key_sources world file host);
           integrationUserId := read (raw_integrationUserId (merged file (Some host))) |}.
Proof. reflexivity. Qed.

Lemma createPlugin_Created world file host started :
  createPlugin world file (Some host) = Created started →
  notionApiKey started = firstNonEmpty (key_sources world file host)
  ∧ notionApiKey started ≠ ""
  ∧ enabled (pluginConfig started) = true
  ∧ integrationUserId started = read (raw_integrationUserId (merged file (Some host)))
  ∧ indexPage (pluginConfig started) = read (raw_indexPage (merged file (Some host)))
  ∧ watchedPages (pluginConfig started)
    = nullish (raw_watchedPages (merged file (Some host))) [].
Proof.
  rewrite createPlugin_host.
  generalize (firstNonEmpty (key_sources world file host)). intros key.
  generalize (merged file (Some host)). intros settings.
  destruct (Js.truthy (Some key)) eqn:Hkey; [|done]. cbn [negb].
  destruct (host_enabled host) eqn:Hon; [|done].
  cbn [negb]. intros [= <-]. cbn.
  split; [reflexivity|]. split; [by intros ->|].
  do 3 (split; [reflexivity|]). reflexivity.
Qed.

Lemma host_enabled_off host : host_enabled host = false ↔ switched_off host.
Proof.
  unfold host_enabled, switched_off. split.
  - destruct (plugin_entry host) as [entry|]; [|done].
    destruct (entry_enabled entry) as [| |[|]] eqn:Hflag; try done.
    intros _. by exists entry.
  - intros (entry & -> & ->). done.
Qed.

(** X18. Where the key of the client comes from. The plugin is not
    created exactly when the setting, the environment variable it names
    and the channel of the host are all missing or blank, or when the
    host has switched the plugin off. When it is created the key is not
    empty: it is the setting, trimmed, when that is not blank, whatever
    the environment and the channel hold; else the value of the
    environment variable; else the key of the channel. A host entry that
    sets the key hides the one of [config.json]. Without a host
    configuration the entry point raises. *)
Theorem X18_notion_key_resolution world file host :
  (createPlugin world file (Some host) = NotCreated
   ↔ Forall blank (key_sources world file host) ∨ switched_off host)
  ∧ (∀ started,
       createPlugin world file (Some host) = Created started →
       notionApiKey started ≠ ""
       ∧ (∀ key, read (raw_notionApiKey (merged file (Some host))) = Some key →
            Js.trim key ≠ "" → notionApiKey started = Js.trim key)
       ∧ (∀ key, blank (read (raw_notionApiKey (merged file (Some host)))) →
            getEnv world (read (raw_notionApiKeyEnv (merged file (Some host)))) = key →
            Js.trim key ≠ "" → notionApiKey started = Js.trim key)
       ∧ (∀ key, blank (read (raw_notionApiKey (merged file (Some host)))) →
            Js.trim (getEnv world (read (raw_notionApiKeyEnv (merged file (Some host)))))
            = "" →
            channel_apiKey host = Some key → notionApiKey started = Js.trim key))
  ∧ (∀ entry settings key,
       plugin_entry host = Some entry → entry_config entry = Value settings →
       raw_notionApiKey settings = Value key →
       read (raw_notionApiKey (merged file (Some host))) = Some key)
  ∧ createPlugin world file None = TypeError.
Proof.
  split; [|split; [|split; [|done]]].
  - rewrite createPlugin_host, <- host_enabled_off.
    destruct (Js.truthy (Some (firstNonEmpty (key_sources world file host)))) eqn:Hkey;
      cbn [negb].
    + assert (Hsome : ¬ Forall blank (key_sources world file host)).
      { intros Hb. apply firstNonEmpty_blank in Hb. rewrite Hb in Hkey. done. }
      destruct (host_enabled host); cbn [negb].
      * split; [done|]. by intros [?|?].
      * split; [by right|done].
    + split; [|done]. intros _. left. apply firstNonEmpty_empty.
      simpl in Hkey. apply negb_false_iff, String.eqb_eq in Hkey. done.
  - intros started (Hkey & Hne & _)%createPlugin_Created.
    split; [done|]. rewrite Hkey. unfold key_sources.
    split; [|split].
    + intros key -> Hk. by apply (firstNonEmpty_first []).
    + intros key Hblank <- Hk.
      by apply (firstNonEmpty_first [read (raw_notionApiKey (merged file (Some host)))]);
        [repeat constructor|].
    + intros key Hblank Henv Hchannel. rewrite Hchannel.
      destruct (decide (Js.trim key = "")) as [Hk|Hk].
      * rewrite Hk. apply firstNonEmpty_blank. by repeat constructor.
      * by apply (firstNonEmpty_first
                    [read (raw_notionApiKey (merged file (Some host)));
                     Some (getEnv world
                             (read (raw_notionApiKeyEnv (merged file (Some host)))))]);
          [repeat constructor|].
  - intros entry settings key Hentry Hsettings Hkey.
    unfold merged, entryConfig. simpl. rewrite Hentry, Hsettings. simpl.
    by rewrite Hkey.
Qed.

(** X19. A setting of the host entry hides the one of [config.json],
    also when it is [null]. For the integration identifier: the started
    plugin runs with the one of the host entry when the entry has the
    property, else with the one of [config.json]; an identifier set to
    [null] in the host entry leaves the plugin without one, whatever
    [config.json] names, and then a thread whose latest comment is not
    recorded and has text is answered whoever wrote it, the integration
    included. An [enabled] written in [config.json] is never looked at:
    the plugin starts all the same and its cycles pass the guard. *)
Theorem X19_started_plugin_settings world file host started :
  createPlugin world file (Some host) = Created started →
  enabled (pluginConfig started) = true
  ∧ (∀ entry settings,
       plugin_entry host = Some entry → entry_config entry = Value settings →
       (raw_integrationUserId settings ≠ Absent →
        integrationUserId started = read (raw_integrationUserId settings))
       ∧ (raw_integrationUserId settings = Absent →
          integrationUserId started
          = read (raw_integrationUserId (loadPluginConfig file)))
       ∧ (raw_integrationUserId settings = Null →
          ∀ notion pageId quoteMap ids d cs latest,
            is_latest latest cs → id latest ∉ ids →
            Js.trim (extractTextFromComment latest) ≠ "" →
            ∃ prompt response (success : bool),
              threadStep notion (pluginConfig started) (integrationUserId started)
                pageId quoteMap ids (d, cs)
              = (if success then ids ++ [id latest] else ids,
                 [Respond prompt response; Post d response success])))
  ∧ (∀ settings flag,
       file = Parsed settings →
       createPlugin world (Parsed (with_raw_enabled flag settings)) (Some host)
       = Created started).
Proof.
  intros Hcreated.
  destruct (createPlugin_Created _ _ _ _ Hcreated) as (_ & _ & Hon & Hid & _ & _).
  split; [done|]. split.
  - intros entry settings Hentry Hsettings. rewrite Hid.
    unfold merged, entryConfig. simpl. rewrite Hentry, Hsettings. simpl.
    split; [|split].
    + by destruct (raw_integrationUserId settings).
    + intros ->. done.
    + intros -> notion pageId quoteMap ids d cs latest Hlatest Hfresh Htext. simpl.
      rewrite (threadStep_resolve _ _ _ _ _ _ _ _ latest) by by apply is_latest_last_sort.
      destruct (resolveThread_cases None ids latest) as (_ & _ & _ & Hanswer).
      rewrite Hanswer by done. simpl. eauto.
  - intros settings flag ->. rewrite <- Hcreated. reflexivity.
Qed.

Lemma X19_witness :
  enabled (pluginConfig Installation.started) = true
  ∧ (∀ entry settings,
       plugin_entry Installation.host = Some entry → entry_config entry = Value settings →
       (raw_integrationUserId settings ≠ Absent →
        integrationUserId Installation.started = read (raw_integrationUserId settings))
       ∧ (raw_integrationUserId settings = Absent →
          integrationUserId Installation.started
          = read (raw_integrationUserId
                    (loadPluginConfig (Parsed Installation.file_settings))))
       ∧ (raw_integrationUserId settings = Null →
          ∀ notion pageId quoteMap ids d cs latest,
            is_latest latest cs → id latest ∉ ids →
            Js.trim (extractTextFromComment latest) ≠ "" →
            ∃ prompt response (success : bool),
              threadStep notion (pluginConfig Installation.started)
                (integrationUserId Installation.started) pageId quoteMap ids (d, cs)
              = (if success then ids ++ [id latest] else ids,
                 [Respond prompt response; Post d response success])))
  ∧ (∀ settings flag,
       Parsed Installation.file_settings = Parsed settings →
       createPlugin Scenario.report (Parsed (with_raw_enabled flag settings))
         (Some Installation.host)
       = Created Installation.started).
Proof.
  apply (X19_started_plugin_settings Scenario.report (Parsed Installation.file_settings)
           Installation.host Installation.started).
  vm_compute. reflexivity.
Defined.

(** ** Pending threads *)

Lemma thread_in_groups entries d latest :
  is_latest latest (thread_of d entries) →
  ∃ g1 g2,
    groupByDiscussion (map comment entries) = g1 ++ (d, thread_of d entries) :: g2
    ∧ d ∉ g1.*1.
Proof.
  intros (l1 & l2 & Hsplit & _).
  destruct (groupByDiscussion_grouped (map comment entries)) as (Hnd & Hg & Hall).
  assert (Hin : latest ∈ thread_of d entries).
  { rewrite Hsplit. apply elem_of_app. right. by left. }
  unfold thread_of in Hin. apply list_elem_of_filter in Hin as [Hd Hin].
  apply Hall in Hin. rewrite Hd in Hin.
  apply list_elem_of_fmap in Hin as ([d' cs] & Heq & Hin). simpl in Heq. subst d'.
  destruct (Hg _ _ Hin) as [_ Hcs].
  apply list_elem_of_split in Hin as (g1 & g2 & Hgroups).
  exists g1, g2. split.
  - rewrite Hgroups. by rewrite Hcs.
  - rewrite Hgroups, fmap_app in Hnd. apply NoDup_app in Hnd as (_ & Hdisj & _).
    intros Hd1. apply (Hdisj _ Hd1). simpl. by left.
Qed.

Lemma replyToComment_created notion d reply :
  replyToComment notion d reply = true ↔ created notion d reply.
Proof.
  unfold replyToComment, created.
  destruct (comments_create notion d reply) as [u|m]; split; try done.
  - intros _. by exists u.
  - by intros [u ?].
Qed.

Lemma pagePass_answers notion config uid pageId entries ids d latest :
  unique_comment_ids entries →
  is_latest latest (thread_of d entries) →
  pending uid ids latest →
  ∃ before after (success : bool),
    (pagePass notion config uid pageId entries ids).2
    = before ++ answer_of notion config pageId entries d latest success ++ after
    ∧ (success = true
       ↔ created notion d (reply_for notion config pageId entries d latest))
    ∧ (success = true →
       id latest ∈ (pagePass notion config uid pageId entries ids).1).
Proof.
  intros Hu Hlatest (Hfresh & Hself & Htext).
  destruct (thread_in_groups _ _ _ Hlatest) as (g1 & g2 & Hgroups & Hd1).
  pose proof (is_latest_last_sort _ _ Hlatest) as Hlast.
  unfold pagePass. rewrite Hgroups, processThreads_app, processThreads_cons.
  cbn zeta. cbn [fst snd].
  set (quoteMap := buildQuoteMap entries).
  set (ids1 := (processThreads notion config uid pageId quoteMap g1 ids).1).
  assert (Hfresh1 : id latest ∉ ids1).
  { intros [Hin|(d' & cs' & latest' & Hin & Hlast' & Hid)]%processThreads_ids_origin;
      [done|].
    apply Hd1. apply list_elem_of_fmap. exists (d', cs'). split; [|done]. simpl.
    eapply (unique_ids_distinct_latest entries d (thread_of d entries) latest d' cs' latest');
      try done.
    - rewrite Hgroups. apply elem_of_app. right. by left.
    - rewrite Hgroups. apply elem_of_app. by left. }
  rewrite (threadStep_resolve _ _ _ _ _ _ _ _ _ Hlast).
  destruct (resolveThread_cases uid ids1 latest) as (_ & _ & _ & Hanswer).
  rewrite Hanswer by done.
  cbn [perform fst snd].
  eexists _, _, (replyToComment notion d (reply_for notion config pageId entries d latest)).
  split; [reflexivity|]. split; [apply replyToComment_created|].
  unfold reply_for. fold quoteMap. intros ->.
  eapply elem_of_prefix; [|apply processThreads_grows].
  apply elem_of_app. right. by left.
Qed.

Lemma tryPage_returns fuel notion config uid state pageId :
  finished (getAllCommentsForPage fuel notion pageId) →
  ∃ r, tryPage fuel notion config uid state pageId = Ret r.
Proof.
  intros Hfin.
  destruct (tryPage fuel notion config uid state pageId) as [r|e|] eqn:Htry; [by exists r| |].
  - by apply tryPage_never_throws in Htry.
  - exfalso. apply Hfin. unfold tryPage, processPage in Htry.
    destruct (getAllCommentsForPage fuel notion pageId) as [entries|e|]; [|done..].
    simpl in Htry. destruct (lookup_processed state pageId); [done|].
    by destruct (groupByDiscussion (map comment entries)).
Qed.

(** A cycle over pages whose listings come to an end comes to an end. *)
Lemma pollPages_returns fuel notion config uid pages state :
  (∀ q, q ∈ pages → finished (getAllCommentsForPage fuel notion q)) →
  ∃ r, pollPages fuel notion config uid pages state = Ret r.
Proof.
  revert state. induction pages as [|q rest IH]; intros state Hfin; [by eexists|].
  destruct (tryPage_returns fuel notion config uid state q) as [[state1 e1] Hq].
  { apply Hfin. by left. }
  destruct (IH state1) as [[state2 e2] Hrest].
  { intros q' Hq'. apply Hfin. by right. }
  eexists. simpl. rewrite Hq. simpl. rewrite Hrest. done.
Qed.

Lemma pollPages_answers fuel notion config uid pages state state' evs p entries d latest :
  pollPages fuel notion config uid pages state = Ret (state', evs) →
  p ∈ pages →
  Js.inherited p = false →
  getAllCommentsForPage fuel notion p = Ret entries →
  unique_comment_ids entries →
  is_latest latest (thread_of d entries) →
  pending uid (processed state p) latest →
  ∃ before after (success : bool),
    evs = before ++ answer_of notion config p entries d latest success ++ after
    ∧ (success = true ↔ created notion d (reply_for notion config p entries d latest))
    ∧ (success = true → id latest ∈ processed state' p).
Proof.
  intros Hpoll Hp Hplain Hget Hu Hlatest. revert state evs Hpoll Hp.
  induction pages as [|q rest IH]; intros state evs Hpoll Hp Hpending.
  - by apply elem_of_nil in Hp.
  - apply pollPages_cons_Ret in Hpoll as (state1 & e1 & e2 & Hpage & Hrest & ->).
    apply tryPage_Ret in Hpage as (entries' & Hget' & Hcase).
    destruct (decide (q = p)) as [->|Hqp].
    + assert (entries' = entries) as -> by congruence.
      destruct Hcase as [(_ & Hstate1 & He1)|(Hinh & _)].
      2: { rewrite (lookup_processed_plain _ _ Hplain) in Hinh. done. }
      destruct (pagePass_answers notion config uid p entries (processed state p) d latest
                  Hu Hlatest Hpending) as (before & after & success & Hevs & Hflag & Hposted).
      exists before, (after ++ e2), success. split; [|split; [done|]].
      * rewrite He1, Hevs. by rewrite <- !app_assoc.
      * intros Hok. specialize (Hposted Hok).
        destruct (pollPages_grows _ _ _ _ _ _ _ _ p Hrest) as [_ Hprefix].
        eapply elem_of_prefix; [|exact Hprefix].
        rewrite Hstate1, processed_with_processed. by rewrite decide_True.
    + apply elem_of_cons in Hp as [->|Hp]; [done|].
      assert (Hsame : processed state1 p = processed state p).
      { destruct Hcase as [(_ & -> & _)|(_ & -> & _)]; [|done].
        rewrite processed_with_processed. by rewrite decide_False. }
      destruct (IH _ _ Hrest Hp) as (before & after & success & -> & Hflag & Hposted).
      { by rewrite Hsame. }
      exists (e1 ++ before), after, success.
      split; [by rewrite <- app_assoc|done].
Qed.

(** X20. A pending thread is answered within the cycle. Take an enabled
    plugin whose watch list resolves to pages whose listings all come to
    an end, a watched page whose identifier is not the name of a member
    of [Object.prototype] and whose comments carry identifiers of their
    own, and a thread of it whose latest comment is pending when the
    cycle starts. Then the cycle comes to an end, and in it the responder
    is called for this comment and the reply is posted to this thread,
    with the prompt built from the text of this latest comment, the title
    of the page and the quote of the thread; the post counts as done
    exactly when the service created the comment, and then the latest
    comment is recorded for the page in the state the cycle writes. *)
Theorem X20_pending_thread_is_answered fuel notion config uid now disk
    pages p entries d latest :
  enabled config = true →
  resolveWatched fuel notion config = Ret pages →
  (∀ q, q ∈ pages → finished (getAllCommentsForPage fuel notion q)) →
  p ∈ pages →
  Js.inherited p = false →
  getAllCommentsForPage fuel notion p = Ret entries →
  unique_comment_ids entries →
  is_latest latest (thread_of d entries) →
  pending uid (processed (loadState disk) p) latest →
  ∃ disk' evs before after (success : bool),
    pollNotionComments fuel notion config uid now disk = Ret (disk', evs)
    ∧ evs = before ++ answer_of notion config p entries d latest success ++ after
    ∧ (success = true ↔ created notion d (reply_for notion config p entries d latest))
    ∧ (success = true → id latest ∈ processed (loadState disk') p).
Proof.
  intros Hon Hwatched Hfin Hp Hplain Hget Hu Hlatest Hpending.
  destruct (pollPages_returns fuel notion config uid pages (loadState disk) Hfin)
    as [[state' evs] Hpages].
  assert (Hne : pages ≠ []) by (intros ->; by apply elem_of_nil in Hp).
  destruct (pollPages_answers _ _ _ _ _ _ _ _ _ _ _ _ Hpages Hp Hplain Hget Hu Hlatest
              Hpending) as (before & after & success & Hevs & Hflag & Hposted).
  eexists _, evs, before, after, success. split.
  { by apply (pollNotionComments_watched _ _ _ _ _ _ pages state'). }
  done.
Qed.

Lemma X20_witness :
  ∃ disk' evs before after (success : bool),
    pollNotionComments 3 Scenario.report (Scenario.config None ["page-1"])
      (Some "bot-1") 1000 None
    = Ret (disk', evs)
    ∧ evs
      = before
        ++ answer_of Scenario.report (Scenario.config None ["page-1"]) "page-1"
             [page_entry Scenario.question;
              inline_entry Scenario.revenue Scenario.inline_question;
              inline_entry Scenario.rule Scenario.on_divider]
             "d-1" Scenario.inline_question success
        ++ after
    ∧ (success = true
       ↔ created Scenario.report "d-1"
           (reply_for Scenario.report (Scenario.config None ["page-1"]) "page-1"
              [page_entry Scenario.question;
               inline_entry Scenario.revenue Scenario.inline_question;
               inline_entry Scenario.rule Scenario.on_divider]
              "d-1" Scenario.inline_question))
    ∧ (success = true → id Scenario.inline_question ∈ processed (loadState disk') "page-1").
Proof.
  apply (X20_pending_thread_is_answered 3 Scenario.report
           (Scenario.config None ["page-1"]) (Some "bot-1") 1000 None ["page-1"]).
  - reflexivity.
  - vm_compute. reflexivity.
  - intros q ->%list_elem_of_singleton. by vm_compute.
  - by left.
  - by vm_compute.
  - vm_compute. reflexivity.
  - unfold unique_comment_ids. by apply (bool_decide_unpack _).
  - exists [], []. split; [by vm_compute|]. split; constructor.
  - split; [|split].
    + unfold processed, loadState. simpl. rewrite lookup_empty. simpl. apply not_elem_of_nil.
    + by vm_compute.
    + by vm_compute.
Defined.

(** ** Quotes *)

Lemma quotes_of_cons d entry rest :
  quotes_of d (entry :: rest)
  = match (if decide (discussion_id (comment entry) = d)
           then (if Js.truthy (quote entry) then quote entry else None)
           else None) with
    | Some q => q :: quotes_of d rest
    | None => quotes_of d rest
    end.
Proof. reflexivity. Qed.

Lemma quoteMap_fold entries (quoteMap : gmap string string) d :
  fold_left
    (λ quoteMap entry,
       match quote entry with
       | Some q =>
           if Js.truthy (Some q)
           then <[discussion_id (comment entry) := q]> quoteMap
           else quoteMap
       | None => quoteMap
       end)
    entries quoteMap !! d
  = match last (quotes_of d entries) with
    | Some q => Some q
    | None => quoteMap !! d
    end.
Proof.
  revert quoteMap. induction entries as [|entry rest IH]; intros quoteMap; [done|].
  cbn [fold_left]. rewrite IH, quotes_of_cons.
  destruct (quote entry) as [q|] eqn:Hq.
  - destruct (Js.truthy (Some q)) eqn:Htruthy.
    + case_decide as Hd.
      * rewrite last_cons. destruct (last (quotes_of d rest)); [done|].
        by rewrite <- Hd, lookup_insert_eq.
      * destruct (last (quotes_of d rest)); [done|]. by rewrite lookup_insert_ne.
    + by case_decide.
  - by case_decide.
Qed.

(** X21. The quote of a thread. The quote a thread is answered with is
    the last quote, in the order the comments of the page were fetched,
    that a comment of this thread carries; a thread none of whose
    comments carries a quote has none, and the comments of other threads
    do not matter. *)
Theorem X21_quote_of_a_thread entries d :
  buildQuoteMap entries !! d = last (quotes_of d entries)
  ∧ (∀ others,
       Forall (λ entry, discussion_id (comment entry) ≠ d) others →
       buildQuoteMap (entries ++ others) !! d = buildQuoteMap entries !! d)
  ∧ (Forall (λ entry, discussion_id (comment entry) = d → Js.truthy (quote entry) = false)
       entries →
     buildQuoteMap entries !! d = None).
Proof.
  assert (Hmap : ∀ l, buildQuoteMap l !! d = last (quotes_of d l)).
  { intros l. unfold buildQuoteMap. rewrite quoteMap_fold.
    destruct (last (quotes_of d l)); [done|]. apply lookup_empty. }
  split; [apply Hmap|]. split.
  - intros others Hothers. rewrite !Hmap. unfold quotes_of. rewrite omap_app.
    fold (quotes_of d entries). fold (quotes_of d others).
    assert (quotes_of d others = []) as ->; [|by rewrite app_nil_r].
    induction Hothers as [|entry others Hentry _ IH]; [done|].
    by rewrite quotes_of_cons, decide_False, IH.
  - intros Hnone. rewrite Hmap.
    assert (quotes_of d entries = []) as ->; [|done].
    induction Hnone as [|entry rest Hentry _ IH]; [done|].
    rewrite quotes_of_cons. case_decide as Hd; [|by rewrite IH].
    by rewrite (Hentry Hd), IH.
Qed.
